(** * Hermes2D discrete-problem assembly engine: a shallow embedding

    The development follows [hermes2d/src/discrete_problem.cpp].  The class
    template [DiscreteProblem<Scalar>] is modelled at its instantiation
    [Scalar = double]; a [double] is an IEEE-754 binary64 value, i.e. a
    primitive [float].  Effects on the externally owned sparse matrix and
    right-hand-side vector, and the calls into the user-supplied form
    callables, are recorded in an event trace in program order. *)

From Stdlib Require Import ZArith NArith List Bool Lia String.
From Stdlib Require Import Floats.PrimFloat.
Import ListNotations.

#[local] Set Warnings "-inexact-float".
#[local] Open Scope Z_scope.

(** ** Scalars and dense local blocks *)

Definition Scalar := float.

(** [fabs(x) < 1e-12] and [std::abs(x) < 1e-12] of the source. *)
Definition negligible (x : Scalar) : bool :=
  PrimFloat.ltb (PrimFloat.abs x) 1e-12%float.

(** A dense block [Scalar**], read as [M r c = matrix[r][c]]. *)
Definition Matrix := nat -> nat -> Scalar.

(** [matrix[i][j] = v]. *)
Definition mset (M : Matrix) (i j : nat) (v : Scalar) : Matrix :=
  fun r c => if (Nat.eqb r i && Nat.eqb c j)%bool then v else M r c.

(** Modelled from the spec: the dense-matrix helpers [chsgn] and [transpose]
    (namespace [DenseMatrixOperations], not part of the sources at hand).  The
    spec calls their combined result "the transposed, sign-flipped block":
    [chsgn(matrix, m, n)] negates the [m] x [n] block in place and
    [transpose(matrix, m, n)] turns the [m] x [n] block into its [n] x [m]
    transpose in place. *)
Definition chsgn (M : Matrix) (m n : nat) : Matrix :=
  fun r c => if (Nat.ltb r m && Nat.ltb c n)%bool then PrimFloat.opp (M r c) else M r c.

Definition transpose (M : Matrix) (m n : nat) : Matrix :=
  fun r c => if (Nat.ltb r n && Nat.ltb c m)%bool then M c r else M r c.

(** ** Errors

    [error(...)] of the source logs its message and terminates the run;
    [throw] raises a C++ exception.  Both end the current call. *)
Inductive Exn :=
| Exception (msg : string)                          (* Hermes::Exceptions::Exception *)
| NullException (param_idx : Z)
| LengthException (param_idx : Z) (wrong right : Z)
| FatalError (msg : string)                         (* error(...) *)
| StdException (what : string).                     (* any other std::exception *)

Definition Result (A : Type) := sum Exn A.

(** ** Meshes, elements, traversal states *)

(** Region markers of a form.  The three sentinels are string constants of a
    header that is not part of the sources at hand; only their being
    distinct from each other and from user markers matters. *)
Inductive Area :=
| HERMES_ANY
| H2D_DG_INNER_EDGE
| H2D_DG_BOUNDARY_EDGE
| UserMarker (name : string).

Definition Area_eqb (a b : Area) : bool :=
  match a, b with
  | HERMES_ANY, HERMES_ANY => true
  | H2D_DG_INNER_EDGE, H2D_DG_INNER_EDGE => true
  | H2D_DG_BOUNDARY_EDGE, H2D_DG_BOUNDARY_EDGE => true
  | UserMarker s, UserMarker t => String.eqb s t
  | _, _ => false
  end.

(** Result of [MarkersConversion::get_internal_marker]. *)
Record IntValid := { marker : Z; valid : bool }.

Record Mesh := {
  mesh_seq : Z;                                     (* get_seq() *)
  element_markers_conversion : Area -> IntValid;    (* get_element_markers_conversion().get_internal_marker *)
  boundary_markers_conversion : Area -> IntValid    (* get_boundary_markers_conversion().get_internal_marker *)
}.

Inductive ElementMode := HERMES_MODE_TRIANGLE | HERMES_MODE_QUAD.

Record Element := {
  el_id : Z;
  el_marker : Z;                 (* marker *)
  en_marker : nat -> Z;          (* en[k]->marker *)
  get_num_surf : nat;            (* number of edges = number of vertices *)
  get_mode : ElementMode;
  visited : bool
}.

(** [Traverse::State]: one (possibly NULL) element per mesh, the
    representative element, the boundary flag of each edge, the active
    surface. *)
Record State := {
  e : list (option Element);
  rep : Element;
  bnd : nat -> bool;
  isurf : Z                 (* int; -1 outside the surface loops *)
}.

Definition set_isurf (st : State) (k : Z) : State :=
  {| e := e st; rep := rep st; bnd := bnd st; isurf := k |}.

(** [current_state->e[k]]; [None] is the NULL pointer. *)
Definition state_e (st : State) (k : nat) : option Element := nth k (e st) None.

Definition is_null {A : Type} (p : option A) : bool :=
  match p with None => true | Some _ => false end.

(** ** Assembly lists *)

Record AsmEntry := { idx : Z; dof : Z; coef : Scalar }.

(** [AsmList]: the arrays [idx], [dof], [coef] of length [cnt]. *)
Definition AsmList := list AsmEntry.

Definition cnt (al : AsmList) : nat := List.length al.

Definition null_entry : AsmEntry := {| idx := 0; dof := -1; coef := 0%float |}.

Definition al_dof (al : AsmList) (k : nat) : Z := dof (nth k al null_entry).
Definition al_coef (al : AsmList) (k : nat) : Scalar := coef (nth k al null_entry).
Definition al_dofs (al : AsmList) : list Z := map dof al.

(** [current_als[k]]. *)
Definition als_at (als : list AsmList) (k : nat) : AsmList := nth k als [].

(** ** Functions on meshes, reference maps *)

(** What the order estimation reads of a [MeshFunction] / [Solution]. *)
Record MeshFunction := {
  fn_mesh : Mesh;
  get_fn_order : Z;
  get_edge_fn_order : Z -> Z;
  get_num_components : Z
}.

(** What the assembly reads of a [RefMap] once its active element is set. *)
Record RefMap := {
  get_inv_ref_order : Z;
  active_element_mode : ElementMode     (* get_active_element()->get_mode() *)
}.

(** ** Weak forms *)

(** [SymFlag]: the declaration is not part of the sources at hand; the data
    model has the three tags, compared by the source as [sym == 1],
    [sym != 0] and [sym < 0]. *)
Inductive SymFlag := HERMES_ANTISYM | HERMES_NONSYM | HERMES_SYM.

Definition sym_int (s : SymFlag) : Z :=
  match s with HERMES_ANTISYM => -1 | HERMES_NONSYM => 0 | HERMES_SYM => 1 end.

(** Dynamic type of a form: [...FormVol] or [...FormSurf]. *)
Inductive FormKind := Vol | Surf.

(** Where a form callable is evaluated: the traversal state, the active
    neighbor segment (DG only) and the quadrature order the geometry and
    the shape functions were initialised with. *)
Record EvalSite := {
  site_state : State;
  site_neighbor : option nat;
  site_quad_order : Z
}.

Record MatrixForm := {
  mf_kind : FormKind;
  mf_i : nat;
  mf_j : nat;
  mf_sym : SymFlag;
  mf_scaling_factor : Scalar;
  mf_areas : list Area;
  mf_u_ext_offset : nat;
  mf_ext : list MeshFunction;
  (* form->value(n, wt, u_ext, u = base_fns[j], v = test_fns[i], geometry, ext) *)
  mf_value : EvalSite -> nat -> nat -> Scalar;
  (* form->ord(1, &fake_wt, u_ext_ord, ou, ov, &geom_ord, &ext_ord).get_order() *)
  mf_ord : list Z -> Z -> Z -> list Z -> Z
}.

Record VectorForm := {
  vf_kind : FormKind;
  vf_i : nat;
  vf_scaling_factor : Scalar;
  vf_areas : list Area;
  vf_u_ext_offset : nat;
  vf_ext : list MeshFunction;
  (* form->value(n, wt, u_ext, v = test_fns[i], geometry, ext) *)
  vf_value : EvalSite -> nat -> Scalar;
  (* form->ord(1, &fake_wt, u_ext_ord, ov, &geom_ord, &ext_ord).get_order() *)
  vf_ord : list Z -> Z -> list Z -> Z
}.

(** [form->areas[0]]; every form is constructed with at least one area, the
    default being [HERMES_ANY]. *)
Definition areas0 (areas : list Area) : Area := nth 0%nat areas HERMES_ANY.

Record WeakForm := {
  get_neq : nat;
  wf_get_seq : Z;
  mfvol : list MatrixForm;
  mfsurf : list MatrixForm;
  vfvol : list VectorForm;
  vfsurf : list VectorForm;
  get_blocks : bool -> nat -> nat -> bool    (* get_blocks(force_diagonal_blocks)[m][n] *)
}.

(** Block-weight table. *)
Record Table := {
  get_size : nat;
  get_A : nat -> nat -> Scalar
}.

(** ** Spaces *)

Record Space := {
  get_mesh : Mesh;
  get_num_dofs : Z;
  get_seq : Z;
  get_element_assembly_list : Element -> Z -> AsmList;          (* (e, first_dof) *)
  get_boundary_assembly_list : Element -> Z -> Z -> AsmList;    (* (e, isurf, first_dof) *)
  get_element_order : Z -> Z;
  get_edge_order : Element -> nat -> Z;
  shapeset_num_components : Z
}.

Definition null_mesh : Mesh :=
  {| mesh_seq := 0;
     element_markers_conversion := fun _ => {| marker := 0; valid := false |};
     boundary_markers_conversion := fun _ => {| marker := 0; valid := false |} |}.

Definition null_space : Space :=
  {| get_mesh := null_mesh; get_num_dofs := 0; get_seq := 0;
     get_element_assembly_list := fun _ _ => [];
     get_boundary_assembly_list := fun _ _ _ => [];
     get_element_order := fun _ => 0;
     get_edge_order := fun _ _ => 0;
     shapeset_num_components := 1 |}.

(** [spaces[k]]; the constructor guarantees one space per equation, and every
    form index is below the number of equations. *)
Definition space_at (spaces : list Space) (k : nat) : Space := nth k spaces null_space.

Definition null_element : Element :=
  {| el_id := 0; el_marker := 0; en_marker := fun _ => 0; get_num_surf := 0;
     get_mode := HERMES_MODE_TRIANGLE; visited := false |}.

(** [*p] for an element pointer; only reached behind a NULL test. *)
Definition deref (p : option Element) : Element :=
  match p with Some x => x | None => null_element end.

(** ** Neighbor searches and the multimesh tree *)

Record NeighborSearch := {
  n_neighbors : Z;                                   (* unsigned int *)
  neighbors : list Element;
  (* LightArray<Transformations*>: the bisection codes transf[0..num_levels) *)
  central_transformations : list (option (list Z));
  (* assembly list of the neighbor element of segment [k] on a space, as
     collected by create_extended_asmlist *)
  neighbor_asmlist : nat -> Space -> AsmList
}.

(** [NeighborNode*]: NULL, or a node with its transformation and two sons. *)
Inductive NodePtr :=
| NULL
| NeighborNode (transformation : Z) (left_son right_son : NodePtr).

(** Modelled from the spec: [NeighborSearch::ExtendedShapeset] (declared
    outside the sources at hand): "the union of the central element's free
    shape functions and the neighbor element's free shape functions
    restricted to this sub-edge, each tagged with which side it has support
    on".  The central list comes first; [has_support_on_neighbor(k)] holds
    from index [central_al->cnt] on. *)
Record ExtendedShapeset := {
  central_al : AsmList;
  neighbor_al : AsmList
}.

Definition ext_cnt (es : ExtendedShapeset) : nat := (cnt (central_al es) + cnt (neighbor_al es))%nat.
Definition ext_dofs (es : ExtendedShapeset) : list Z := al_dofs (central_al es) ++ al_dofs (neighbor_al es).
Definition ext_dof (es : ExtendedShapeset) (k : nat) : Z := nth k (ext_dofs es) (-1).
Definition has_support_on_neighbor (es : ExtendedShapeset) (k : nat) : bool :=
  Nat.leb (cnt (central_al es)) k.

(** ** Event trace *)

Inductive Event :=
| EvMatrixOrd (i j : nat)                       (* MatrixForm::ord invoked *)
| EvVectorOrd (i : nat)                         (* VectorForm::ord invoked *)
| EvMatrixValue (quad_order : Z) (j i : nat)    (* MatrixForm::value invoked for base j, test i *)
| EvVectorValue (quad_order : Z) (i : nat)      (* VectorForm::value invoked for test i *)
| MatZero
| MatFree
| MatPrealloc (n : Z)
| MatPreAdd (row col : Z)
| MatAlloc
| MatAdd (m n : nat) (block : Matrix) (rows cols : list Z)
| MatFinish
| RhsAlloc (n : Z)
| RhsZero
| RhsAdd (row : Z) (val : Scalar)
| RhsFinish
| AssignDofs.

Definition is_MatAdd (ev : Event) : bool :=
  match ev with MatAdd _ _ _ _ _ => true | _ => false end.

Definition is_RhsAdd (ev : Event) : bool :=
  match ev with RhsAdd _ _ => true | _ => false end.

Definition is_value_call (ev : Event) : bool :=
  match ev with EvMatrixValue _ _ _ | EvVectorValue _ _ => true | _ => false end.

Definition is_ord_call (ev : Event) : bool :=
  match ev with EvMatrixOrd _ _ | EvVectorOrd _ => true | _ => false end.

Definition is_AssignDofs (ev : Event) : bool :=
  match ev with AssignDofs => true | _ => false end.

(** Events that change the sparse structure of the matrix. *)
Definition is_structure_event (ev : Event) : bool :=
  match ev with MatFree | MatPrealloc _ | MatPreAdd _ _ | MatAlloc => true | _ => false end.

(** ** External collaborators

    Free functions, static methods and globals the engine calls but does not
    define. *)
Class Collaborators := {
  (* contents of a block fresh from new_matrix<Scalar>(n) *)
  new_matrix : nat -> Matrix;
  (* g_quad_2d_std.get_edge_points(edge, order, mode) *)
  get_edge_points : Z -> Z -> ElementMode -> Z;
  (* limit_order(order, mode), by value *)
  limit_order : Z -> ElementMode -> Z;
  H2D_GET_H_ORDER : Z -> Z;
  H2D_GET_V_ORDER : Z -> Z;
  (* the reference map of field k once init_state has set it up *)
  refmap_of : State -> nat -> RefMap;
  (* Space::assign_dofs(spaces) *)
  assign_dofs : list Space -> list Space;
  (* the states Traverse::get_next_state yields for the meshes *)
  traverse_states : list Mesh -> list State;
  (* NeighborSearch(e, mesh).set_active_edge(ed).get_neighbors(), errors ignored *)
  get_neighbors : option Element -> Mesh -> nat -> list Element;
  (* the searches init_neighbors creates for the active edge, by mesh seq offset *)
  init_neighbors : list Space -> State -> list (option NeighborSearch);
  (* DiscreteProblem::update_neighbor_search: splits the entries of the search
     along the tree, through NeighborSearch methods outside these sources *)
  update_neighbor_search : NeighborSearch -> NodePtr -> NeighborSearch
}.

(** ** The discrete problem *)

Record DiscreteProblem := {
  wf : WeakForm;
  spaces_first_dofs : list Z;
  ndof : Z;
  sp_seq : list Z;
  wf_seq : Z;
  have_matrix : bool;
  is_fvm : bool;
  RungeKutta : bool;
  RK_original_spaces_count : nat;
  DG_matrix_forms_present : bool;
  DG_vector_forms_present : bool;
  current_mat : bool;                       (* current_mat != NULL *)
  current_rhs : bool;                       (* current_rhs != NULL *)
  current_force_diagonal_blocks : bool;
  current_block_weights : option Table;
  min_dg_mesh_seq : Z
}.

(** [DiscreteProblem::set_fvm]. *)
Definition set_fvm (dp : DiscreteProblem) : DiscreteProblem :=
  {| wf := wf dp; spaces_first_dofs := spaces_first_dofs dp; ndof := ndof dp;
     sp_seq := sp_seq dp; wf_seq := wf_seq dp; have_matrix := have_matrix dp;
     is_fvm := true;
     RungeKutta := RungeKutta dp; RK_original_spaces_count := RK_original_spaces_count dp;
     DG_matrix_forms_present := DG_matrix_forms_present dp;
     DG_vector_forms_present := DG_vector_forms_present dp;
     current_mat := current_mat dp; current_rhs := current_rhs dp;
     current_force_diagonal_blocks := current_force_diagonal_blocks dp;
     current_block_weights := current_block_weights dp;
     min_dg_mesh_seq := min_dg_mesh_seq dp |}.

(** [DiscreteProblem::invalidate_matrix]. *)
Definition invalidate_matrix (dp : DiscreteProblem) : DiscreteProblem :=
  {| wf := wf dp; spaces_first_dofs := spaces_first_dofs dp; ndof := ndof dp;
     sp_seq := sp_seq dp; wf_seq := wf_seq dp;
     have_matrix := false;
     is_fvm := is_fvm dp;
     RungeKutta := RungeKutta dp; RK_original_spaces_count := RK_original_spaces_count dp;
     DG_matrix_forms_present := DG_matrix_forms_present dp;
     DG_vector_forms_present := DG_vector_forms_present dp;
     current_mat := current_mat dp; current_rhs := current_rhs dp;
     current_force_diagonal_blocks := current_force_diagonal_blocks dp;
     current_block_weights := current_block_weights dp;
     min_dg_mesh_seq := min_dg_mesh_seq dp |}.

(** [DiscreteProblem::block_scaling_coeff]. *)
Definition block_scaling_coeff (dp : DiscreteProblem) (form : MatrixForm) : Scalar :=
  match current_block_weights dp with
  | Some tbl => get_A tbl (mf_i form) (mf_j form)
  | None => 1%float
  end.

(** ** The form-applicability predicate *)

(** [form_to_be_assembled] on a [MatrixForm] pointer. *)
Definition form_to_be_assembled_MatrixForm
    (dp : DiscreteProblem) (form : MatrixForm) (current_state : State) : bool :=
  if (is_null (state_e current_state (mf_i form)) || is_null (state_e current_state (mf_j form)))%bool
  then false
  else if negligible (mf_scaling_factor form) then false
  else match current_block_weights dp with
       | Some tbl => if negligible (get_A tbl (mf_i form) (mf_j form)) then false else true
       | None => true
       end.

(** The test applied to one area of a matrix form: does the internal marker
    of the area exist on both meshes and coincide with [m]? *)
Definition marker_on_space (conv : Mesh -> Area -> IntValid)
    (spaces : list Space) (k : nat) (a : Area) (m : Z) : bool :=
  let marker_on_space_k := valid (conv (get_mesh (space_at spaces k)) a) in
  if marker_on_space_k
  then Z.eqb (marker (conv (get_mesh (space_at spaces k)) a)) m
  else marker_on_space_k.

(** [form_to_be_assembled] on a [MatrixFormVol] pointer. *)
Definition form_to_be_assembled_MatrixFormVol
    (dp : DiscreteProblem) (spaces : list Space) (form : MatrixForm) (current_state : State) : bool :=
  if negb (form_to_be_assembled_MatrixForm dp form current_state) then false
  else
    let assemble_this_form :=
      existsb (fun a =>
        if Area_eqb a HERMES_ANY then true
        else (marker_on_space element_markers_conversion spaces (mf_i form) a (el_marker (rep current_state))
              && marker_on_space element_markers_conversion spaces (mf_j form) a (el_marker (rep current_state)))%bool)
        (mf_areas form) in
    if negb assemble_this_form then false else true.

(** [current_state->rep->en[current_state->isurf]->marker]. *)
Definition active_edge_marker (current_state : State) : Z :=
  en_marker (rep current_state) (Z.to_nat (isurf current_state)).

(** [form_to_be_assembled] on a [MatrixFormSurf] pointer. *)
Definition form_to_be_assembled_MatrixFormSurf
    (dp : DiscreteProblem) (spaces : list Space) (form : MatrixForm) (current_state : State) : bool :=
  if Z.eqb (active_edge_marker current_state) 0 then false
  else if Area_eqb (areas0 (mf_areas form)) H2D_DG_INNER_EDGE then false
  else if negb (form_to_be_assembled_MatrixForm dp form current_state) then false
  else
    let assemble_this_form :=
      existsb (fun a =>
        if (Area_eqb a HERMES_ANY || Area_eqb a H2D_DG_BOUNDARY_EDGE)%bool then true
        else (marker_on_space boundary_markers_conversion spaces (mf_i form) a (active_edge_marker current_state)
              && marker_on_space boundary_markers_conversion spaces (mf_j form) a (active_edge_marker current_state))%bool)
        (mf_areas form) in
    if Bool.eqb assemble_this_form false then false else true.

(** [form_to_be_assembled] on a [VectorForm] pointer. *)
Definition form_to_be_assembled_VectorForm
    (form : VectorForm) (current_state : State) : bool :=
  if is_null (state_e current_state (vf_i form)) then false
  else if negligible (vf_scaling_factor form) then false
  else true.

(** [form_to_be_assembled] on a [VectorFormVol] pointer. *)
Definition form_to_be_assembled_VectorFormVol
    (spaces : list Space) (form : VectorForm) (current_state : State) : bool :=
  if negb (form_to_be_assembled_VectorForm form current_state) then false
  else
    let assemble_this_form :=
      existsb (fun a =>
        if Area_eqb a HERMES_ANY then true
        else marker_on_space element_markers_conversion spaces (vf_i form) a (el_marker (rep current_state)))
        (vf_areas form) in
    if negb assemble_this_form then false else true.

(** [form_to_be_assembled] on a [VectorFormSurf] pointer. *)
Definition form_to_be_assembled_VectorFormSurf
    (spaces : list Space) (form : VectorForm) (current_state : State) : bool :=
  if Z.eqb (active_edge_marker current_state) 0 then false
  else if Area_eqb (areas0 (vf_areas form)) H2D_DG_INNER_EDGE then false
  else if negb (form_to_be_assembled_VectorForm form current_state) then false
  else
    let assemble_this_form :=
      existsb (fun a =>
        if (Area_eqb a HERMES_ANY || Area_eqb a H2D_DG_BOUNDARY_EDGE)%bool then true
        else marker_on_space boundary_markers_conversion spaces (vf_i form) a (active_edge_marker current_state))
        (vf_areas form) in
    if Bool.eqb assemble_this_form false then false else true.

Definition null_refmap : RefMap :=
  {| get_inv_ref_order := 0; active_element_mode := HERMES_MODE_TRIANGLE |}.

(** [current_refmaps[k]]. *)
Definition refmap_at (current_refmaps : list RefMap) (k : nat) : RefMap :=
  nth k current_refmaps null_refmap.

Section Engine.

Context `{X : Collaborators}.

(** ** Quadrature order selection *)

(** [RungeKutta ? RK_original_spaces_count : wf->get_neq() - form->u_ext_offset]. *)
Definition prev_size (dp : DiscreteProblem) (u_ext_offset : nat) : nat :=
  if RungeKutta dp then RK_original_spaces_count dp
  else (get_neq (wf dp) - u_ext_offset)%nat.

(** [+ (f->get_num_components() > 1 ? 1 : 0)]. *)
Definition components_bonus (num_components : Z) : Z :=
  if 1 <? num_components then 1 else 0.

(** The order a function contributes: on an edge when the state has an
    active surface, in the interior otherwise. *)
Definition fn_ord (surface_form : bool) (current_state : State) (f : MeshFunction) : Z :=
  (if surface_form then get_edge_fn_order f (isurf current_state) else get_fn_order f)
  + components_bonus (get_num_components f).

(** [init_ext_orders]: the orders [oi] of the previous-iteration solutions and
    [oext] of the external functions; [init_fn_ord(o)] is represented by [o]. *)
Definition init_ext_orders (dp : DiscreteProblem) (u_ext_offset : nat) (ext : list MeshFunction)
    (current_u_ext : option (list (option MeshFunction))) (current_state : State)
    : list Z * list Z :=
  let surface_form := (-1 <? isurf current_state) in
  let oi :=
    match current_u_ext with
    | Some us =>
        map (fun i => match nth (i + u_ext_offset) us None with
                      | Some u => fn_ord surface_form current_state u
                      | None => 0
                      end)
            (seq 0 (prev_size dp u_ext_offset))
    | None => map (fun _ => 0) (seq 0 (prev_size dp u_ext_offset))
    end in
  let oext := map (fn_ord surface_form current_state) ext in
  (oi, oext).

(** [max(H2D_GET_V_ORDER(o), H2D_GET_H_ORDER(o))] as the source selects it. *)
Definition max_hv_order (o : Z) : Z :=
  if H2D_GET_H_ORDER o <? H2D_GET_V_ORDER o then H2D_GET_V_ORDER o else H2D_GET_H_ORDER o.

(** The loop over the edges of [rep] raising [max_order] to every edge order. *)
Definition max_with_edge_orders (sp : Space) (el : Element) (num_surf : nat) (max_order : Z) : Z :=
  fold_left (fun mo k => let eo := get_edge_order sp el k in if mo <? eo then eo else mo)
            (seq 0 num_surf) max_order.

(** [adjust_order_to_refmaps]. *)
Definition adjust_order_to_refmaps (form_i : nat) (o : Z) (current_refmaps : list RefMap) : Z :=
  let order := get_inv_ref_order (refmap_at current_refmaps form_i) in
  let order := order + o in
  limit_order order (active_element_mode (refmap_at current_refmaps form_i)).

(** [calc_order_matrix_form]: the order, and the trace of the estimator calls. *)
Definition calc_order_matrix_form (dp : DiscreteProblem) (spaces : list Space) (form : MatrixForm)
    (current_refmaps : list RefMap) (current_u_ext : option (list (option MeshFunction)))
    (current_state : State) : Z * list Event :=
  if is_fvm dp then
    (get_inv_ref_order (refmap_at current_refmaps (mf_i form)), [])
  else
    let '(u_ext_ord, ext_ord) :=
      init_ext_orders dp (mf_u_ext_offset form) (mf_ext form) current_u_ext current_state in
    let sp_i := space_at spaces (mf_i form) in
    let sp_j := space_at spaces (mf_j form) in
    let e_i := deref (state_e current_state (mf_i form)) in
    let e_j := deref (state_e current_state (mf_j form)) in
    let max_order_j := max_hv_order (get_element_order sp_j (el_id e_j)) in
    let max_order_i := max_hv_order (get_element_order sp_i (el_id e_i)) in
    let max_order_i := max_with_edge_orders sp_i e_i (get_num_surf (rep current_state)) max_order_i in
    let max_order_j := max_with_edge_orders sp_j e_j (get_num_surf (rep current_state)) max_order_j in
    let ou := max_order_j + components_bonus (shapeset_num_components sp_j) in
    let ov := max_order_i + components_bonus (shapeset_num_components sp_i) in
    let o := mf_ord form u_ext_ord ou ov ext_ord in
    (adjust_order_to_refmaps (mf_i form) o current_refmaps,
     [EvMatrixOrd (mf_i form) (mf_j form)]).

(** [calc_order_vector_form]. *)
Definition calc_order_vector_form (dp : DiscreteProblem) (spaces : list Space) (form : VectorForm)
    (current_refmaps : list RefMap) (current_u_ext : option (list (option MeshFunction)))
    (current_state : State) : Z * list Event :=
  if is_fvm dp then
    (get_inv_ref_order (refmap_at current_refmaps (vf_i form)), [])
  else
    let '(u_ext_ord, ext_ord) :=
      init_ext_orders dp (vf_u_ext_offset form) (vf_ext form) current_u_ext current_state in
    let sp_i := space_at spaces (vf_i form) in
    let e_i := deref (state_e current_state (vf_i form)) in
    let max_order_i := max_hv_order (get_element_order sp_i (el_id e_i)) in
    let max_order_i := max_with_edge_orders sp_i e_i (get_num_surf (rep current_state)) max_order_i in
    let ov := max_order_i + components_bonus (shapeset_num_components sp_i) in
    let o := vf_ord form u_ext_ord ov ext_ord in
    (adjust_order_to_refmaps (vf_i form) o current_refmaps,
     [EvVectorOrd (vf_i form)]).

(** ** Evaluation of one form *)

(** The local block under construction and the calls made so far. *)
Definition LocalAcc := (Matrix * list Event)%type.

(** The [j] loop of a row [i] of a block that is not exploited as symmetric. *)
Definition row_nonsym (dp : DiscreteProblem) (form : MatrixForm) (surface_form : bool)
    (site : EvalSite) (al_i al_j : AsmList) (i : nat) (acc : LocalAcc) : LocalAcc :=
  fold_left (fun (acc : LocalAcc) j =>
    if 0 <=? al_dof al_j j then
      if negligible (al_coef al_j j) then acc
      else
        let value := mf_value form site j i in
        let x :=
          if surface_form
          then (0.5 * block_scaling_coeff dp form * value * mf_scaling_factor form
                * al_coef al_j j * al_coef al_i i)%float
          else (block_scaling_coeff dp form * value * mf_scaling_factor form
                * al_coef al_j j * al_coef al_i i)%float in
        (mset (fst acc) i j x, snd acc ++ [EvMatrixValue (site_quad_order site) j i])
    else acc)
    (seq 0 (cnt al_j)) acc.

(** The [j] loop of a row [i] of a symmetric block. *)
Definition row_sym (dp : DiscreteProblem) (form : MatrixForm)
    (site : EvalSite) (al_i al_j : AsmList) (i : nat) (acc : LocalAcc) : LocalAcc :=
  fold_left (fun (acc : LocalAcc) j =>
    if (Nat.ltb j i && (0 <=? al_dof al_j j))%bool then acc
    else if 0 <=? al_dof al_j j then
      if negligible (al_coef al_j j) then acc
      else
        let value := mf_value form site j i in
        let val := (block_scaling_coeff dp form * value * mf_scaling_factor form
                    * al_coef al_j j * al_coef al_i i)%float in
        (mset (mset (fst acc) j i val) i j val,
         snd acc ++ [EvMatrixValue (site_quad_order site) j i])
    else acc)
    (seq 0 (cnt al_j)) acc.

(** The loop nest "Actual form-specific calculation" of [assemble_matrix_form]. *)
Definition local_stiffness_loop (dp : DiscreteProblem) (form : MatrixForm)
    (surface_form tra sym : bool) (site : EvalSite) (al_i al_j : AsmList)
    (acc : LocalAcc) : LocalAcc :=
  fold_left (fun (acc : LocalAcc) i =>
    if al_dof al_i i <? 0 then acc
    else if ((negb tra || surface_form) && (al_dof al_i i <? 0))%bool then acc
    else if negligible (al_coef al_i i) then acc
    else if negb sym then row_nonsym dp form surface_form site al_i al_j i acc
    else row_sym dp form site al_i al_j i acc)
    (seq 0 (cnt al_i)) acc.

Definition is_surface (k : FormKind) : bool :=
  match k with Vol => false | Surf => true end.

(** The quadrature order the geometry is initialised with:
    [init_geometry_points] keeps [order], [init_surface_geometry_points]
    replaces it by the edge order [eo]. *)
Definition geometry_order (surface_form : bool) (order : Z)
    (reference_mapping : RefMap) (current_state : State) : Z :=
  if surface_form
  then get_edge_points (isurf current_state) order (active_element_mode reference_mapping)
  else order.

(** The part of [assemble_matrix_form] before the insertion: the local
    stiffness matrix, and the calls of the form made to fill it. *)
Definition local_block (dp : DiscreteProblem) (form : MatrixForm) (order : Z)
    (current_refmaps : list RefMap) (current_als : list AsmList)
    (current_state : State) : LocalAcc :=
  let surface_form := is_surface (mf_kind form) in
  let tra := (negb (Nat.eqb (mf_i form) (mf_j form)) && negb (sym_int (mf_sym form) =? 0))%bool in
  let sym := (Nat.eqb (mf_i form) (mf_j form) && (sym_int (mf_sym form) =? 1))%bool in
  let al_i := als_at current_als (mf_i form) in
  let al_j := als_at current_als (mf_j form) in
  let local_stiffness_matrix := new_matrix (Nat.max (cnt al_i) (cnt al_j)) in
  let site := {| site_state := current_state; site_neighbor := None;
                 site_quad_order :=
                   geometry_order surface_form order
                     (refmap_at current_refmaps (mf_i form)) current_state |} in
  local_stiffness_loop dp form surface_form tra sym site al_i al_j
    (local_stiffness_matrix, []).

(** [assemble_matrix_form]. *)
Definition assemble_matrix_form (dp : DiscreteProblem) (form : MatrixForm) (order : Z)
    (current_refmaps : list RefMap) (current_als : list AsmList)
    (current_state : State) : list Event :=
  let tra := (negb (Nat.eqb (mf_i form) (mf_j form)) && negb (sym_int (mf_sym form) =? 0))%bool in
  let al_i := als_at current_als (mf_i form) in
  let al_j := als_at current_als (mf_j form) in
  let '(local_stiffness_matrix, calls) :=
    local_block dp form order current_refmaps current_als current_state in
  calls
  ++ [MatAdd (cnt al_i) (cnt al_j) local_stiffness_matrix (al_dofs al_i) (al_dofs al_j)]
  ++ (if tra then
        let local_stiffness_matrix :=
          if sym_int (mf_sym form) <? 0
          then chsgn local_stiffness_matrix (cnt al_i) (cnt al_j)
          else local_stiffness_matrix in
        let local_stiffness_matrix :=
          transpose local_stiffness_matrix (cnt al_i) (cnt al_j) in
        [MatAdd (cnt al_j) (cnt al_i) local_stiffness_matrix (al_dofs al_j) (al_dofs al_i)]
      else []).

(** [assemble_vector_form]. *)
Definition assemble_vector_form (form : VectorForm) (order : Z)
    (current_refmaps : list RefMap) (current_als : list AsmList)
    (current_state : State) : list Event :=
  let surface_form := is_surface (vf_kind form) in
  let al_i := als_at current_als (vf_i form) in
  let site := {| site_state := current_state; site_neighbor := None;
                 site_quad_order :=
                   geometry_order surface_form order
                     (refmap_at current_refmaps (vf_i form)) current_state |} in
  flat_map (fun i =>
    if al_dof al_i i <? 0 then []
    else if negligible (al_coef al_i i) then []
    else
      let value := vf_value form site i in
      let val :=
        if surface_form
        then (0.5 * value * vf_scaling_factor form * al_coef al_i i)%float
        else (value * vf_scaling_factor form * al_coef al_i i)%float in
      [EvVectorValue (site_quad_order site) i; RhsAdd (al_dof al_i i) val])
    (seq 0 (cnt al_i)).

(** ** One traversal state: volume and boundary-surface forms *)

(** The per-thread evaluation objects the worker passes around. *)
Record ThreadCtx := {
  current_refmaps : list RefMap;
  current_u_ext : option (list (option MeshFunction));
  current_als : list AsmList
}.

(** [init_state]: fields whose element is NULL keep what they held. *)
Definition init_state (dp : DiscreteProblem) (spaces : list Space) (ctx : ThreadCtx)
    (current_state : State) : ThreadCtx :=
  {| current_refmaps :=
       map (fun i => match state_e current_state i with
                     | None => refmap_at (current_refmaps ctx) i
                     | Some _ => refmap_of current_state i
                     end) (seq 0 (List.length spaces));
     current_u_ext := current_u_ext ctx;
     current_als :=
       map (fun i => match state_e current_state i with
                     | None => als_at (current_als ctx) i
                     | Some el => get_element_assembly_list (space_at spaces i) el
                                    (nth i (spaces_first_dofs dp) 0)
                     end) (seq 0 (List.length spaces)) |}.

(** [init_surface_state]. *)
Definition init_surface_state (dp : DiscreteProblem) (spaces : list Space) (ctx : ThreadCtx)
    (current_state : State) : ThreadCtx :=
  {| current_refmaps := current_refmaps ctx;
     current_u_ext := current_u_ext ctx;
     current_als :=
       map (fun i => match state_e current_state i with
                     | None => als_at (current_als ctx) i
                     | Some el => get_boundary_assembly_list (space_at spaces i) el
                                    (isurf current_state) (nth i (spaces_first_dofs dp) 0)
                     end) (seq 0 (List.length spaces)) |}.

(** Body of the loop over [wf->mfvol] in [assemble_one_state]. *)
Definition mfvol_step (dp : DiscreteProblem) (spaces : list Space) (ctx : ThreadCtx)
    (current_state : State) (form : MatrixForm) : list Event :=
  if negb (form_to_be_assembled_MatrixFormVol dp spaces form current_state) then []
  else
    let '(order, ord_calls) :=
      calc_order_matrix_form dp spaces form (current_refmaps ctx) (current_u_ext ctx) current_state in
    ord_calls
    ++ assemble_matrix_form dp form order (current_refmaps ctx) (current_als ctx) current_state.

(** Body of the loop over [wf->vfvol]. *)
Definition vfvol_step (dp : DiscreteProblem) (spaces : list Space) (ctx : ThreadCtx)
    (current_state : State) (form : VectorForm) : list Event :=
  if negb (form_to_be_assembled_VectorFormVol spaces form current_state) then []
  else
    let '(order, ord_calls) :=
      calc_order_vector_form dp spaces form (current_refmaps ctx) (current_u_ext ctx) current_state in
    ord_calls
    ++ assemble_vector_form form order (current_refmaps ctx) (current_als ctx) current_state.

(** Body of the loop over [wf->mfsurf] on one boundary edge. *)
Definition mfsurf_step (dp : DiscreteProblem) (spaces : list Space) (ctx : ThreadCtx)
    (current_state : State) (form : MatrixForm) : list Event :=
  if negb (form_to_be_assembled_MatrixFormSurf dp spaces form current_state) then []
  else
    let '(order, ord_calls) :=
      calc_order_matrix_form dp spaces form (current_refmaps ctx) (current_u_ext ctx) current_state in
    ord_calls
    ++ assemble_matrix_form dp form order (current_refmaps ctx) (current_als ctx) current_state.

(** Body of the loop over [wf->vfsurf] on one boundary edge. *)
Definition vfsurf_step (dp : DiscreteProblem) (spaces : list Space) (ctx : ThreadCtx)
    (current_state : State) (form : VectorForm) : list Event :=
  if negb (form_to_be_assembled_VectorFormSurf spaces form current_state) then []
  else
    let '(order, ord_calls) :=
      calc_order_vector_form dp spaces form (current_refmaps ctx) (current_u_ext ctx) current_state in
    ord_calls
    ++ assemble_vector_form form order (current_refmaps ctx) (current_als ctx) current_state.

(** [assemble_one_state]: the events, and the thread objects as it leaves
    them (the assembly lists are those of the last boundary edge visited). *)
Definition assemble_one_state (dp : DiscreteProblem) (spaces : list Space) (ctx : ThreadCtx)
    (current_state : State) : list Event * ThreadCtx :=
  let ctx := init_state dp spaces ctx current_state in
  let vol_matrix :=
    if current_mat dp
    then flat_map (mfvol_step dp spaces ctx current_state) (mfvol (wf dp)) else [] in
  let vol_vector :=
    if current_rhs dp
    then flat_map (vfvol_step dp spaces ctx current_state) (vfvol (wf dp)) else [] in
  fold_left (fun (acc : list Event * ThreadCtx) k =>
    let current_state := set_isurf current_state (Z.of_nat k) in
    if negb (bnd current_state k) then acc
    else
      let ctx := init_surface_state dp spaces (snd acc) current_state in
      (fst acc
       ++ (if current_mat dp
           then flat_map (mfsurf_step dp spaces ctx current_state) (mfsurf (wf dp)) else [])
       ++ (if current_rhs dp
           then flat_map (vfsurf_step dp spaces ctx current_state) (vfsurf (wf dp)) else []),
       ctx))
    (seq 0 (get_num_surf (rep current_state)))
    (vol_matrix ++ vol_vector, ctx).

(** ** Discontinuous-Galerkin coupling *)

Definition null_ns : NeighborSearch :=
  {| n_neighbors := 0; neighbors := []; central_transformations := [];
     neighbor_asmlist := fun _ _ => [] |}.

(** [neighbor_searches.get(k)]. *)
Definition ns_at (neighbor_searches : list (option NeighborSearch)) (k : Z) : NeighborSearch :=
  match nth (Z.to_nat k) neighbor_searches None with
  | Some ns => ns
  | None => null_ns
  end.

(** [ns->create_extended_asmlist(space, al)] for the active segment. *)
Definition create_extended_asmlist (ns : NeighborSearch) (neighbor_i : nat)
    (space : Space) (al : AsmList) : ExtendedShapeset :=
  {| central_al := al; neighbor_al := neighbor_asmlist ns neighbor_i space |}.

(** The coefficient of extended shape function [k], taken from the side it
    has support on. *)
Definition ext_coef (es : ExtendedShapeset) (k : nat) : Scalar :=
  if has_support_on_neighbor es k
  then al_coef (neighbor_al es) (k - cnt (central_al es))
  else al_coef (central_al es) k.

(** The loop nest over the two extended shapesets in [assemble_DG_one_neighbor]. *)
Definition DG_local_stiffness_loop (dp : DiscreteProblem) (mfs : MatrixForm) (site : EvalSite)
    (ext_asmlist_u ext_asmlist_v : ExtendedShapeset) (acc : LocalAcc) : LocalAcc :=
  fold_left (fun (acc : LocalAcc) i =>
    if ext_dof ext_asmlist_v i <? 0 then acc
    else
      fold_left (fun (acc : LocalAcc) j =>
        if 0 <=? ext_dof ext_asmlist_u j then
          let res := (mf_value mfs site j i * mf_scaling_factor mfs)%float in
          let val := (block_scaling_coeff dp mfs * 0.5 * res
                      * ext_coef ext_asmlist_u j * ext_coef ext_asmlist_v i)%float in
          (mset (fst acc) i j val, snd acc ++ [EvMatrixValue (site_quad_order site) j i])
        else acc)
        (seq 0 (ext_cnt ext_asmlist_u)) acc)
    (seq 0 (ext_cnt ext_asmlist_v)) acc.

(** Body of the loop over [wf->mfsurf] in [assemble_DG_one_neighbor].  The
    local variable [order] starts at 20 before the loop and is overwritten
    by [init_surface_geometry_points], which takes it by reference. *)
Definition DG_mfsurf_step (dp : DiscreteProblem) (spaces : list Space) (ctx : ThreadCtx)
    (current_state : State) (neighbor_i : nat)
    (neighbor_searches : list (option NeighborSearch))
    (acc : Z * list Event) (mfs : MatrixForm) : Z * list Event :=
  if negb (form_to_be_assembled_MatrixForm dp mfs current_state) then acc
  else if negb (Area_eqb (areas0 (mf_areas mfs)) H2D_DG_INNER_EDGE) then acc
  else
    let order := fst acc in
    let m := mf_i mfs in
    let n := mf_j mfs in
    let nbs_u := ns_at neighbor_searches
                   (mesh_seq (get_mesh (space_at spaces n)) - min_dg_mesh_seq dp) in
    let nbs_v := ns_at neighbor_searches
                   (mesh_seq (get_mesh (space_at spaces m)) - min_dg_mesh_seq dp) in
    let ext_asmlist_u :=
      create_extended_asmlist nbs_u neighbor_i (space_at spaces n) (als_at (current_als ctx) n) in
    let ext_asmlist_v :=
      create_extended_asmlist nbs_v neighbor_i (space_at spaces m) (als_at (current_als ctx) m) in
    let eo := get_edge_points (isurf current_state) order (get_mode (rep current_state)) in
    let order' := geometry_order true order (refmap_at (current_refmaps ctx) m) current_state in
    let site := {| site_state := current_state; site_neighbor := Some neighbor_i;
                   site_quad_order := eo |} in
    let '(local_stiffness_matrix, calls) :=
      DG_local_stiffness_loop dp mfs site ext_asmlist_u ext_asmlist_v
        (new_matrix (Nat.max (ext_cnt ext_asmlist_u) (ext_cnt ext_asmlist_v)), []) in
    (order',
     snd acc ++ calls
     ++ [MatAdd (ext_cnt ext_asmlist_v) (ext_cnt ext_asmlist_u) local_stiffness_matrix
           (ext_dofs ext_asmlist_v) (ext_dofs ext_asmlist_u)]).

(** Body of the loop over [wf->vfsurf] in [assemble_DG_one_neighbor]. *)
Definition DG_vfsurf_step (dp : DiscreteProblem) (ctx : ThreadCtx)
    (current_state : State) (neighbor_i : nat)
    (acc : Z * list Event) (vfs : VectorForm) : Z * list Event :=
  if negb (Area_eqb (areas0 (vf_areas vfs)) H2D_DG_INNER_EDGE) then acc
  else
    let m := vf_i vfs in
    if negb (form_to_be_assembled_VectorForm vfs current_state) then acc
    else
      let al_m := als_at (current_als ctx) m in
      fold_left (fun (acc : Z * list Event) dof_i =>
        if al_dof al_m dof_i <? 0 then acc
        else
          let order := fst acc in
          let eo := get_edge_points (isurf current_state) order (get_mode (rep current_state)) in
          let order' := geometry_order true order (refmap_at (current_refmaps ctx) m) current_state in
          let site := {| site_state := current_state; site_neighbor := Some neighbor_i;
                         site_quad_order := eo |} in
          (order',
           snd acc
           ++ [EvVectorValue eo dof_i;
               RhsAdd (al_dof al_m dof_i)
                 (0.5 * vf_value vfs site dof_i * vf_scaling_factor vfs * al_coef al_m dof_i)%float]))
        (seq 0 (cnt al_m)) acc.

(** [assemble_DG_one_neighbor]: the contributions of one aligned segment. *)
Definition assemble_DG_one_neighbor (dp : DiscreteProblem) (spaces : list Space) (ctx : ThreadCtx)
    (current_state : State) (edge_processed : bool) (neighbor_i : nat)
    (neighbor_searches : list (option NeighborSearch)) : list Event :=
  (if (current_mat dp && DG_matrix_forms_present dp && negb edge_processed)%bool
   then snd (fold_left (DG_mfsurf_step dp spaces ctx current_state neighbor_i neighbor_searches)
                       (mfsurf (wf dp)) (20, []))
   else [])
  ++ (if (current_rhs dp && DG_vector_forms_present dp)%bool
      then snd (fold_left (DG_vfsurf_step dp ctx current_state neighbor_i)
                          (vfsurf (wf dp)) (20, []))
      else []).

(** [insert_into_multimesh_tree(node, transformations, transformation_count)]. *)
Fixpoint insert_into_multimesh_tree (node : NodePtr) (transformations : list Z)
    : Result NodePtr :=
  match transformations with
  | [] => inr node
  | t0 :: rest =>
      match node with
      | NULL => inr NULL
      | NeighborNode t NULL NULL =>
          match insert_into_multimesh_tree (NeighborNode t0 NULL NULL) rest with
          | inl ex => inl ex
          | inr son => inr (NeighborNode t son NULL)
          end
      | NeighborNode t NULL _ =>
          (* a right son without a left son: excluded by the source, the left
             son always enters the tree first *)
          inr node
      | NeighborNode t (NeighborNode tl _ _ as left_son) right_son =>
          if tl =? t0 then
            match insert_into_multimesh_tree left_son rest with
            | inl ex => inl ex
            | inr son => inr (NeighborNode t son right_son)
            end
          else
            match right_son with
            | NeighborNode tr _ _ =>
                if tr =? t0 then
                  match insert_into_multimesh_tree right_son rest with
                  | inl ex => inl ex
                  | inr son => inr (NeighborNode t left_son son)
                  end
                else inl (FatalError "More than two possible sons in insert_into_multimesh_tree().")
            | NULL =>
                match insert_into_multimesh_tree (NeighborNode t0 NULL NULL) rest with
                | inl ex => inl ex
                | inr son => inr (NeighborNode t left_son son)
                end
            end
      end
  end.

(** [central_transformations.present(k)] / [.get(k)->transf]. *)
Definition central_transformation (ns : NeighborSearch) (k : nat) : option (list Z) :=
  nth k (central_transformations ns) None.

(** [build_multimesh_tree]. *)
Definition build_multimesh_tree (root : NodePtr)
    (neighbor_searches : list (option NeighborSearch)) : Result NodePtr :=
  fold_left (fun (acc : Result NodePtr) (p : option NeighborSearch) =>
    match acc, p with
    | inl ex, _ => inl ex
    | inr root, None => inr root
    | inr root, Some ns =>
        if ((n_neighbors ns =? 1)
            && (Nat.eqb (List.length (central_transformations ns)) 0
                || match central_transformation ns 0 with
                   | Some transf => Nat.eqb (List.length transf) 0
                   | None => true
                   end))%bool
        then inr root
        else
          fold_left (fun (acc : Result NodePtr) j =>
            match acc with
            | inl ex => inl ex
            | inr root =>
                match central_transformation ns j with
                | Some transf => insert_into_multimesh_tree root transf
                | None => inr root
                end
            end)
            (seq 0 (Z.to_nat (n_neighbors ns))) (inr root)
    end)
    neighbor_searches (inr root).

(** The loop of [assemble_one_DG_state] that updates every present search
    against the tree and compares the numbers of neighbors. *)
Fixpoint update_and_check (root : NodePtr) (neighbor_searches : list (option NeighborSearch))
    (num_neighbors : Z) : Result (Z * list (option NeighborSearch)) :=
  match neighbor_searches with
  | [] => inr (num_neighbors, [])
  | None :: rest =>
      match update_and_check root rest num_neighbors with
      | inl ex => inl ex
      | inr (n, rest') => inr (n, None :: rest')
      end
  | Some ns :: rest =>
      let ns := update_neighbor_search ns root in
      let num_neighbors := if num_neighbors =? 0 then n_neighbors ns else num_neighbors in
      if negb (n_neighbors ns =? num_neighbors)
      then inl (FatalError "Num_neighbors of different NeighborSearches not matching in DiscreteProblem<Scalar>::assemble_surface_integrals().")
      else
        match update_and_check root rest num_neighbors with
        | inl ex => inl ex
        | inr (n, rest') => inr (n, Some ns :: rest')
        end
  end.

(** Has segment [neighbor_i] been processed from the other side?
    [neighbors.at(neighbor_i)] throws when out of range. *)
Fixpoint segment_processed (neighbor_searches : list (option NeighborSearch))
    (neighbor_i : nat) : Result bool :=
  match neighbor_searches with
  | [] => inr true
  | None :: rest => segment_processed rest neighbor_i
  | Some ns :: rest =>
      match nth_error (neighbors ns) neighbor_i with
      | None => inl (StdException "vector::_M_range_check")
      | Some el =>
          if negb (visited el) then inr false
          else segment_processed rest neighbor_i
      end
  end.

(** The loop over the aligned segments of one edge. *)
Fixpoint DG_segments_loop (dp : DiscreteProblem) (spaces : list Space) (ctx : ThreadCtx)
    (current_state : State) (neighbor_searches : list (option NeighborSearch))
    (segments : list nat) : list Event * option Exn :=
  match segments with
  | [] => ([], None)
  | neighbor_i :: rest =>
      match segment_processed neighbor_searches neighbor_i with
      | inl ex => ([], Some ex)
      | inr processed =>
          if (negb (DG_vector_forms_present dp) && processed)%bool
          then DG_segments_loop dp spaces ctx current_state neighbor_searches rest
          else
            let evs := assemble_DG_one_neighbor dp spaces ctx current_state processed
                         neighbor_i neighbor_searches in
            let '(evs', ex) :=
              DG_segments_loop dp spaces ctx current_state neighbor_searches rest in
            (evs ++ evs', ex)
      end
  end.

(** The body of the loop over the edges in [assemble_one_DG_state], for an
    edge with marker 0. *)
Definition assemble_DG_edge (dp : DiscreteProblem) (spaces : list Space) (ctx : ThreadCtx)
    (current_state : State) : list Event * option Exn :=
  let neighbor_searches := init_neighbors spaces current_state in
  match build_multimesh_tree (NeighborNode 0 NULL NULL) neighbor_searches with
  | inl ex => ([], Some ex)
  | inr root =>
      match update_and_check root neighbor_searches 0 with
      | inl ex => ([], Some ex)
      | inr (num_neighbors, neighbor_searches) =>
          DG_segments_loop dp spaces ctx current_state neighbor_searches
            (seq 0 (Z.to_nat num_neighbors))
      end
  end.

(** [min_dg_mesh_seq] as [assemble_one_DG_state] determines it. *)
Definition min_mesh_seq (spaces : list Space) : Z :=
  snd (fold_left (fun (acc : nat * Z) sp =>
         (S (fst acc),
          if ((mesh_seq (get_mesh sp) <? snd acc) || Nat.eqb (fst acc) 0)%bool
          then mesh_seq (get_mesh sp) else snd acc))
       spaces (0%nat, 0)).

Definition set_min_dg_mesh_seq (dp : DiscreteProblem) (v : Z) : DiscreteProblem :=
  {| wf := wf dp; spaces_first_dofs := spaces_first_dofs dp; ndof := ndof dp;
     sp_seq := sp_seq dp; wf_seq := wf_seq dp; have_matrix := have_matrix dp;
     is_fvm := is_fvm dp;
     RungeKutta := RungeKutta dp; RK_original_spaces_count := RK_original_spaces_count dp;
     DG_matrix_forms_present := DG_matrix_forms_present dp;
     DG_vector_forms_present := DG_vector_forms_present dp;
     current_mat := current_mat dp; current_rhs := current_rhs dp;
     current_force_diagonal_blocks := current_force_diagonal_blocks dp;
     current_block_weights := current_block_weights dp;
     min_dg_mesh_seq := v |}.

(** The loop over the edges of [assemble_one_DG_state]. *)
Fixpoint DG_edges_loop (dp : DiscreteProblem) (spaces : list Space) (ctx : ThreadCtx)
    (current_state : State) (edges : list nat) : list Event * option Exn :=
  match edges with
  | [] => ([], None)
  | k :: rest =>
      let st := set_isurf current_state (Z.of_nat k) in
      if negb (active_edge_marker st =? 0)
      then DG_edges_loop dp spaces ctx current_state rest
      else
        match assemble_DG_edge dp spaces ctx st with
        | (evs, Some ex) => (evs, Some ex)
        | (evs, None) =>
            let '(evs', ex) := DG_edges_loop dp spaces ctx current_state rest in
            (evs ++ evs', ex)
        end
  end.

(** [assemble_one_DG_state]. *)
Definition assemble_one_DG_state (dp : DiscreteProblem) (spaces : list Space) (ctx : ThreadCtx)
    (current_state : State) : list Event * option Exn :=
  let DG_state :=
    existsb (fun k => en_marker (rep current_state) k =? 0)
            (seq 0 (get_num_surf (rep current_state))) in
  if negb DG_state then ([], None)
  else
    let dp := set_min_dg_mesh_seq dp (min_mesh_seq spaces) in
    DG_edges_loop dp spaces ctx current_state (seq 0 (get_num_surf (rep current_state))).

(** ** Sparse structure and its cache *)

(** The externally owned right-hand side, as far as the engine reads it. *)
Record Vector := { vec_length : Z }.

(** The objects the discrete problem points to but does not own. *)
Record World := {
  w_spaces : list Space;
  w_rhs : Vector
}.

(** The loop of [is_up_to_date] over the spaces, leaving at the first
    difference. *)
Fixpoint seq_loop (spaces : list Space) (sp_seq : list Z) (idxs : list nat)
    (up_to_date : bool) : bool :=
  match idxs with
  | [] => up_to_date
  | i :: rest =>
      if negb (get_seq (space_at spaces i) =? nth i sp_seq (-1)) then false
      else seq_loop spaces sp_seq rest up_to_date
  end.

(** [DiscreteProblem::is_up_to_date]. *)
Definition is_up_to_date (dp : DiscreteProblem) (spaces : list Space) : bool :=
  let up_to_date := true in
  let up_to_date := if negb (have_matrix dp) then false else up_to_date in
  let up_to_date := seq_loop spaces (sp_seq dp) (seq 0 (get_neq (wf dp))) up_to_date in
  let up_to_date := if negb (wf_get_seq (wf dp) =? wf_seq dp) then false else up_to_date in
  up_to_date.

(** Is one of the surface forms a DG inner-edge form? *)
Definition has_DG_forms (w : WeakForm) : bool :=
  (existsb (fun f => Area_eqb (areas0 (mf_areas f)) H2D_DG_INNER_EDGE) (mfsurf w)
   || existsb (fun f => Area_eqb (areas0 (vf_areas f)) H2D_DG_INNER_EDGE) (vfsurf w))%bool.

(** [spaces_first_dofs[i] = 0] for every [i < n]. *)
Definition zero_first_dofs (n : nat) (first_dofs : list Z) : list Z :=
  map (fun _ => 0) (firstn n first_dofs) ++ skipn n first_dofs.

(** "Pretend assembling": for every pair of free DOFs, [pre_add_ij] at the
    position itself under [fwd] and at the transposed position under [bwd]. *)
Definition pre_add_block (am an : AsmList) (fwd bwd : bool) : list Event :=
  flat_map (fun i =>
    if 0 <=? al_dof am i then
      flat_map (fun j =>
        if 0 <=? al_dof an j then
          (if fwd then [MatPreAdd (al_dof am i) (al_dof an j)] else [])
          ++ (if bwd then [MatPreAdd (al_dof an j) (al_dof am i)] else [])
        else [])
        (seq 0 (cnt an))
    else [])
    (seq 0 (cnt am)).

(** The work of [create_sparse_structure] on one traversal state: the
    refreshed assembly lists and the positions registered. *)
Definition pre_add_state (dp : DiscreteProblem) (spaces : list Space) (meshes : list Mesh)
    (is_DG : bool) (al : list AsmList) (current_state : State) : list AsmList * list Event :=
  let neq := get_neq (wf dp) in
  let blocks := get_blocks (wf dp) (current_force_diagonal_blocks dp) in
  let al :=
    map (fun i => match state_e current_state i with
                  | None => als_at al i
                  | Some el =>
                      if is_DG
                      then get_element_assembly_list (space_at spaces i) el 0
                      else get_element_assembly_list (space_at spaces i) el
                             (nth i (spaces_first_dofs dp) 0)
                  end) (seq 0 neq) in
  let dg_events :=
    if is_DG then
      let num_edges := get_num_surf (deref (state_e current_state 0)) in
      flat_map (fun m =>
        flat_map (fun el =>
          flat_map (fun ed =>
            flat_map (fun neighbor =>
              if ((blocks m el || blocks el m) && negb (is_null (state_e current_state m)))%bool
              then pre_add_block (als_at al m)
                     (get_element_assembly_list (space_at spaces el) neighbor 0)
                     (blocks m el) (blocks el m)
              else [])
              (get_neighbors (state_e current_state el) (nth el meshes null_mesh) ed))
            (seq 0 num_edges))
          (seq 0 neq))
        (seq 0 neq)
    else [] in
  let block_events :=
    flat_map (fun m =>
      flat_map (fun n =>
        if (blocks m n && negb (is_null (state_e current_state m))
            && negb (is_null (state_e current_state n)))%bool
        then pre_add_block (als_at al m) (als_at al n) true false
        else [])
        (seq 0 neq))
      (seq 0 neq) in
  (al, dg_events ++ block_events).

Definition set_structure_cache (dp : DiscreteProblem) (hm : bool) (first_dofs : list Z)
    (seqs : list Z) (wseq : Z) : DiscreteProblem :=
  {| wf := wf dp; spaces_first_dofs := first_dofs; ndof := ndof dp;
     sp_seq := seqs; wf_seq := wseq; have_matrix := hm;
     is_fvm := is_fvm dp;
     RungeKutta := RungeKutta dp; RK_original_spaces_count := RK_original_spaces_count dp;
     DG_matrix_forms_present := DG_matrix_forms_present dp;
     DG_vector_forms_present := DG_vector_forms_present dp;
     current_mat := current_mat dp; current_rhs := current_rhs dp;
     current_force_diagonal_blocks := current_force_diagonal_blocks dp;
     current_block_weights := current_block_weights dp;
     min_dg_mesh_seq := min_dg_mesh_seq dp |}.

(** The loop of [create_sparse_structure] over the traversal states. *)
Definition pre_adds (dp : DiscreteProblem) (spaces : list Space) (meshes : list Mesh)
    (is_DG : bool) (states : list State) : list Event :=
  snd (fold_left (fun (acc : list AsmList * list Event) st =>
         let '(al, evs) := pre_add_state dp spaces meshes is_DG (fst acc) st in
         (al, snd acc ++ evs))
       states (map (fun _ => []) (seq 0 (get_neq (wf dp))), [])).

(** "Spaces have changed: create the matrix from scratch": the branch
    [current_mat != NULL] of a rebuild.  It yields the offsets, the spaces
    and the events on the matrix. *)
Definition rebuild_matrix (dp : DiscreteProblem) (spaces : list Space)
    : list Z * list Space * list Event :=
  let is_DG := has_DG_forms (wf dp) in
  let meshes := map (fun i => get_mesh (space_at spaces i)) (seq 0 (get_neq (wf dp))) in
  let first_dofs :=
    if is_DG then zero_first_dofs (List.length spaces) (spaces_first_dofs dp)
    else spaces_first_dofs dp in
  let spaces' := if is_DG then assign_dofs spaces else spaces in
  let dp' := set_structure_cache dp true first_dofs (sp_seq dp) (wf_seq dp) in
  (first_dofs, spaces',
   [MatFree; MatPrealloc (ndof dp)]
   ++ (if is_DG then [AssignDofs] else [])
   ++ pre_adds dp' spaces' meshes is_DG (traverse_states meshes)
   ++ [MatAlloc]).

(** The values [create_sparse_structure] saves to detect later changes. *)
Definition current_seqs (dp : DiscreteProblem) (spaces : list Space) : list Z :=
  map (fun i => get_seq (space_at spaces i)) (seq 0 (get_neq (wf dp))).

(** [DiscreteProblem::create_sparse_structure()]. *)
Definition create_sparse_structure (dp : DiscreteProblem) (w : World)
    : DiscreteProblem * World * list Event :=
  if is_up_to_date dp (w_spaces w) then
    let mat_events := if current_mat dp then [MatZero] else [] in
    if current_rhs dp then
      if vec_length (w_rhs w) =? 0
      then (dp, {| w_spaces := w_spaces w; w_rhs := {| vec_length := ndof dp |} |},
            mat_events ++ [RhsAlloc (ndof dp)])
      else (dp, w, mat_events ++ [RhsZero])
    else (dp, w, mat_events)
  else
    let '(have_matrix', (first_dofs, spaces, mat_events)) :=
      if current_mat dp
      then (true, rebuild_matrix dp (w_spaces w))
      else (have_matrix dp, (spaces_first_dofs dp, w_spaces w, [])) in
    let '(rhs, rhs_events) :=
      if current_rhs dp
      then ({| vec_length := ndof dp |}, [RhsAlloc (ndof dp)])
      else (w_rhs w, []) in
    (set_structure_cache dp have_matrix' first_dofs
       (current_seqs dp spaces) (wf_get_seq (wf dp)),
     {| w_spaces := spaces; w_rhs := rhs |},
     mat_events ++ rhs_events).

(** ** Construction *)

(** [Space::get_num_dofs(spaces)]. *)
Definition get_num_dofs_of (spaces : list Space) : Z :=
  fold_left (fun n sp => n + get_num_dofs sp) spaces 0.

(** [DiscreteProblem::init]; [wf = None] is the NULL weak form. *)
Definition init (wf_ptr : option WeakForm) (spaces : list Space) (first_dofs : list Z)
    : Result DiscreteProblem :=
  let ndof := get_num_dofs_of spaces in
  match wf_ptr with
  | None => inl (FatalError "WeakForm<Scalar>* wf can not be NULL in DiscreteProblem<Scalar>::DiscreteProblem.")
  | Some w =>
      if negb (Nat.eqb (List.length spaces) (get_neq w))
      then inl (FatalError "Bad number of spaces in DiscreteProblem.")
      else if Nat.eqb (List.length spaces) 0
      then inl (FatalError "Zero number of spaces in DiscreteProblem.")
      else
        inr {| wf := w; spaces_first_dofs := first_dofs; ndof := ndof;
               sp_seq := repeat (-1) (get_neq w); wf_seq := -1;
               have_matrix := false; is_fvm := false;
               RungeKutta := false; RK_original_spaces_count := 0;
               DG_matrix_forms_present :=
                 existsb (fun f => Area_eqb (areas0 (mf_areas f)) H2D_DG_INNER_EDGE) (mfsurf w);
               DG_vector_forms_present :=
                 existsb (fun f => Area_eqb (areas0 (vf_areas f)) H2D_DG_INNER_EDGE) (vfsurf w);
               current_mat := false; current_rhs := false;
               current_force_diagonal_blocks := false;
               current_block_weights := None;
               min_dg_mesh_seq := 0 |}
  end.

(** The running offsets [spaces_first_dofs] the constructor computes. *)
Fixpoint first_dofs_from (first_dof_running : Z) (spaces : list Space) : list Z :=
  match spaces with
  | [] => []
  | sp :: rest => first_dof_running :: first_dofs_from (first_dof_running + get_num_dofs sp) rest
  end.

(** [DiscreteProblem(wf, spaces)]. *)
Definition DiscreteProblem_of_spaces (wf_ptr : option WeakForm) (spaces : list Space)
    : Result DiscreteProblem :=
  match spaces with
  | [] => inl (NullException 2)
  | _ => init wf_ptr spaces (first_dofs_from 0 spaces)
  end.

(** [DiscreteProblem(wf, space)]. *)
Definition DiscreteProblem_of_space (wf_ptr : option WeakForm) (space : Space)
    : Result DiscreteProblem :=
  init wf_ptr [space] [0].

(** ** The assembly pass *)

Definition set_current (dp : DiscreteProblem) (mat rhs force_diagonal_blocks : bool)
    (block_weights : option Table) : DiscreteProblem :=
  {| wf := wf dp; spaces_first_dofs := spaces_first_dofs dp; ndof := ndof dp;
     sp_seq := sp_seq dp; wf_seq := wf_seq dp; have_matrix := have_matrix dp;
     is_fvm := is_fvm dp;
     RungeKutta := RungeKutta dp; RK_original_spaces_count := RK_original_spaces_count dp;
     DG_matrix_forms_present := DG_matrix_forms_present dp;
     DG_vector_forms_present := DG_vector_forms_present dp;
     current_mat := mat; current_rhs := rhs;
     current_force_diagonal_blocks := force_diagonal_blocks;
     current_block_weights := block_weights;
     min_dg_mesh_seq := min_dg_mesh_seq dp |}.

(** The external functions of all forms, in the order [assemble] collects them. *)
Definition ext_functions (w : WeakForm) : list MeshFunction :=
  flat_map mf_ext (mfvol w) ++ flat_map mf_ext (mfsurf w)
  ++ flat_map vf_ext (vfvol w) ++ flat_map vf_ext (vfsurf w).

(** The work on one traversal state: what the body of the state loop calls
    after it has fetched the state.  It yields the events it performed, the
    thread objects as it leaves them, and the exception it ended with, if any. *)
Definition StateWork :=
  DiscreteProblem -> list Space -> ThreadCtx -> State -> list Event * ThreadCtx * option Exn.

(** The state loop of [assemble] as one thread runs it, on the states it
    fetches.  The body has no handler: an exception of the work on a state
    takes the thread out of the loop there.  The loop shared by a team of
    threads is [region_loop] below. *)
Fixpoint states_loop (work : StateWork) (dp : DiscreteProblem) (spaces : list Space)
    (ctx : ThreadCtx) (states : list State) : list Event * option Exn :=
  match states with
  | [] => ([], None)
  | current_state :: rest =>
      match work dp spaces ctx current_state with
      | (evs, _, Some ex) => (evs, Some ex)
      | (evs, ctx, None) =>
          let '(evs', ex) := states_loop work dp spaces ctx rest in
          (evs ++ evs', ex)
      end
  end.

(** The meshes [assemble] traverses: those of the spaces, of the external
    functions and, with a coefficient vector, those of the spaces again. *)
Definition assemble_meshes (dp : DiscreteProblem) (w : World)
    (coeff_vec : option (list MeshFunction)) : list Mesh :=
  map get_mesh (w_spaces w) ++ map fn_mesh (ext_functions (wf dp))
  ++ (match coeff_vec with Some _ => map get_mesh (w_spaces w) | None => [] end).

(** The thread objects [init_assembling] creates. *)
Definition initial_ctx (w : World) (coeff_vec : option (list MeshFunction)) : ThreadCtx :=
  {| current_refmaps := map (fun _ => null_refmap) (w_spaces w);
     current_u_ext := option_map (map Some) coeff_vec;
     current_als := map (fun _ => []) (w_spaces w) |}.

(** Is the block-weight table of the wrong size? *)
Definition bad_table (dp : DiscreteProblem) (block_weights : option Table) : bool :=
  match block_weights with
  | Some tbl => negb (Nat.eqb (get_size tbl) (get_neq (wf dp)))
  | None => false
  end.

(** [assemble(coeff_vec, mat, rhs, force_diagonal_blocks, block_weights)],
    with the work on a state as a parameter, the parallel region being run
    by a single thread ([omp_get_max_threads() == 1]).  [coeff_vec] is
    given by the solutions [vector_to_solution] builds from it, one per
    space.  The last component is the error the pass ends with, if any: the
    exception thrown before the region, or the one that left the loop of
    the region, for which the region has no handler.  The pass of a team of
    threads is [assemble_parallel] below. *)
Definition assemble_with (work : StateWork) (dp : DiscreteProblem) (w : World)
    (coeff_vec : option (list MeshFunction)) (mat rhs force_diagonal_blocks : bool)
    (block_weights : option Table)
    : DiscreteProblem * World * list Event * option Exn :=
  let dp := set_current dp mat rhs force_diagonal_blocks block_weights in
  if bad_table dp block_weights then
    (dp, w, [],
     Some (LengthException 6
             (Z.of_nat (match block_weights with Some tbl => get_size tbl | None => 0%nat end))
             (Z.of_nat (get_neq (wf dp)))))
  else
    let '(dp, w, structure_events) := create_sparse_structure dp w in
    match states_loop work dp (w_spaces w) (initial_ctx w coeff_vec)
            (traverse_states (assemble_meshes dp w coeff_vec)) with
    | (evs, Some ex) => (dp, w, structure_events ++ evs, Some ex)
    | (evs, None) =>
        (dp, w,
         structure_events ++ evs
         ++ (if current_mat dp then [MatFinish] else [])
         ++ (if current_rhs dp then [RhsFinish] else []),
         None)
    end.

(** The body of the state loop after the critical section:
    [assemble_one_state], then [assemble_one_DG_state] when DG forms are
    present.  The marks [visited] the critical section sets on the elements
    of the state in a DG problem are not written here: [visited] is read
    through the elements the neighbor searches of [init_neighbors] hand
    out. *)
Definition state_work : StateWork :=
  fun dp spaces ctx current_state =>
    let '(evs, ctx) := assemble_one_state dp spaces ctx current_state in
    if (DG_matrix_forms_present dp || DG_vector_forms_present dp)%bool then
      let '(dg_evs, ex) := assemble_one_DG_state dp spaces ctx current_state in
      (evs ++ dg_evs, ctx, ex)
    else (evs, ctx, None).

(** [DiscreteProblem::assemble]. *)
Definition assemble := assemble_with state_work.

End Engine.

(** ** Reading a trace *)

(** The quadrature orders of the form evaluations, in order. *)
Definition value_orders (evs : list Event) : list Z :=
  flat_map (fun ev => match ev with
                      | EvMatrixValue q _ _ => [q]
                      | EvVectorValue q _ => [q]
                      | _ => []
                      end) evs.

(** The (row, column) pairs at which a matrix form was evaluated. *)
Definition evaluated_pairs (evs : list Event) : list (nat * nat) :=
  flat_map (fun ev => match ev with
                      | EvMatrixValue _ j i => [(i, j)]
                      | _ => []
                      end) evs.

(** The blocks handed to [SparseMatrix::add], in order. *)
Definition added_blocks (evs : list Event) : list Matrix :=
  flat_map (fun ev => match ev with
                      | MatAdd _ _ block _ _ => [block]
                      | _ => []
                      end) evs.


(** ** A small discretization to run the engine on

    One triangle whose edge 0 is an interior edge and whose other edges lie
    on the boundary, carried by every field; every field has two free DOFs
    on it. *)

Definition ex_el : Element :=
  {| el_id := 0; el_marker := 1;
     en_marker := fun k => if Nat.eqb k 0 then 0 else 1;
     get_num_surf := 3; get_mode := HERMES_MODE_TRIANGLE; visited := false |}.

Definition ex_mesh : Mesh :=
  {| mesh_seq := 5;
     element_markers_conversion := fun _ => {| marker := 1; valid := true |};
     boundary_markers_conversion := fun _ => {| marker := 1; valid := true |} |}.

Definition ex_asmlist (first_dof : Z) : AsmList :=
  [ {| idx := 0; dof := first_dof; coef := 1%float |};
    {| idx := 1; dof := first_dof + 1; coef := 1%float |} ].

Definition ex_space (s : Z) : Space :=
  {| get_mesh := ex_mesh; get_num_dofs := 2; get_seq := s;
     get_element_assembly_list := fun _ first_dof => ex_asmlist first_dof;
     get_boundary_assembly_list := fun _ _ first_dof => ex_asmlist first_dof;
     get_element_order := fun _ => 1;
     get_edge_order := fun _ _ => 1;
     shapeset_num_components := 1 |}.

(** One field. *)
Definition ex_state : State :=
  {| e := [Some ex_el]; rep := ex_el; bnd := fun k => negb (Nat.eqb k 0); isurf := -1 |}.

(** Two fields on the same element. *)
Definition ex_state2 : State :=
  {| e := [Some ex_el; Some ex_el]; rep := ex_el;
     bnd := fun k => negb (Nat.eqb k 0); isurf := -1 |}.

(** A state whose second field is absent. *)
Definition ex_state_absent : State :=
  {| e := [Some ex_el; None]; rep := ex_el;
     bnd := fun k => negb (Nat.eqb k 0); isurf := -1 |}.

Definition ex_ns (n : Z) (els : list Element) : NeighborSearch :=
  {| n_neighbors := n; neighbors := els; central_transformations := [];
     neighbor_asmlist := fun _ _ => ex_asmlist 2 |}.

(** Collaborators for the runs: zero-filled fresh blocks, the edge order
    taken equal to the order, no order limit, one traversal state,
    [assign_dofs] advancing every sequence number, and one neighbor search
    with one neighbor that the tree leaves as it is. *)
Definition ex_collab (states : list State) (searches : list (option NeighborSearch))
    : Collaborators :=
  {| new_matrix := fun _ _ _ => 0%float;
     get_edge_points := fun _ order _ => order;
     limit_order := fun order _ => order;
     H2D_GET_H_ORDER := fun o => Z.land o 31;
     H2D_GET_V_ORDER := fun o => Z.shiftr o 5;
     refmap_of := fun _ _ => null_refmap;
     assign_dofs :=
       map (fun sp => {| get_mesh := get_mesh sp; get_num_dofs := get_num_dofs sp;
                         get_seq := get_seq sp + 1;
                         get_element_assembly_list := get_element_assembly_list sp;
                         get_boundary_assembly_list := get_boundary_assembly_list sp;
                         get_element_order := get_element_order sp;
                         get_edge_order := get_edge_order sp;
                         shapeset_num_components := shapeset_num_components sp |});
     traverse_states := fun _ => states;
     get_neighbors := fun _ _ _ => [];
     init_neighbors := fun _ _ => searches;
     update_neighbor_search := fun ns _ => ns |}.

Definition ex_X : Collaborators := ex_collab [ex_state] [Some (ex_ns 1 [ex_el])].

(** A matrix form whose integrand evaluates to 2 for every pair. *)
Definition ex_mform (k : FormKind) (i j : nat) (s : SymFlag) (factor : Scalar)
    (areas : list Area) : MatrixForm :=
  {| mf_kind := k; mf_i := i; mf_j := j; mf_sym := s; mf_scaling_factor := factor;
     mf_areas := areas; mf_u_ext_offset := 0; mf_ext := [];
     mf_value := fun _ _ _ => 2%float;
     mf_ord := fun _ ou ov _ => ou + ov |}.

(** A vector form whose integrand evaluates to 2 for every test function. *)
Definition ex_vform (k : FormKind) (i : nat) (factor : Scalar) (areas : list Area)
    : VectorForm :=
  {| vf_kind := k; vf_i := i; vf_scaling_factor := factor;
     vf_areas := areas; vf_u_ext_offset := 0; vf_ext := [];
     vf_value := fun _ _ => 2%float;
     vf_ord := fun _ ov _ => ov |}.

Definition ex_wf (neq : nat) (mv ms : list MatrixForm) (vv vs : list VectorForm) : WeakForm :=
  {| get_neq := neq; wf_get_seq := 0;
     mfvol := mv; mfsurf := ms; vfvol := vv; vfsurf := vs;
     get_blocks := fun _ _ _ => true |}.

(** A problem on [neq] copies of the example space, as the constructor
    leaves it, with matrix and right-hand side attached. *)
Definition ex_dp (w : WeakForm) : DiscreteProblem :=
  {| wf := w;
     spaces_first_dofs := first_dofs_from 0 (repeat (ex_space 1) (get_neq w));
     ndof := 2 * Z.of_nat (get_neq w);
     sp_seq := repeat (-1) (get_neq w); wf_seq := -1;
     have_matrix := false; is_fvm := false;
     RungeKutta := false; RK_original_spaces_count := 0;
     DG_matrix_forms_present :=
       existsb (fun f => Area_eqb (areas0 (mf_areas f)) H2D_DG_INNER_EDGE) (mfsurf w);
     DG_vector_forms_present :=
       existsb (fun f => Area_eqb (areas0 (vf_areas f)) H2D_DG_INNER_EDGE) (vfsurf w);
     current_mat := true; current_rhs := true;
     current_force_diagonal_blocks := false;
     current_block_weights := None;
     min_dg_mesh_seq := 0 |}.

Definition ex_world (neq : nat) : World :=
  {| w_spaces := repeat (ex_space 1) neq; w_rhs := {| vec_length := 0 |} |}.

Definition ex_ctx (neq : nat) : ThreadCtx :=
  {| current_refmaps := repeat null_refmap neq;
     current_u_ext := None;
     current_als := repeat (ex_asmlist 0) neq |}.

(** Two fields coupled across interior edges by a DG matrix form, and the
    same two fields coupled by a boundary form. *)
Definition ex_dp_DG : DiscreteProblem :=
  ex_dp (ex_wf 2 [] [ex_mform Surf 0 1 HERMES_NONSYM 1%float [H2D_DG_INNER_EDGE]] [] []).

Definition ex_dp_bdy : DiscreteProblem :=
  ex_dp (ex_wf 2 [] [ex_mform Surf 0 1 HERMES_NONSYM 1%float [HERMES_ANY]] [] []).

(** One field with a volume matrix form and a volume vector form. *)
Definition ex_dp_vol : DiscreteProblem :=
  ex_dp (ex_wf 1 [ex_mform Vol 0 0 HERMES_NONSYM 1%float [HERMES_ANY]] []
                 [ex_vform Vol 0 1%float [HERMES_ANY]] []).

(** The example world after a refinement of its space. *)
Definition ex_world_refined : World :=
  {| w_spaces := [ex_space 2]; w_rhs := {| vec_length := 2 |} |}.

(** A problem without forms of its own, to evaluate single forms on. *)
Definition ex_dp_bare (neq : nat) : DiscreteProblem := ex_dp (ex_wf neq [] [] [] []).

(** The example state on its boundary edge 1. *)
Definition ex_state_edge1 : State := set_isurf ex_state 1.

(** One field with a DG inner-edge matrix form and a DG inner-edge vector
    form, in finite-volume mode. *)
Definition ex_dp_fvm_DG : DiscreteProblem :=
  set_fvm (ex_dp (ex_wf 1 [] [ex_mform Surf 0 0 HERMES_NONSYM 1%float [H2D_DG_INNER_EDGE]]
                          [] [ex_vform Surf 0 1%float [H2D_DG_INNER_EDGE]])).

(** One field with a volume and a boundary matrix form, in finite-volume mode. *)
Definition ex_dp_fvm : DiscreteProblem :=
  set_fvm (ex_dp (ex_wf 1 [ex_mform Vol 0 0 HERMES_NONSYM 1%float [HERMES_ANY]]
                          [ex_mform Surf 0 0 HERMES_NONSYM 1%float [HERMES_ANY]]
                          [ex_vform Vol 0 1%float [HERMES_ANY]] [])).

(** Two neighbor searches on the interior edge that disagree: none and two
    neighbors; two and one. *)
Definition ex_X_zero_two : Collaborators :=
  ex_collab [ex_state] [Some (ex_ns 0 []); Some (ex_ns 2 [ex_el; ex_el])].

Definition ex_X_two_one : Collaborators :=
  ex_collab [ex_state] [Some (ex_ns 2 [ex_el; ex_el]); Some (ex_ns 1 [ex_el])].

(** Two searches that agree on two neighbors. *)
Definition ex_X_two_two : Collaborators :=
  ex_collab [ex_state] [Some (ex_ns 2 [ex_el; ex_el]); Some (ex_ns 2 [ex_el; ex_el])].




(** ** Conditions the properties below speak about *)

(** A matrix form is to be skipped on a state: an endpoint field has no
    element there, or the scaling factor is negligible, or a block-weight
    table is set and the weight of the block is negligible. *)
Definition matrix_form_skipped (dp : DiscreteProblem) (form : MatrixForm) (st : State) : Prop :=
  state_e st (mf_i form) = None
  \/ state_e st (mf_j form) = None
  \/ negligible (mf_scaling_factor form) = true
  \/ (exists tbl, current_block_weights dp = Some tbl
                  /\ negligible (get_A tbl (mf_i form) (mf_j form)) = true).

(** A vector form is to be skipped on a state. *)
Definition vector_form_skipped (form : VectorForm) (st : State) : Prop :=
  state_e st (vf_i form) = None
  \/ negligible (vf_scaling_factor form) = true.


(** No event that touches the sparse structure of the matrix. *)
Definition structure_kept (evs : list Event) : Prop :=
  Forall (fun ev => is_structure_event ev = false) evs.

(** Position [k] of an assembly list holds a free DOF whose coefficient is
    not negligible: the shape functions the matrix loops evaluate. *)
Definition evaluated_dof (al : AsmList) (k : nat) : Prop :=
  (k < cnt al)%nat /\ 0 <= al_dof al k /\ negligible (al_coef al k) = false.

(** The number of neighbors a search reports once it is updated against
    the tree. *)
Definition updated_n_neighbors `{X : Collaborators} (root : NodePtr) (ns : NeighborSearch) : Z :=
  n_neighbors (update_neighbor_search ns root).

(** The updated search keeps its counter equal to the length of its list of
    neighbors, as every method of [NeighborSearch] that changes one changes
    the other. *)
Definition counter_in_step `{X : Collaborators} (root : NodePtr) (ns : NeighborSearch) : Prop :=
  n_neighbors (update_neighbor_search ns root)
  = Z.of_nat (List.length (neighbors (update_neighbor_search ns root))).

(** The block agrees at positions [(p, q)] and [(q, p)]. *)
Definition sym_at (p q : nat) (M : Matrix) : Prop := M p q = M q p.

(** The estimator calls satisfy [P]: the problem is in finite-volume mode,
    where there are none, or [P] holds of every estimator call. *)
Definition ord_calls_covered (P : Event -> Prop) (dp : DiscreteProblem) : Prop :=
  is_fvm dp = true
  \/ ((forall i j, P (EvMatrixOrd i j)) /\ (forall i, P (EvVectorOrd i))).

(** No estimator call among the events. *)
Definition no_ord_call (evs : list Event) : Prop :=
  Forall (fun ev => is_ord_call ev = false) evs.


(** ** The multimesh tree: lookup and traversal *)

(** [NeighborNode::get_left_son], [get_right_son], [get_transformation]. *)
Definition get_left_son (node : NodePtr) : NodePtr :=
  match node with NeighborNode _ left_son _ => left_son | NULL => NULL end.

Definition get_right_son (node : NodePtr) : NodePtr :=
  match node with NeighborNode _ _ right_son => right_son | NULL => NULL end.

Definition get_transformation (node : NodePtr) : Z :=
  match node with NeighborNode transformation _ _ => transformation | NULL => 0 end.

(** [NeighborNode::set_left_son], [set_right_son], [set_transformation]. *)
Definition set_left_son (node left_son : NodePtr) : NodePtr :=
  match node with NeighborNode t _ r => NeighborNode t left_son r | NULL => NULL end.

Definition set_right_son (node right_son : NodePtr) : NodePtr :=
  match node with NeighborNode t l _ => NeighborNode t l right_son | NULL => NULL end.

Definition set_transformation (node : NodePtr) (transformation : Z) : NodePtr :=
  match node with NeighborNode _ l r => NeighborNode transformation l r | NULL => NULL end.

Definition is_NULL (node : NodePtr) : bool :=
  match node with NULL => true | NeighborNode _ _ _ => false end.

(** [find_node(transformations, transformation_count, node)].  The callers
    pass the root, which is never NULL, and the recursion follows only sons
    tested non-NULL; a NULL [node] with transformations left would be
    dereferenced by the source. *)
Fixpoint find_node (transformations : list Z) (node : NodePtr) : Result NodePtr :=
  match transformations with
  | [] => inr node
  | t0 :: rest =>
      match node with
      | NULL => inl (StdException "NULL node dereferenced")
      | NeighborNode _ left_son right_son =>
          let through_right_son :=
            match right_son with
            | NeighborNode tr _ _ =>
                if tr =? t0 then find_node rest right_son
                else inl (FatalError "Transformation of a central element not found in the multimesh tree.")
            | NULL =>
                inl (FatalError "Transformation of a central element not found in the multimesh tree.")
            end in
          match left_son with
          | NeighborNode tl _ _ =>
              if tl =? t0 then find_node rest left_son else through_right_son
          | NULL => through_right_son
          end
      end
  end.

(** A [Hermes::vector<Hermes::vector<unsigned int>*>]: the vectors pointed
    to, in order; every one is allocated afresh, none is shared.  The
    functions below yield [None] where the source calls [back()] on an empty
    vector or [pop_back()] on an empty one, which the language leaves
    undefined. *)
Definition Running := list (list Z).

(** [running.back()->push_back(x)]. *)
Definition back_push_back (x : Z) (running : Running) : option Running :=
  match running with
  | [] => None
  | _ => Some (removelast running ++ [last running [] ++ [x]])
  end.

(** [running.back()->pop_back()]. *)
Definition back_pop_back (running : Running) : option Running :=
  match running with
  | [] => None
  | _ =>
      match last running [] with
      | [] => None
      | _ => Some (removelast running ++ [removelast (last running [])])
      end
  end.

(** [delete running.back(); running.pop_back()]. *)
Definition pop_back (running : Running) : option Running :=
  match running with
  | [] => None
  | _ => Some (removelast running)
  end.

(** A leaf completes the running vector: a copy of the path so far is made,
    the leaf is pushed to the running vector, and the copy becomes the new
    running vector. *)
Definition complete_with_leaf (x : Z) (running : Running) : option Running :=
  match running with
  | [] => None
  | _ =>
      let new_neighbor_transformations := last running [] in
      Some (removelast running ++ [last running [] ++ [x]] ++ [new_neighbor_transformations])
  end.

(** [traverse_multimesh_tree(node, running_transformations)]. *)
Fixpoint traverse_multimesh_tree (node : NodePtr) (running_transformations : Running)
    : option Running :=
  match node with
  | NULL => None
  | NeighborNode transformation left_son right_son =>
      let through_sons (running : Running) : option Running :=
        match (if is_NULL left_son then Some running
               else traverse_multimesh_tree left_son running) with
        | None => None
        | Some running =>
            if is_NULL right_son then Some running
            else traverse_multimesh_tree right_son running
        end in
      if transformation =? 0 then
        match through_sons running_transformations with
        | None => None
        | Some running => pop_back running
        end
      else if (is_NULL left_son && is_NULL right_son)%bool then
        complete_with_leaf transformation running_transformations
      else
        match back_push_back transformation running_transformations with
        | None => None
        | Some running =>
            match through_sons running with
            | None => None
            | Some running => back_pop_back running
            end
        end
  end.

(** [get_multimesh_neighbors_transformations(multimesh_tree)]. *)
Definition get_multimesh_neighbors_transformations (multimesh_tree : NodePtr)
    : option Running :=
  let running_transformations := [[]] in
  traverse_multimesh_tree multimesh_tree running_transformations.

(** [NeighborSearch::NeighborEdgeInfo], as far as the traversal reads it.
    The declaration is not part of the sources at hand; both members are
    read as integers, [orientation] being tested against zero. *)
Record NeighborEdgeInfo := {
  local_num_of_edge : Z;
  orientation : Z
}.

(** Conversion of an [int] to the [unsigned int] a transformation vector
    holds. *)
Definition to_unsigned (x : Z) : Z := x mod 4294967296.

(** The code [traverse_multimesh_subtree] pushes to the running neighbor
    transformation for a node; [%] of the source truncates towards zero. *)
Definition neighbor_transformation (transformation : Z) (edge_info : NeighborEdgeInfo)
    (active_edge : Z) (mode : ElementMode) : Z :=
  match mode with
  | HERMES_MODE_TRIANGLE =>
      if ((active_edge =? 0) && (transformation =? 0)
          || (active_edge =? 1) && (transformation =? 1)
          || (active_edge =? 2) && (transformation =? 2))%bool
      then to_unsigned (if orientation edge_info =? 0
                        then local_num_of_edge edge_info
                        else Z.rem (local_num_of_edge edge_info + 1) 3)
      else to_unsigned (if negb (orientation edge_info =? 0)
                        then local_num_of_edge edge_info
                        else Z.rem (local_num_of_edge edge_info + 1) 3)
  | HERMES_MODE_QUAD =>
      if ((active_edge =? 0) && ((transformation =? 0) || (transformation =? 6))
          || (active_edge =? 1) && ((transformation =? 1) || (transformation =? 4))
          || (active_edge =? 2) && ((transformation =? 2) || (transformation =? 7))
          || (active_edge =? 3) && ((transformation =? 3) || (transformation =? 5)))%bool
      then to_unsigned (if orientation edge_info =? 0
                        then local_num_of_edge edge_info
                        else Z.rem (local_num_of_edge edge_info + 1) 4)
      else to_unsigned (if negb (orientation edge_info =? 0)
                        then local_num_of_edge edge_info
                        else Z.rem (local_num_of_edge edge_info + 1) 4)
  end.

(** [traverse_multimesh_subtree(node, running_central_transformations,
    running_neighbor_transformations, edge_info, active_edge, mode)]. *)
Fixpoint traverse_multimesh_subtree (node : NodePtr)
    (running_central_transformations running_neighbor_transformations : Running)
    (edge_info : NeighborEdgeInfo) (active_edge : Z) (mode : ElementMode)
    : option (Running * Running) :=
  match node with
  | NULL => None
  | NeighborNode transformation left_son right_son =>
      let code := neighbor_transformation transformation edge_info active_edge mode in
      if (is_NULL left_son && is_NULL right_son)%bool then
        match complete_with_leaf transformation running_central_transformations,
              complete_with_leaf code running_neighbor_transformations with
        | Some central, Some neighbor => Some (central, neighbor)
        | _, _ => None
        end
      else
        match back_push_back transformation running_central_transformations,
              back_push_back code running_neighbor_transformations with
        | Some central, Some neighbor =>
            match (if is_NULL left_son then Some (central, neighbor)
                   else traverse_multimesh_subtree left_son central neighbor
                          edge_info active_edge mode) with
            | None => None
            | Some (central, neighbor) =>
                match (if is_NULL right_son then Some (central, neighbor)
                       else traverse_multimesh_subtree right_son central neighbor
                              edge_info active_edge mode) with
                | None => None
                | Some (central, neighbor) =>
                    match back_pop_back central, back_pop_back neighbor with
                    | Some central, Some neighbor => Some (central, neighbor)
                    | _, _ => None
                    end
                end
            end
        | _, _ => None
        end
  end.

(** ** Shapes of a multimesh tree *)

(** No node has a right son without a left son, and two sons of a node
    carry different transformations. *)
Fixpoint left_son_first (node : NodePtr) : bool :=
  match node with
  | NULL => true
  | NeighborNode _ left_son right_son =>
      match left_son, right_son with
      | NULL, NULL => true
      | NULL, NeighborNode _ _ _ => false
      | NeighborNode _ _ _, NULL => left_son_first left_son
      | NeighborNode tl _ _, NeighborNode tr _ _ =>
          (negb (tl =? tr) && left_son_first left_son && left_son_first right_son)%bool
      end
  end.

(** The transformations on the ways from a node down to its leaves, the
    node included. *)
Fixpoint leaf_paths (node : NodePtr) : list (list Z) :=
  match node with
  | NULL => []
  | NeighborNode transformation left_son right_son =>
      if (is_NULL left_son && is_NULL right_son)%bool then [[transformation]]
      else map (cons transformation) (leaf_paths left_son ++ leaf_paths right_son)
  end.

(** Every node of the tree carries a transformation other than 0, the
    transformation by which [traverse_multimesh_tree] recognises the root. *)
Fixpoint nonzero_transformations (node : NodePtr) : bool :=
  match node with
  | NULL => true
  | NeighborNode transformation left_son right_son =>
      (negb (transformation =? 0) && nonzero_transformations left_son
       && nonzero_transformations right_son)%bool
  end.

(** Every node of the tree carries one of the two transformations [a], [b]. *)
Fixpoint transformations_among (a b : Z) (node : NodePtr) : bool :=
  match node with
  | NULL => true
  | NeighborNode transformation left_son right_son =>
      (((transformation =? a) || (transformation =? b))
       && transformations_among a b left_son && transformations_among a b right_son)%bool
  end.

(** An example tree: the root with the ways 1-2, 1-3 and 2 below it. *)
Definition ex_tree : NodePtr :=
  NeighborNode 0
    (NeighborNode 1 (NeighborNode 2 NULL NULL) (NeighborNode 3 NULL NULL))
    (NeighborNode 2 NULL NULL).

Definition ex_edge_info : NeighborEdgeInfo :=
  {| local_num_of_edge := 2; orientation := 1 |}.

(** A node that exists and heads a tree of the shape [left_son_first]. *)
Definition shaped (node : NodePtr) : Prop :=
  is_NULL node = false /\ left_son_first node = true.

(** The sons of a node, and all nodes below, carry transformations among
    [a] and [b]. *)
Definition sons_among (a b : Z) (node : NodePtr) : Prop :=
  transformations_among a b (get_left_son node) = true
  /\ transformations_among a b (get_right_son node) = true.

(** A path is found in a tree, at a node that exists. *)
Definition found (p : list Z) (node : NodePtr) : Prop :=
  exists n, find_node p node = inr n /\ is_NULL n = false.

(** Two searches for the runs: one that sees two halves of the edge, the
    second of them split again, and one that sees the edge whole. *)
Definition ex_ns_split : NeighborSearch :=
  {| n_neighbors := 3; neighbors := [ex_el; ex_el; ex_el];
     central_transformations := [Some [1]; Some [2; 1]; Some [2; 2]];
     neighbor_asmlist := fun _ _ => [] |}.

Definition ex_ns_whole : NeighborSearch :=
  {| n_neighbors := 1; neighbors := [ex_el];
     central_transformations := [];
     neighbor_asmlist := fun _ _ => [] |}.

(** The tree [build_multimesh_tree] makes of the two searches. *)
Definition ex_built_tree : NodePtr :=
  NeighborNode 0
    (NeighborNode 1 NULL NULL)
    (NeighborNode 2 (NeighborNode 1 NULL NULL) (NeighborNode 2 NULL NULL)).

(** ** The overloads of [assemble] *)

Section Overloads.

Context `{X : Collaborators}.

(** [assemble(mat, rhs, force_diagonal_blocks, block_weights)]: no
    coefficient vector. *)
Definition assemble_mat_rhs (dp : DiscreteProblem) (w : World)
    (mat rhs force_diagonal_blocks : bool) (block_weights : option Table)
    : DiscreteProblem * World * list Event * option Exn :=
  let coeff_vec := None in
  assemble dp w coeff_vec mat rhs force_diagonal_blocks block_weights.

(** [assemble(rhs, force_diagonal_blocks, block_weights)]: neither a
    coefficient vector nor a matrix. *)
Definition assemble_rhs (dp : DiscreteProblem) (w : World)
    (rhs force_diagonal_blocks : bool) (block_weights : option Table)
    : DiscreteProblem * World * list Event * option Exn :=
  assemble dp w None false rhs force_diagonal_blocks block_weights.

(** [assemble(coeff_vec, rhs, force_diagonal_blocks, block_weights)]: no
    matrix. *)
Definition assemble_coeff_rhs (dp : DiscreteProblem) (w : World)
    (coeff_vec : option (list MeshFunction))
    (rhs force_diagonal_blocks : bool) (block_weights : option Table)
    : DiscreteProblem * World * list Event * option Exn :=
  assemble dp w coeff_vec false rhs force_diagonal_blocks block_weights.

(** [create_sparse_structure(mat, rhs)]: a NULL [rhs] leaves the vector set
    by an earlier call in place. *)
Definition create_sparse_structure_for (dp : DiscreteProblem) (w : World) (mat rhs : bool)
    : DiscreteProblem * World * list Event :=
  let dp := set_current dp mat (if rhs then true else current_rhs dp)
              (current_force_diagonal_blocks dp) (current_block_weights dp) in
  create_sparse_structure dp w.

End Overloads.

(** ** More readings of a trace *)

(** An operation on the matrix, or a call of a matrix form. *)
Definition is_matrix_event (ev : Event) : bool :=
  match ev with
  | EvMatrixOrd _ _ | EvMatrixValue _ _ _
  | MatZero | MatFree | MatPrealloc _ | MatPreAdd _ _ | MatAlloc
  | MatAdd _ _ _ _ _ | MatFinish => true
  | _ => false
  end.

(** An operation on the right-hand side, or a call of a vector form. *)
Definition is_rhs_event (ev : Event) : bool :=
  match ev with
  | EvVectorOrd _ | EvVectorValue _ _
  | RhsAlloc _ | RhsZero | RhsAdd _ _ | RhsFinish => true
  | _ => false
  end.

(** The events of an [assemble] call. *)
Definition trace_of (r : DiscreteProblem * World * list Event * option Exn) : list Event :=
  snd (fst r).

(** A value goes to the right-hand side at a row that is not negative, and
    a position is registered in the matrix at a row and a column that are
    not negative. *)
Definition on_free_dofs (ev : Event) : Prop :=
  match ev with
  | RhsAdd row _ => 0 <= row
  | MatPreAdd row col => 0 <= row /\ 0 <= col
  | _ => True
  end.

(** A problem that has a matrix structure for the first example world, and
    is then asked to assemble a right-hand side only. *)
Definition ex_dp_assembled : DiscreteProblem :=
  fst (fst (fst (assemble (X := ex_X) ex_dp_vol (ex_world 1) None true true false None))).

Definition ex_dp_rhs_only : DiscreteProblem :=
  set_current ex_dp_assembled false true false None.

(** Spaces on meshes with the sequence numbers 7, 5 and 9. *)
Definition ex_space_on (s : Z) : Space :=
  {| get_mesh := {| mesh_seq := s;
                    element_markers_conversion := element_markers_conversion ex_mesh;
                    boundary_markers_conversion := boundary_markers_conversion ex_mesh |};
     get_num_dofs := 2; get_seq := 1;
     get_element_assembly_list := fun _ first_dof => ex_asmlist first_dof;
     get_boundary_assembly_list := fun _ _ first_dof => ex_asmlist first_dof;
     get_element_order := fun _ => 1;
     get_edge_order := fun _ k => Z.of_nat k + 2;
     shapeset_num_components := 1 |}.

(** A state in the interior of the domain: none of its edges lies on the
    boundary. *)
Definition ex_state_interior : State :=
  {| e := [Some ex_el]; rep := ex_el; bnd := fun _ => false; isurf := -1 |}.

(** An element whose edges were assembled from the other side already. *)
Definition ex_el_visited : Element :=
  {| el_id := 3; el_marker := 1;
     en_marker := fun k => if Nat.eqb k 0 then 0 else 1;
     get_num_surf := 3; get_mode := HERMES_MODE_TRIANGLE; visited := true |}.

(** The site at which [assemble_matrix_form] evaluates a form. *)
Definition matrix_form_site `{X : Collaborators} (form : MatrixForm) (order : Z)
    (current_refmaps : list RefMap) (current_state : State) : EvalSite :=
  {| site_state := current_state; site_neighbor := None;
     site_quad_order :=
       geometry_order (is_surface (mf_kind form)) order
         (refmap_at current_refmaps (mf_i form)) current_state |}.

(** The block of a matrix form is exploited as symmetric. *)
Definition exploited_as_symmetric (form : MatrixForm) : bool :=
  (Nat.eqb (mf_i form) (mf_j form) && (sym_int (mf_sym form) =? 1))%bool.

(** Position [k] of an extended shapeset holds a free DOF. *)
Definition free_ext_dof (es : ExtendedShapeset) (k : nat) : Prop :=
  (k < ext_cnt es)%nat /\ 0 <= ext_dof es k.

(** ** What a rebuild of the sparse structure registers *)













(** ** The parallel region of [assemble]

    [#pragma omp parallel] with [#pragma omp for schedule(dynamic, 1)]: a
    team of [omp_get_max_threads()] threads shares the iterations of the
    state loop.  Every iteration fetches, in the critical section
    [get_next_state], the next state of the master traversal, and works on
    it with the objects of its thread.  There is no [try] in the region, nor
    in any function of the engine. *)

(** [value] and [ord] of a form are code of the user of the engine, and a
    call of them may throw.  A [Throwing] tells of a call, on the state
    that is worked on, whether it throws, and what. *)
Definition Throwing := State -> Event -> option Exn.

(** A call of [value] or [ord] of a form. *)
Definition is_form_call (ev : Event) : bool :=
  (is_value_call ev || is_ord_call ev)%bool.

Definition thrown_by (throws : Throwing) (current_state : State) (ev : Event) : option Exn :=
  if is_form_call ev then throws current_state ev else None.

(** What a thread does of a sequence of events when calls may throw: as no
    function has a handler, the first call that throws ends the sequence;
    the events before it have happened, those after it do not happen. *)
Fixpoint until_throw (throws : Throwing) (current_state : State) (evs : list Event)
    : list Event * option Exn :=
  match evs with
  | [] => ([], None)
  | ev :: rest =>
      match thrown_by throws current_state ev with
      | Some ex => ([ev], Some ex)
      | None =>
          let '(evs', ex) := until_throw throws current_state rest in
          (ev :: evs', ex)
      end
  end.

(** The body of the state loop when calls of the forms may throw: the work
    of [state_work] up to the first call that throws. *)
Definition throwing_work `{X : Collaborators} (throws : Throwing) : StateWork :=
  fun dp spaces ctx current_state =>
    let '(evs, ctx', ex) := state_work dp spaces ctx current_state in
    match until_throw throws current_state evs with
    | (evs', Some thrown) => (evs', ctx', Some thrown)
    | (_, None) => (evs, ctx', ex)
    end.

(** A thread of the team: in the loop, with its objects, or out of it by an
    exception that left the body of the loop. *)
Inductive Worker :=
| InLoop (ctx : ThreadCtx)
| LeftLoop (ex : Exn).

(** One iteration of the loop: the thread that ran it, the state it
    fetched, the objects of the thread at that time, the events of its work
    and the exception that ended the work, if any. *)
Record Iteration := {
  it_thread : nat;
  it_state : State;
  it_ctx : ThreadCtx;
  it_events : list Event;
  it_raised : option Exn
}.

Definition ctx_in_loop (workers : list Worker) (t : nat) : option ThreadCtx :=
  match nth_error workers t with
  | Some (InLoop ctx) => Some ctx
  | _ => None
  end.

Definition is_in_loop (workers : list Worker) (t : nat) : bool :=
  match ctx_in_loop workers t with Some _ => true | None => false end.

(** The thread that takes the next iteration: the one the schedule names
    if it is in the loop, else the first one that is; none if every thread
    has left the loop. *)
Definition taker (workers : list Worker) (named : nat) : option nat :=
  if is_in_loop workers named then Some named
  else find (is_in_loop workers) (seq 0 (List.length workers)).

Definition set_worker (workers : list Worker) (t : nat) (worker : Worker) : list Worker :=
  firstn t workers ++ worker :: skipn (S t) workers.

(** The loop of the region.  [thread_of k] names the thread that is the
    [k]-th to enter the critical section; the states are fetched in the
    order of the master traversal.  The result lists the iterations in that
    order, which says nothing about the order in time of the events of
    different threads.  A thread whose work throws leaves the loop with the
    exception; the other threads go on.  (The marks [visited] that the
    critical section sets in a DG problem are read through the elements the
    neighbor searches hand out, and are not modelled here.) *)
Fixpoint region_loop (work : StateWork) (dp : DiscreteProblem) (spaces : list Space)
    (thread_of : nat -> nat) (k : nat) (workers : list Worker) (states : list State)
    : list Iteration * list Worker :=
  match states with
  | [] => ([], workers)
  | current_state :: rest =>
      match taker workers (thread_of k) with
      | None => ([], workers)
      | Some t =>
          match ctx_in_loop workers t with
          | None => ([], workers)
          | Some ctx =>
              let '(evs, ctx', ex) := work dp spaces ctx current_state in
              let worker :=
                match ex with Some ex => LeftLoop ex | None => InLoop ctx' end in
              let '(its, workers') :=
                region_loop work dp spaces thread_of (S k) (set_worker workers t worker) rest in
              ({| it_thread := t; it_state := current_state; it_ctx := ctx;
                  it_events := evs; it_raised := ex |} :: its,
               workers')
          end
      end
  end.


(** The exceptions with which threads have left the loop. *)
Definition escaped (workers : list Worker) : list Exn :=
  flat_map (fun worker => match worker with LeftLoop ex => [ex] | InLoop _ => [] end) workers.

(** How an [assemble] call ends. *)
Inductive Outcome :=
| Returns                          (* the call returns to its caller *)
| Throws (ex : Exn)                (* a throw outside the region: it reaches the caller *)
| Unhandled (exs : list Exn).      (* exceptions left the body of the loop in their
                                      threads and met no handler in the region; what the
                                      run does from there on OpenMP does not define *)

Record Pass := {
  pass_dp : DiscreteProblem;
  pass_world : World;
  pass_structure : list Event;       (* events of create_sparse_structure *)
  pass_iterations : list Iteration;  (* the iterations of the region *)
  pass_finish : list Event;          (* events after the region *)
  pass_outcome : Outcome
}.

(** [assemble(coeff_vec, mat, rhs, force_diagonal_blocks, block_weights)]
    run by a team of [max_threads] threads, with forms that may throw. *)
Definition assemble_parallel `{X : Collaborators} (throws : Throwing) (max_threads : nat)
    (thread_of : nat -> nat) (dp : DiscreteProblem) (w : World)
    (coeff_vec : option (list MeshFunction)) (mat rhs force_diagonal_blocks : bool)
    (block_weights : option Table) : Pass :=
  let dp := set_current dp mat rhs force_diagonal_blocks block_weights in
  if bad_table dp block_weights then
    {| pass_dp := dp; pass_world := w; pass_structure := [];
       pass_iterations := []; pass_finish := [];
       pass_outcome :=
         Throws (LengthException 6
                   (Z.of_nat (match block_weights with
                              | Some tbl => get_size tbl
                              | None => 0%nat
                              end))
                   (Z.of_nat (get_neq (wf dp)))) |}
  else
    let '(dp, w, structure_events) := create_sparse_structure dp w in
    let '(its, workers) :=
      region_loop (throwing_work throws) dp (w_spaces w) thread_of 0
        (repeat (InLoop (initial_ctx w coeff_vec)) max_threads)
        (traverse_states (assemble_meshes dp w coeff_vec)) in
    match escaped workers with
    | [] =>
        {| pass_dp := dp; pass_world := w; pass_structure := structure_events;
           pass_iterations := its;
           pass_finish := (if current_mat dp then [MatFinish] else [])
                          ++ (if current_rhs dp then [RhsFinish] else []);
           pass_outcome := Returns |}
    | exs =>
        {| pass_dp := dp; pass_world := w; pass_structure := structure_events;
           pass_iterations := its; pass_finish := [];
           pass_outcome := Unhandled exs |}
    end.


(** No form throws. *)
Definition no_throw : Throwing := fun _ _ => None.

(** The events of a pass, the iterations one after the other. *)
Definition pass_trace (p : Pass) : list Event :=
  pass_structure p ++ flat_map it_events (pass_iterations p) ++ pass_finish p.

(** The error with which a pass ends, if any. *)
Definition pass_error (p : Pass) : option Exn :=
  match pass_outcome p with
  | Returns => None
  | Throws ex => Some ex
  | Unhandled exs => hd_error exs
  end.


(** * Properties *)

(** ** Loops and lists *)

Lemma fold_left_invariant {A B : Type} (P : A -> Prop) (f : A -> B -> A) (l : list B) :
  forall a, P a -> (forall a x, In x l -> P a -> P (f a x)) -> P (fold_left f l a).
Proof.
  induction l as [|x l IH]; intros a Ha Hstep; simpl.
  - exact Ha.
  - apply IH.
    + apply Hstep; [left; reflexivity | exact Ha].
    + intros a' y Hy. apply Hstep. right. exact Hy.
Qed.

Lemma fold_left_establish {A B : Type} (P : A -> Prop) (f : A -> B -> A) (l : list B) (x : B) :
  In x l ->
  (forall a, P (f a x)) ->
  (forall a y, P a -> P (f a y)) ->
  forall a, P (fold_left f l a).
Proof.
  induction l as [|y l IH]; intros Hin Hx Hkeep a; simpl.
  - destruct Hin.
  - destruct Hin as [-> | Hin].
    + apply fold_left_invariant; [apply Hx | intros; apply Hkeep; assumption].
    + apply IH; assumption.
Qed.

Lemma Forall_flat_map_intro {A B : Type} (P : B -> Prop) (f : A -> list B) (l : list A) :
  (forall x, In x l -> Forall P (f x)) -> Forall P (flat_map f l).
Proof.
  induction l as [|x l IH]; intros Hf; simpl.
  - constructor.
  - apply Forall_app. split.
    + apply Hf. left. reflexivity.
    + apply IH. intros y Hy. apply Hf. right. exact Hy.
Qed.

(** ** The events of the assembly of a state *)

Section LocalBlockCalls.

Context `{X : Collaborators}.

(** Every call logged by the loops is an evaluation of the form; in a
    symmetric block, at a row index not above the column index. *)
Lemma row_nonsym_calls (P : Event -> Prop) dp form surface_form site al_i al_j i acc :
  (forall j, P (EvMatrixValue (site_quad_order site) j i)) ->
  Forall P (snd acc) ->
  Forall P (snd (row_nonsym dp form surface_form site al_i al_j i acc)).
Proof.
  intros HP Hacc. unfold row_nonsym.
  apply (fold_left_invariant (fun a : LocalAcc => Forall P (snd a))); [exact Hacc|].
  intros a j _ Ha.
  destruct (0 <=? al_dof al_j j); [|exact Ha].
  destruct (negligible (al_coef al_j j)); [exact Ha|].
  simpl. apply Forall_app. split; [exact Ha|].
  constructor; [apply HP | constructor].
Qed.

Lemma row_sym_calls (P : Event -> Prop) dp form site al_i al_j i acc :
  (forall j, (i <= j)%nat -> P (EvMatrixValue (site_quad_order site) j i)) ->
  Forall P (snd acc) ->
  Forall P (snd (row_sym dp form site al_i al_j i acc)).
Proof.
  intros HP Hacc. unfold row_sym.
  apply (fold_left_invariant (fun a : LocalAcc => Forall P (snd a))); [exact Hacc|].
  intros a j _ Ha.
  destruct (Nat.ltb_spec j i) as [Hlt | Hge]; simpl.
  - destruct (0 <=? al_dof al_j j); exact Ha.
  - destruct (0 <=? al_dof al_j j); [|exact Ha].
    destruct (negligible (al_coef al_j j)); [exact Ha|].
    simpl. apply Forall_app. split; [exact Ha|].
    constructor; [apply HP; exact Hge | constructor].
Qed.

Lemma local_stiffness_loop_calls (P : Event -> Prop)
    dp form surface_form tra sym site al_i al_j acc :
  (forall i j, (sym = true -> (i <= j)%nat) ->
               P (EvMatrixValue (site_quad_order site) j i)) ->
  Forall P (snd acc) ->
  Forall P (snd (local_stiffness_loop dp form surface_form tra sym site al_i al_j acc)).
Proof.
  intros HP Hacc. unfold local_stiffness_loop.
  apply (fold_left_invariant (fun a : LocalAcc => Forall P (snd a))); [exact Hacc|].
  intros a i _ Ha.
  destruct (al_dof al_i i <? 0); [exact Ha|].
  destruct ((negb tra || surface_form) && false)%bool; [exact Ha|].
  destruct (negligible (al_coef al_i i)); [exact Ha|].
  destruct sym; simpl.
  - apply row_sym_calls; [|exact Ha]. intros j Hj. apply HP. intros _. exact Hj.
  - apply row_nonsym_calls; [|exact Ha]. intros j. apply HP. discriminate.
Qed.

Lemma local_block_calls (P : Event -> Prop) dp form order refmaps als st :
  (forall q i j,
      (mf_i form = mf_j form -> mf_sym form = HERMES_SYM -> (i <= j)%nat) ->
      P (EvMatrixValue q j i)) ->
  Forall P (snd (local_block dp form order refmaps als st)).
Proof.
  intros HP. unfold local_block.
  apply local_stiffness_loop_calls; [|constructor].
  intros i j Hsym. apply HP. intros Hij Hs. apply Hsym.
  rewrite Hij, Nat.eqb_refl, Hs. reflexivity.
Qed.

End LocalBlockCalls.

(** Every event of the work on a state is an evaluation of a form, an
    accumulation into the matrix or the right-hand side or, outside the
    finite-volume mode, a call of an order estimator.  The lemmas take a
    property [P] that holds of these events. *)
Section AssemblyEvents.

Context `{X : Collaborators}.

Variable P : Event -> Prop.

Hypothesis P_matrix_value : forall q j i, P (EvMatrixValue q j i).
Hypothesis P_vector_value : forall q i, P (EvVectorValue q i).
Hypothesis P_mat_add :
  forall m n M rows cols,
    List.length rows = m -> List.length cols = n -> P (MatAdd m n M rows cols).
Hypothesis P_rhs_add : forall row val, 0 <= row -> P (RhsAdd row val).

Lemma assemble_matrix_form_events dp form order refmaps als st :
  Forall P (assemble_matrix_form dp form order refmaps als st).
Proof.
  unfold assemble_matrix_form.
  pose proof (local_block_calls P dp form order refmaps als st) as Hc.
  destruct (local_block dp form order refmaps als st) as [M calls].
  apply Forall_app. split; [apply Hc; intros; apply P_matrix_value|].
  apply Forall_app. split;
    [constructor; [apply P_mat_add; apply length_map | constructor]|].
  destruct (_ && _)%bool;
    [constructor; [apply P_mat_add; apply length_map | constructor] | constructor].
Qed.

Lemma assemble_vector_form_events form order refmaps als st :
  Forall P (assemble_vector_form form order refmaps als st).
Proof.
  unfold assemble_vector_form.
  apply Forall_flat_map_intro. intros i _.
  destruct (al_dof _ i <? 0) eqn:Hdof; [constructor|].
  destruct (negligible _); [constructor|].
  constructor; [apply P_vector_value|].
  constructor; [apply P_rhs_add; apply Z.ltb_ge; exact Hdof | constructor].
Qed.

Lemma calc_order_matrix_form_events dp spaces form refmaps u_ext st :
  ord_calls_covered P dp ->
  Forall P (snd (calc_order_matrix_form dp spaces form refmaps u_ext st)).
Proof.
  intros Hord. unfold calc_order_matrix_form.
  destruct (is_fvm dp) eqn:Hfvm; [constructor|].
  destruct Hord as [Hf | [Hm _]]; [congruence|].
  destruct (init_ext_orders _ _ _ _ _). simpl.
  constructor; [apply Hm | constructor].
Qed.

Lemma calc_order_vector_form_events dp spaces form refmaps u_ext st :
  ord_calls_covered P dp ->
  Forall P (snd (calc_order_vector_form dp spaces form refmaps u_ext st)).
Proof.
  intros Hord. unfold calc_order_vector_form.
  destruct (is_fvm dp) eqn:Hfvm; [constructor|].
  destruct Hord as [Hf | [_ Hv]]; [congruence|].
  destruct (init_ext_orders _ _ _ _ _). simpl.
  constructor; [apply Hv | constructor].
Qed.

Lemma mfvol_step_events dp spaces ctx st form :
  ord_calls_covered P dp -> Forall P (mfvol_step dp spaces ctx st form).
Proof.
  intros Hord. unfold mfvol_step.
  destruct (negb _); [constructor|].
  pose proof (calc_order_matrix_form_events dp spaces form (current_refmaps ctx)
                (current_u_ext ctx) st Hord) as Hc.
  destruct (calc_order_matrix_form _ _ _ _ _ _) as [order ord_calls].
  apply Forall_app. split; [exact Hc | apply assemble_matrix_form_events].
Qed.

Lemma mfsurf_step_events dp spaces ctx st form :
  ord_calls_covered P dp -> Forall P (mfsurf_step dp spaces ctx st form).
Proof.
  intros Hord. unfold mfsurf_step.
  destruct (negb _); [constructor|].
  pose proof (calc_order_matrix_form_events dp spaces form (current_refmaps ctx)
                (current_u_ext ctx) st Hord) as Hc.
  destruct (calc_order_matrix_form _ _ _ _ _ _) as [order ord_calls].
  apply Forall_app. split; [exact Hc | apply assemble_matrix_form_events].
Qed.

Lemma vfvol_step_events dp spaces ctx st form :
  ord_calls_covered P dp -> Forall P (vfvol_step dp spaces ctx st form).
Proof.
  intros Hord. unfold vfvol_step.
  destruct (negb _); [constructor|].
  pose proof (calc_order_vector_form_events dp spaces form (current_refmaps ctx)
                (current_u_ext ctx) st Hord) as Hc.
  destruct (calc_order_vector_form _ _ _ _ _ _) as [order ord_calls].
  apply Forall_app. split; [exact Hc | apply assemble_vector_form_events].
Qed.

Lemma vfsurf_step_events dp spaces ctx st form :
  ord_calls_covered P dp -> Forall P (vfsurf_step dp spaces ctx st form).
Proof.
  intros Hord. unfold vfsurf_step.
  destruct (negb _); [constructor|].
  pose proof (calc_order_vector_form_events dp spaces form (current_refmaps ctx)
                (current_u_ext ctx) st Hord) as Hc.
  destruct (calc_order_vector_form _ _ _ _ _ _) as [order ord_calls].
  apply Forall_app. split; [exact Hc | apply assemble_vector_form_events].
Qed.

Lemma assemble_one_state_events dp spaces ctx st :
  ord_calls_covered P dp ->
  Forall P (fst (assemble_one_state dp spaces ctx st)).
Proof.
  intros Hord. unfold assemble_one_state.
  apply (fold_left_invariant (fun acc : list Event * ThreadCtx => Forall P (fst acc))).
  - simpl. apply Forall_app. split.
    + destruct (current_mat dp); [|constructor].
      apply Forall_flat_map_intro. intros form _. apply mfvol_step_events. exact Hord.
    + destruct (current_rhs dp); [|constructor].
      apply Forall_flat_map_intro. intros form _. apply vfvol_step_events. exact Hord.
  - intros acc k _ Hacc.
    destruct (negb (bnd _ k)); [exact Hacc|]. simpl.
    apply Forall_app. split; [exact Hacc|].
    apply Forall_app. split.
    + destruct (current_mat dp); [|constructor].
      apply Forall_flat_map_intro. intros form _. apply mfsurf_step_events. exact Hord.
    + destruct (current_rhs dp); [|constructor].
      apply Forall_flat_map_intro. intros form _. apply vfsurf_step_events. exact Hord.
Qed.

Lemma DG_local_stiffness_loop_calls (Q : Event -> Prop) dp mfs site eu ev acc :
  (forall i j, Q (EvMatrixValue (site_quad_order site) j i)) ->
  Forall Q (snd acc) ->
  Forall Q (snd (DG_local_stiffness_loop dp mfs site eu ev acc)).
Proof.
  intros HQ Hacc. unfold DG_local_stiffness_loop.
  apply (fold_left_invariant (fun a : LocalAcc => Forall Q (snd a))); [exact Hacc|].
  intros a i _ Ha.
  destruct (ext_dof ev i <? 0); [exact Ha|].
  apply (fold_left_invariant (fun a : LocalAcc => Forall Q (snd a))); [exact Ha|].
  intros b j _ Hb.
  destruct (0 <=? ext_dof eu j); [|exact Hb].
  simpl. apply Forall_app. split; [exact Hb|].
  constructor; [apply HQ | constructor].
Qed.

Lemma ext_dofs_length es : List.length (ext_dofs es) = ext_cnt es.
Proof.
  unfold ext_dofs, ext_cnt, al_dofs, cnt. rewrite length_app, !length_map. reflexivity.
Qed.

Lemma DG_mfsurf_step_blocks (Q : Event -> Prop) dp spaces ctx st neighbor_i nss acc mfs :
  (forall i j, Q (EvMatrixValue
                    (get_edge_points (isurf st) (fst acc) (get_mode (rep st))) j i)) ->
  (forall m n M rows cols,
      List.length rows = m -> List.length cols = n -> Q (MatAdd m n M rows cols)) ->
  Forall Q (snd acc) ->
  Forall Q (snd (DG_mfsurf_step dp spaces ctx st neighbor_i nss acc mfs)).
Proof.
  intros HQv HQa Hacc. unfold DG_mfsurf_step.
  destruct (negb (form_to_be_assembled_MatrixForm dp mfs st)); [exact Hacc|].
  destruct (negb (Area_eqb _ _)); [exact Hacc|].
  match goal with
  | |- context [DG_local_stiffness_loop ?a ?b ?c ?d ?e ?f] =>
      pose proof (DG_local_stiffness_loop_calls Q a b c d e f) as Hc;
      destruct (DG_local_stiffness_loop a b c d e f) as [M calls]
  end.
  simpl in *. apply Forall_app. split; [exact Hacc|].
  apply Forall_app. split; [apply Hc; [exact HQv | constructor]|].
  constructor; [apply HQa; apply ext_dofs_length | constructor].
Qed.

Lemma DG_mfsurf_step_events (Q : Event -> Prop) dp spaces ctx st neighbor_i nss acc mfs :
  (forall i j, Q (EvMatrixValue
                    (get_edge_points (isurf st) (fst acc) (get_mode (rep st))) j i)) ->
  (forall m n M rows cols, Q (MatAdd m n M rows cols)) ->
  Forall Q (snd acc) ->
  Forall Q (snd (DG_mfsurf_step dp spaces ctx st neighbor_i nss acc mfs)).
Proof.
  intros HQv HQa Hacc.
  apply DG_mfsurf_step_blocks; [exact HQv | intros; apply HQa | exact Hacc].
Qed.

Lemma DG_vfsurf_step_events dp ctx st neighbor_i acc vfs :
  Forall P (snd acc) ->
  Forall P (snd (DG_vfsurf_step dp ctx st neighbor_i acc vfs)).
Proof.
  intros Hacc. unfold DG_vfsurf_step.
  destruct (negb (Area_eqb _ _)); [exact Hacc|].
  destruct (negb (form_to_be_assembled_VectorForm vfs st)); [exact Hacc|].
  apply (fold_left_invariant (fun a : Z * list Event => Forall P (snd a))); [exact Hacc|].
  intros a k _ Ha.
  destruct (al_dof _ k <? 0) eqn:Hdof; [exact Ha|].
  simpl. apply Forall_app. split; [exact Ha|].
  constructor; [apply P_vector_value|].
  constructor; [apply P_rhs_add; apply Z.ltb_ge; exact Hdof | constructor].
Qed.

Lemma assemble_DG_one_neighbor_events dp spaces ctx st processed neighbor_i nss :
  Forall P (assemble_DG_one_neighbor dp spaces ctx st processed neighbor_i nss).
Proof.
  unfold assemble_DG_one_neighbor.
  apply Forall_app. split.
  - destruct (_ && _)%bool; [|constructor].
    apply (fold_left_invariant (fun a : Z * list Event => Forall P (snd a))); [constructor|].
    intros a mfs _ Ha.
    apply DG_mfsurf_step_blocks;
      [intros; apply P_matrix_value | intros; apply P_mat_add; assumption | exact Ha].
  - destruct (_ && _)%bool; [|constructor].
    apply (fold_left_invariant (fun a : Z * list Event => Forall P (snd a))); [constructor|].
    intros a vfs _ Ha. apply DG_vfsurf_step_events. exact Ha.
Qed.

Lemma DG_segments_loop_events dp spaces ctx st nss segments :
  Forall P (fst (DG_segments_loop dp spaces ctx st nss segments)).
Proof.
  induction segments as [|k rest IH]; simpl.
  - constructor.
  - destruct (segment_processed nss k) as [ex | processed]; [constructor|].
    destruct (negb (DG_vector_forms_present dp) && processed)%bool; [exact IH|].
    destruct (DG_segments_loop dp spaces ctx st nss rest) as [evs' ex].
    simpl in *. apply Forall_app. split; [|exact IH].
    apply assemble_DG_one_neighbor_events.
Qed.

Lemma assemble_DG_edge_events dp spaces ctx st :
  Forall P (fst (assemble_DG_edge dp spaces ctx st)).
Proof.
  unfold assemble_DG_edge.
  destruct (build_multimesh_tree _ _) as [ex | root]; [constructor|].
  destruct (update_and_check _ _ _) as [ex | [n nss]]; [constructor|].
  apply DG_segments_loop_events.
Qed.

Lemma DG_edges_loop_events dp spaces ctx st edges :
  Forall P (fst (DG_edges_loop dp spaces ctx st edges)).
Proof.
  induction edges as [|k rest IH]; simpl.
  - constructor.
  - destruct (negb _); [exact IH|].
    pose proof (assemble_DG_edge_events dp spaces ctx (set_isurf st (Z.of_nat k))) as He.
    destruct (assemble_DG_edge dp spaces ctx (set_isurf st (Z.of_nat k))) as [evs [ex|]];
      [exact He|].
    destruct (DG_edges_loop dp spaces ctx st rest) as [evs' ex].
    simpl in *. apply Forall_app. split; assumption.
Qed.

Lemma state_work_events dp spaces ctx st :
  ord_calls_covered P dp ->
  Forall P (fst (fst (state_work dp spaces ctx st))).
Proof.
  intros Hord. unfold state_work.
  pose proof (assemble_one_state_events dp spaces ctx st Hord) as Hs.
  destruct (assemble_one_state dp spaces ctx st) as [evs ctx'].
  destruct (_ || _)%bool; [|exact Hs].
  pose proof (fun d => DG_edges_loop_events d spaces ctx' st
                         (seq 0 (get_num_surf (rep st)))) as Hd.
  unfold assemble_one_DG_state.
  destruct (negb _).
  - simpl. rewrite app_nil_r. exact Hs.
  - specialize (Hd (set_min_dg_mesh_seq dp (min_mesh_seq spaces))).
    destruct (DG_edges_loop _ spaces ctx' st _) as [dg ex].
    simpl in *. apply Forall_app. split; assumption.
Qed.


End AssemblyEvents.

(** ** Skipped forms *)

Section SkippedForms.

Context `{X : Collaborators}.

Lemma skipped_MatrixForm dp form st :
  matrix_form_skipped dp form st ->
  form_to_be_assembled_MatrixForm dp form st = false.
Proof.
  unfold matrix_form_skipped, form_to_be_assembled_MatrixForm.
  intros [Hi | [Hj | [Hs | [tbl [Ht Hw]]]]].
  - rewrite Hi. reflexivity.
  - rewrite Hj. simpl. rewrite orb_true_r. reflexivity.
  - rewrite Hs. destruct (_ || _)%bool; reflexivity.
  - rewrite Ht, Hw. destruct (_ || _)%bool; [reflexivity|].
    destruct (negligible (mf_scaling_factor form)); reflexivity.
Qed.

Lemma skipped_VectorForm form st :
  vector_form_skipped form st ->
  form_to_be_assembled_VectorForm form st = false.
Proof.
  unfold vector_form_skipped, form_to_be_assembled_VectorForm.
  intros [Hi | Hs].
  - rewrite Hi. reflexivity.
  - rewrite Hs. destruct (is_null _); reflexivity.
Qed.

(** C6: on every traversal state a matrix or vector form contributes no
    event at all (no evaluation, no accumulation into the matrix or the
    right-hand side), on the volume path, the boundary-surface path and the
    DG path alike, as soon as an endpoint field has no element in the state,
    or its scaling factor is below 1e-12 in absolute value, or (matrix
    forms) the block weight of a supplied table is; a scaling factor of
    1e-13 is such a factor. *)
Theorem skipped_form_contributes_nothing
    (dp : DiscreteProblem) (spaces : list Space) (ctx : ThreadCtx) (st : State)
    (neighbor_i : nat) (neighbor_searches : list (option NeighborSearch)) :
  (forall (form : MatrixForm) (acc : Z * list Event),
      matrix_form_skipped dp form st ->
      mfvol_step dp spaces ctx st form = []
      /\ mfsurf_step dp spaces ctx st form = []
      /\ DG_mfsurf_step dp spaces ctx st neighbor_i neighbor_searches acc form = acc)
  /\ (forall (form : VectorForm) (acc : Z * list Event),
      vector_form_skipped form st ->
      vfvol_step dp spaces ctx st form = []
      /\ vfsurf_step dp spaces ctx st form = []
      /\ DG_vfsurf_step dp ctx st neighbor_i acc form = acc)
  /\ (forall form : MatrixForm,
      mf_scaling_factor form = 1e-13%float -> matrix_form_skipped dp form st)
  /\ (forall form : VectorForm,
      vf_scaling_factor form = 1e-13%float -> vector_form_skipped form st).
Proof.
  split; [|split; [|split]].
  - intros form acc Hs. apply skipped_MatrixForm in Hs. repeat split.
    + unfold mfvol_step, form_to_be_assembled_MatrixFormVol.
      rewrite Hs. reflexivity.
    + unfold mfsurf_step, form_to_be_assembled_MatrixFormSurf.
      rewrite Hs.
      destruct (active_edge_marker st =? 0); [reflexivity|].
      destruct (Area_eqb _ _); reflexivity.
    + unfold DG_mfsurf_step. rewrite Hs. reflexivity.
  - intros form acc Hs. apply skipped_VectorForm in Hs. repeat split.
    + unfold vfvol_step, form_to_be_assembled_VectorFormVol.
      rewrite Hs. reflexivity.
    + unfold vfsurf_step, form_to_be_assembled_VectorFormSurf.
      rewrite Hs.
      destruct (active_edge_marker st =? 0); [reflexivity|].
      destruct (Area_eqb _ _); reflexivity.
    + unfold DG_vfsurf_step. rewrite Hs.
      destruct (negb _); reflexivity.
  - intros form Hs. right. right. left. rewrite Hs. reflexivity.
  - intros form Hs. right. rewrite Hs. reflexivity.
Qed.

End SkippedForms.

(** The theorem at work: on the example state, a volume matrix form and a
    DG vector form with scaling factor 1e-13, and a matrix form coupling an
    absent field. *)
Lemma skipped_form_contributes_nothing_witness :
  mfvol_step (X := ex_X) (ex_dp (ex_wf 1 [] [] [] [])) [ex_space 1] (ex_ctx 1) ex_state
    (ex_mform Vol 0 0 HERMES_NONSYM 1e-13%float [HERMES_ANY]) = []
  /\ DG_vfsurf_step (X := ex_X) (ex_dp (ex_wf 1 [] [] [] [])) (ex_ctx 1) ex_state 0 (20, [])
       (ex_vform Surf 0 1e-13%float [H2D_DG_INNER_EDGE]) = (20, [])
  /\ mfsurf_step (X := ex_X) (ex_dp (ex_wf 2 [] [] [] [])) [ex_space 1; ex_space 1] (ex_ctx 2)
       ex_state_absent (ex_mform Surf 0 1 HERMES_NONSYM 1%float [HERMES_ANY]) = [].
Proof.
  split; [|split].
  - destruct (skipped_form_contributes_nothing (X := ex_X)
                (ex_dp (ex_wf 1 [] [] [] [])) [ex_space 1] (ex_ctx 1) ex_state 0%nat [])
      as [Hm [_ [H13 _]]].
    destruct (Hm (ex_mform Vol 0 0 HERMES_NONSYM 1e-13%float [HERMES_ANY]) (20, []))
      as [Hvol _]; [apply H13; reflexivity | exact Hvol].
  - destruct (skipped_form_contributes_nothing (X := ex_X)
                (ex_dp (ex_wf 1 [] [] [] [])) [ex_space 1] (ex_ctx 1) ex_state 0%nat [])
      as [_ [Hv [_ H13]]].
    destruct (Hv (ex_vform Surf 0 1e-13%float [H2D_DG_INNER_EDGE]) (20, []))
      as [_ [_ Hdg]]; [apply H13; reflexivity | exact Hdg].
  - destruct (skipped_form_contributes_nothing (X := ex_X)
                (ex_dp (ex_wf 2 [] [] [] [])) [ex_space 1; ex_space 1] (ex_ctx 2)
                ex_state_absent 0%nat [])
      as [Hm _].
    destruct (Hm (ex_mform Surf 0 1 HERMES_NONSYM 1%float [HERMES_ANY]) (20, []))
      as [_ [Hsurf _]]; [right; left; reflexivity | exact Hsurf].
Defined.

(** ** Inconsistent configurations *)

Section Configuration.

Context `{X : Collaborators}.

(** C8: a discrete problem cannot be constructed on a number of spaces that
    differs from the number of equations of the weak form: both constructors
    end in a fatal error; and [assemble] called with a block-weight table
    whose size differs from the number of equations throws
    [LengthException(6, size, neq)] before the sparse structure is created:
    no event has reached the matrix or the right-hand side and the spaces
    and the vector are as they were. *)
Theorem inconsistent_configuration_is_fatal
    (w : WeakForm) (spaces : list Space) (space : Space)
    (work : StateWork) (dp : DiscreteProblem) (world : World)
    (coeff_vec : option (list MeshFunction)) (mat rhs force_diagonal_blocks : bool)
    (block_weights : Table) :
  (List.length spaces <> get_neq w ->
     DiscreteProblem_of_spaces (Some w) spaces
     = inl (match spaces with
            | [] => NullException 2
            | _ => FatalError "Bad number of spaces in DiscreteProblem."
            end))
  /\ (1%nat <> get_neq w ->
      DiscreteProblem_of_space (Some w) space
      = inl (FatalError "Bad number of spaces in DiscreteProblem."))
  /\ (get_size block_weights <> get_neq (wf dp) ->
      assemble_with work dp world coeff_vec mat rhs force_diagonal_blocks (Some block_weights)
      = (set_current dp mat rhs force_diagonal_blocks (Some block_weights), world, [],
         Some (LengthException 6 (Z.of_nat (get_size block_weights))
                                 (Z.of_nat (get_neq (wf dp)))))).
Proof.
  split; [|split].
  - intros Hlen. unfold DiscreteProblem_of_spaces, init.
    destruct spaces as [|sp rest]; [reflexivity|].
    apply Nat.eqb_neq in Hlen. rewrite Hlen. reflexivity.
  - intros Hlen. unfold DiscreteProblem_of_space, init.
    apply Nat.eqb_neq in Hlen. simpl List.length. rewrite Hlen. reflexivity.
  - intros Hsize. unfold assemble_with, bad_table.
    apply Nat.eqb_neq in Hsize. simpl. rewrite Hsize. reflexivity.
Qed.

End Configuration.

(** The theorem at work: two spaces, or one, for a weak form of three
    equations, and a table of size 1 for a problem of 2 equations. *)
Lemma inconsistent_configuration_is_fatal_witness :
  DiscreteProblem_of_spaces (Some (ex_wf 3 [] [] [] [])) [ex_space 1; ex_space 1]
  = inl (FatalError "Bad number of spaces in DiscreteProblem.")
  /\ DiscreteProblem_of_space (Some (ex_wf 3 [] [] [] [])) (ex_space 1)
     = inl (FatalError "Bad number of spaces in DiscreteProblem.")
  /\ snd (assemble (X := ex_X) (ex_dp (ex_wf 2 [] [] [] [])) (ex_world 2) None true true false
            (Some {| get_size := 1; get_A := fun _ _ => 1%float |}))
     = Some (LengthException 6 1 2)
  /\ snd (fst (assemble (X := ex_X) (ex_dp (ex_wf 2 [] [] [] [])) (ex_world 2) None true true false
                 (Some {| get_size := 1; get_A := fun _ _ => 1%float |})))
     = [].
Proof.
  pose proof (inconsistent_configuration_is_fatal (X := ex_X)
                (ex_wf 3 [] [] [] []) [ex_space 1; ex_space 1] (ex_space 1)
                (state_work (X := ex_X)) (ex_dp (ex_wf 2 [] [] [] [])) (ex_world 2) None true true false
                {| get_size := 1; get_A := fun _ _ => 1%float |}) as [Hs [Hone Hasm]].
  split; [|split; [|split]].
  - apply Hs. simpl. discriminate.
  - apply Hone. simpl. discriminate.
  - unfold assemble. rewrite Hasm; [reflexivity | simpl; discriminate].
  - unfold assemble. rewrite Hasm; [reflexivity | simpl; discriminate].
Defined.

(** ** The sparse structure *)

Section SparseStructure.

Context `{X : Collaborators}.

Lemma pre_add_block_events (P : Event -> bool) am an fwd bwd :
  (forall r c, P (MatPreAdd r c) = true) ->
  Forall (fun ev => P ev = true) (pre_add_block am an fwd bwd).
Proof.
  intros HP. unfold pre_add_block.
  repeat first
    [ apply Forall_nil
    | apply Forall_cons; [apply HP|]
    | apply Forall_app; split
    | apply Forall_flat_map_intro; intros
    | match goal with |- Forall _ (if ?b then _ else _) => destruct b end ].
Qed.

Lemma pre_add_state_events (P : Event -> bool) dp spaces meshes is_DG al st :
  (forall r c, P (MatPreAdd r c) = true) ->
  Forall (fun ev => P ev = true) (snd (pre_add_state dp spaces meshes is_DG al st)).
Proof.
  intros HP. unfold pre_add_state. simpl.
  repeat first
    [ apply Forall_nil
    | apply pre_add_block_events; exact HP
    | apply Forall_app; split
    | apply Forall_flat_map_intro; intros
    | match goal with |- Forall _ (if ?b then _ else _) => destruct b end ].
Qed.

Lemma pre_adds_events (P : Event -> bool) dp spaces meshes is_DG states :
  (forall r c, P (MatPreAdd r c) = true) ->
  Forall (fun ev => P ev = true) (pre_adds dp spaces meshes is_DG states).
Proof.
  intros HP. unfold pre_adds.
  apply (fold_left_invariant (fun acc : list AsmList * list Event =>
                                Forall (fun ev => P ev = true) (snd acc))).
  - constructor.
  - intros a st _ Ha.
    pose proof (pre_add_state_events P dp spaces meshes is_DG (fst a) st HP) as Hst.
    destruct (pre_add_state dp spaces meshes is_DG (fst a) st) as [al evs].
    simpl in *. apply Forall_app. split; assumption.
Qed.

Lemma rebuild_matrix_noDG dp spaces :
  has_DG_forms (wf dp) = false ->
  exists evs,
    rebuild_matrix dp spaces = (spaces_first_dofs dp, spaces, evs)
    /\ Forall (fun ev => negb (is_AssignDofs ev) = true) evs.
Proof.
  intros HDG. unfold rebuild_matrix. rewrite HDG. eexists. split; [reflexivity|].
  repeat first
    [ apply Forall_nil
    | apply Forall_cons; [reflexivity|]
    | apply Forall_app; split
    | apply pre_adds_events; reflexivity ].
Qed.

Lemma rebuild_matrix_DG dp spaces :
  has_DG_forms (wf dp) = true ->
  exists evs,
    rebuild_matrix dp spaces
    = (zero_first_dofs (List.length spaces) (spaces_first_dofs dp), assign_dofs spaces, evs)
    /\ In AssignDofs evs.
Proof.
  intros HDG. unfold rebuild_matrix. rewrite HDG. eexists. split; [reflexivity|].
  right. right. left. reflexivity.
Qed.

Lemma zero_first_dofs_all n l :
  List.length l = n -> zero_first_dofs n l = repeat 0 n.
Proof.
  intros Hlen. unfold zero_first_dofs. subst n.
  rewrite firstn_all, skipn_all, app_nil_r.
  induction l as [|x l IH]; simpl; [reflexivity | rewrite IH; reflexivity].
Qed.

(** C10: when the weak form has a DG inner-edge surface form, a rebuild of
    the sparse structure with a matrix present sets the first-DOF offset of
    every space to 0 and replaces the spaces by what [Space::assign_dofs]
    makes of them; when it has none, [create_sparse_structure] leaves the
    offsets and the spaces as they are. *)
Theorem DG_rebuild_renumbers_spaces
    (dp dp' : DiscreteProblem) (w w' : World) (evs : list Event) :
  create_sparse_structure dp w = (dp', w', evs) ->
  (has_DG_forms (wf dp) = true ->
   is_up_to_date dp (w_spaces w) = false ->
   current_mat dp = true ->
   List.length (spaces_first_dofs dp) = List.length (w_spaces w) ->
     spaces_first_dofs dp' = repeat 0 (List.length (w_spaces w))
     /\ w_spaces w' = assign_dofs (w_spaces w)
     /\ In AssignDofs evs)
  /\ (has_DG_forms (wf dp) = false ->
      spaces_first_dofs dp' = spaces_first_dofs dp
      /\ w_spaces w' = w_spaces w
      /\ ~ In AssignDofs evs).
Proof.
  intros Hrun. unfold create_sparse_structure in Hrun. split.
  - intros HDG Hup Hmat Hlen. rewrite Hup, Hmat in Hrun.
    destruct (rebuild_matrix_DG dp (w_spaces w) HDG) as [mevs [Hre Hin]].
    rewrite Hre in Hrun.
    destruct (current_rhs dp); inversion Hrun; subst; clear Hrun; simpl.
    all: repeat split;
      [ apply zero_first_dofs_all; exact Hlen
      | apply in_or_app; left; exact Hin ].
  - intros HDG.
    destruct (rebuild_matrix_noDG dp (w_spaces w) HDG) as [mevs [Hre Hno]].
    rewrite Hre in Hrun.
    assert (Hall : Forall (fun ev => negb (is_AssignDofs ev) = true) evs
                   /\ spaces_first_dofs dp' = spaces_first_dofs dp
                   /\ w_spaces w' = w_spaces w).
    { destruct (is_up_to_date dp (w_spaces w)), (current_mat dp), (current_rhs dp);
        try destruct (vec_length (w_rhs w) =? 0);
        inversion Hrun; subst; clear Hrun; simpl; repeat split; try reflexivity;
        repeat first
          [ apply Forall_nil
          | apply Forall_cons; [reflexivity|]
          | apply Forall_app; split
          | exact Hno ]. }
    destruct Hall as [Hall [Hd Hs]]. repeat split; try assumption.
    intros Hin. rewrite Forall_forall in Hall. specialize (Hall _ Hin). discriminate.
Qed.

End SparseStructure.

(** The theorem at work: two fields coupled by a DG inner-edge matrix form
    (the offsets 0 and 2 become 0 and 0, the spaces are renumbered), and the
    same two fields under a boundary form only. *)
Lemma DG_rebuild_renumbers_spaces_witness :
  (spaces_first_dofs (fst (fst (create_sparse_structure (X := ex_X) ex_dp_DG (ex_world 2))))
   = repeat 0 2
   /\ w_spaces (snd (fst (create_sparse_structure (X := ex_X) ex_dp_DG (ex_world 2))))
      = @assign_dofs ex_X (w_spaces (ex_world 2))
   /\ In AssignDofs (snd (create_sparse_structure (X := ex_X) ex_dp_DG (ex_world 2))))
  /\ (spaces_first_dofs (fst (fst (create_sparse_structure (X := ex_X) ex_dp_bdy (ex_world 2))))
      = [0; 2]
      /\ w_spaces (snd (fst (create_sparse_structure (X := ex_X) ex_dp_bdy (ex_world 2))))
         = w_spaces (ex_world 2)
      /\ ~ In AssignDofs (snd (create_sparse_structure (X := ex_X) ex_dp_bdy (ex_world 2)))).
Proof.
  split.
  - apply (proj1 (DG_rebuild_renumbers_spaces (X := ex_X) ex_dp_DG
                    (fst (fst (create_sparse_structure (X := ex_X) ex_dp_DG (ex_world 2))))
                    (ex_world 2)
                    (snd (fst (create_sparse_structure (X := ex_X) ex_dp_DG (ex_world 2))))
                    (snd (create_sparse_structure (X := ex_X) ex_dp_DG (ex_world 2)))
                    eq_refl));
      reflexivity.
  - apply (proj2 (DG_rebuild_renumbers_spaces (X := ex_X) ex_dp_bdy
                    (fst (fst (create_sparse_structure (X := ex_X) ex_dp_bdy (ex_world 2))))
                    (ex_world 2)
                    (snd (fst (create_sparse_structure (X := ex_X) ex_dp_bdy (ex_world 2))))
                    (snd (create_sparse_structure (X := ex_X) ex_dp_bdy (ex_world 2)))
                    eq_refl));
      reflexivity.
Defined.

(** ** The structure cache *)

Section StructureCache.

Context `{X : Collaborators}.

Lemma seq_loop_same spaces sp idxs b :
  (forall i, In i idxs -> get_seq (space_at spaces i) = nth i sp (-1)) ->
  seq_loop spaces sp idxs b = b.
Proof.
  induction idxs as [|i idxs IH]; intros Hall; simpl.
  - reflexivity.
  - rewrite (Hall i) by (left; reflexivity). rewrite Z.eqb_refl. simpl.
    apply IH. intros k Hk. apply Hall. right. exact Hk.
Qed.


Lemma nth_current_seqs dp spaces i :
  (i < get_neq (wf dp))%nat ->
  nth i (current_seqs dp spaces) (-1) = get_seq (space_at spaces i).
Proof.
  intros Hi. unfold current_seqs.
  rewrite (nth_indep _ (-1) (get_seq (space_at spaces 0%nat)))
    by (rewrite length_map, length_seq; exact Hi).
  rewrite (map_nth (fun k => get_seq (space_at spaces k))).
  rewrite seq_nth by exact Hi. reflexivity.
Qed.

Lemma is_up_to_date_true dp spaces :
  have_matrix dp = true ->
  (forall i, (i < get_neq (wf dp))%nat ->
             get_seq (space_at spaces i) = nth i (sp_seq dp) (-1)) ->
  wf_get_seq (wf dp) = wf_seq dp ->
  is_up_to_date dp spaces = true.
Proof.
  intros Hm Hs Hw. unfold is_up_to_date.
  rewrite Hm, Hw, Z.eqb_refl. simpl.
  apply seq_loop_same. intros i Hi. apply Hs. apply in_seq in Hi. lia.
Qed.


Lemma create_sparse_structure_caches dp w dp' w' evs :
  create_sparse_structure dp w = (dp', w', evs) ->
  current_mat dp = true ->
  is_up_to_date dp' (w_spaces w') = true.
Proof.
  unfold create_sparse_structure. intros Hrun Hmat. rewrite Hmat in Hrun.
  destruct (is_up_to_date dp (w_spaces w)) eqn:Hup.
  - destruct (current_rhs dp); [destruct (vec_length (w_rhs w) =? 0)|];
      inversion Hrun; subst; exact Hup.
  - destruct (rebuild_matrix dp (w_spaces w)) as [[fd sps] mevs].
    destruct (current_rhs dp); inversion Hrun; subst; clear Hrun;
      (apply is_up_to_date_true; simpl;
       [ reflexivity
       | intros i Hi; symmetry; apply (nth_current_seqs dp); exact Hi
       | reflexivity ]).
Qed.


Lemma rebuild_matrix_shape dp spaces :
  exists fd sps mid,
    rebuild_matrix dp spaces
    = (fd, sps, MatFree :: MatPrealloc (ndof dp) :: mid ++ [MatAlloc]).
Proof.
  unfold rebuild_matrix.
  exists (if has_DG_forms (wf dp)
          then zero_first_dofs (List.length spaces) (spaces_first_dofs dp)
          else spaces_first_dofs dp).
  exists (if has_DG_forms (wf dp) then assign_dofs spaces else spaces).
  eexists (_ ++ _).
  simpl. rewrite <- app_assoc. reflexivity.
Qed.

Lemma create_sparse_structure_rebuilds dp w :
  is_up_to_date dp (w_spaces w) = false ->
  current_mat dp = true ->
  exists dp' w' mid rhs_events,
    create_sparse_structure dp w
    = (dp', w', MatFree :: MatPrealloc (ndof dp) :: mid ++ MatAlloc :: rhs_events)
    /\ have_matrix dp' = true
    /\ sp_seq dp' = current_seqs dp (w_spaces w')
    /\ wf_seq dp' = wf_get_seq (wf dp).
Proof.
  intros Hup Hmat. unfold create_sparse_structure. rewrite Hup, Hmat.
  destruct (rebuild_matrix_shape dp (w_spaces w)) as [fd [sps [mid Hre]]].
  rewrite Hre.
  destruct (current_rhs dp).
  - exists (set_structure_cache dp true fd (current_seqs dp sps) (wf_get_seq (wf dp))).
    exists {| w_spaces := sps; w_rhs := {| vec_length := ndof dp |} |}.
    exists mid, [RhsAlloc (ndof dp)].
    split; [|repeat split].
    simpl. rewrite <- app_assoc. reflexivity.
  - exists (set_structure_cache dp true fd (current_seqs dp sps) (wf_get_seq (wf dp))).
    exists {| w_spaces := sps; w_rhs := w_rhs w |}.
    exists mid, [].
    split; [|repeat split].
    simpl. rewrite <- app_assoc. reflexivity.
Qed.


End StructureCache.
(** ** Local blocks of matrix forms *)

Section MatrixForms.

Context `{X : Collaborators}.

(** ** Mirrored writes keep a block symmetric *)

Lemma mset_mirrored_keeps M i j v p q :
  sym_at p q M -> sym_at p q (mset (mset M j i v) i j v).
Proof.
  unfold sym_at, mset. intros Hs.
  destruct (Nat.eqb_spec p i), (Nat.eqb_spec q j), (Nat.eqb_spec q i), (Nat.eqb_spec p j);
    subst; simpl; congruence.
Qed.

Lemma mset_mirrored_makes M i j v :
  sym_at i j (mset (mset M j i v) i j v).
Proof.
  unfold sym_at, mset.
  destruct (Nat.eqb_spec i i), (Nat.eqb_spec j j), (Nat.eqb_spec j i), (Nat.eqb_spec i j);
    subst; simpl; congruence.
Qed.

Lemma row_sym_keeps dp form site al_i al_j i p q acc :
  sym_at p q (fst acc) ->
  sym_at p q (fst (row_sym dp form site al_i al_j i acc)).
Proof.
  intros Hacc. unfold row_sym.
  apply (fold_left_invariant (fun a : LocalAcc => sym_at p q (fst a))); [exact Hacc|].
  intros a j _ Ha.
  destruct (Nat.ltb j i && (0 <=? al_dof al_j j))%bool; [exact Ha|].
  destruct (0 <=? al_dof al_j j); [|exact Ha].
  destruct (negligible (al_coef al_j j)); [exact Ha|].
  simpl. apply mset_mirrored_keeps. exact Ha.
Qed.

Lemma row_sym_makes dp form site al_i al_j p q acc :
  (p <= q)%nat -> evaluated_dof al_j q ->
  sym_at p q (fst (row_sym dp form site al_i al_j p acc)).
Proof.
  intros Hpq [Hq [Hdof Hcoef]]. unfold row_sym.
  apply (fold_left_establish (fun a : LocalAcc => sym_at p q (fst a)) _ _ q).
  - apply in_seq. lia.
  - intros a.
    destruct (Nat.ltb_spec q p) as [Hlt | _]; [lia|]. simpl.
    apply Z.leb_le in Hdof. rewrite Hdof, Hcoef. simpl.
    apply mset_mirrored_makes.
  - intros a j Ha.
    destruct (Nat.ltb j p && (0 <=? al_dof al_j j))%bool; [exact Ha|].
    destruct (0 <=? al_dof al_j j); [|exact Ha].
    destruct (negligible (al_coef al_j j)); [exact Ha|].
    simpl. apply mset_mirrored_keeps. exact Ha.
Qed.

Lemma sym_loop_keeps dp form surface_form tra site al_i al_j p q acc :
  sym_at p q (fst acc) ->
  sym_at p q (fst (local_stiffness_loop dp form surface_form tra true site al_i al_j acc)).
Proof.
  intros Hacc. unfold local_stiffness_loop.
  apply (fold_left_invariant (fun a : LocalAcc => sym_at p q (fst a))); [exact Hacc|].
  intros a i _ Ha.
  destruct (al_dof al_i i <? 0); [exact Ha|].
  destruct ((negb tra || surface_form) && false)%bool; [exact Ha|].
  destruct (negligible (al_coef al_i i)); [exact Ha|].
  simpl. apply row_sym_keeps. exact Ha.
Qed.

Lemma sym_loop_makes dp form surface_form tra site al_i al_j p q acc :
  (p <= q)%nat -> evaluated_dof al_i p -> evaluated_dof al_j q ->
  sym_at p q (fst (local_stiffness_loop dp form surface_form tra true site al_i al_j acc)).
Proof.
  intros Hpq [Hp [Hdof Hcoef]] Hq. unfold local_stiffness_loop.
  apply (fold_left_establish (fun a : LocalAcc => sym_at p q (fst a)) _ _ p).
  - apply in_seq. lia.
  - intros a.
    assert (Hneg : (al_dof al_i p <? 0) = false) by (apply Z.ltb_ge; exact Hdof).
    rewrite Hneg, Hcoef, andb_false_r. simpl.
    apply row_sym_makes; assumption.
  - intros a i Ha.
    destruct (al_dof al_i i <? 0); [exact Ha|].
    destruct ((negb tra || surface_form) && false)%bool; [exact Ha|].
    destruct (negligible (al_coef al_i i)); [exact Ha|].
    simpl. apply row_sym_keeps. exact Ha.
Qed.

(** ** The value left in an entry *)

Lemma mset_same M i j v : mset M i j v i j = v.
Proof.
  unfold mset. rewrite !Nat.eqb_refl. reflexivity.
Qed.

Lemma mset_other M i j v r c : (r, c) <> (i, j) -> mset M i j v r c = M r c.
Proof.
  unfold mset. intros Hne.
  destruct (Nat.eqb_spec r i), (Nat.eqb_spec c j); subst; simpl; try reflexivity.
  exfalso. apply Hne. reflexivity.
Qed.

(** The entry of a block that is not exploited as symmetric: the value of
    the form times the factors of the source, with 0.5 in front for a
    surface form. *)
Lemma row_nonsym_entry dp form surface_form site al_i al_j p q acc :
  evaluated_dof al_j q ->
  fst (row_nonsym dp form surface_form site al_i al_j p acc) p q
  = if surface_form
    then (0.5 * block_scaling_coeff dp form * mf_value form site q p
          * mf_scaling_factor form * al_coef al_j q * al_coef al_i p)%float
    else (block_scaling_coeff dp form * mf_value form site q p
          * mf_scaling_factor form * al_coef al_j q * al_coef al_i p)%float.
Proof.
  intros [Hq [Hdof Hcoef]]. unfold row_nonsym.
  apply Z.leb_le in Hdof.
  apply (fold_left_establish
           (fun a : LocalAcc => fst a p q = if surface_form then _ else _) _ _ q).
  - apply in_seq. lia.
  - intros a. rewrite Hdof, Hcoef. simpl. apply mset_same.
  - intros a j Ha.
    destruct (Nat.eq_dec j q) as [-> | Hne].
    + rewrite Hdof, Hcoef. simpl. apply mset_same.
    + destruct (0 <=? al_dof al_j j); [|exact Ha].
      destruct (negligible (al_coef al_j j)); [exact Ha|].
      simpl. rewrite mset_other by congruence. exact Ha.
Qed.

Lemma row_nonsym_other_row dp form surface_form site al_i al_j i p q acc :
  i <> p ->
  fst (row_nonsym dp form surface_form site al_i al_j i acc) p q = fst acc p q.
Proof.
  intros Hne. unfold row_nonsym.
  apply (fold_left_invariant (fun a : LocalAcc => fst a p q = fst acc p q)); [reflexivity|].
  intros a j _ Ha.
  destruct (0 <=? al_dof al_j j); [|exact Ha].
  destruct (negligible (al_coef al_j j)); [exact Ha|].
  simpl. rewrite mset_other by congruence. exact Ha.
Qed.

Lemma nonsym_loop_entry dp form surface_form tra site al_i al_j p q acc :
  evaluated_dof al_i p -> evaluated_dof al_j q ->
  fst (local_stiffness_loop dp form surface_form tra false site al_i al_j acc) p q
  = if surface_form
    then (0.5 * block_scaling_coeff dp form * mf_value form site q p
          * mf_scaling_factor form * al_coef al_j q * al_coef al_i p)%float
    else (block_scaling_coeff dp form * mf_value form site q p
          * mf_scaling_factor form * al_coef al_j q * al_coef al_i p)%float.
Proof.
  intros [Hp [Hdof Hcoef]] Hq. unfold local_stiffness_loop.
  assert (Hneg : (al_dof al_i p <? 0) = false) by (apply Z.ltb_ge; exact Hdof).
  apply (fold_left_establish
           (fun a : LocalAcc => fst a p q = if surface_form then _ else _) _ _ p).
  - apply in_seq. lia.
  - intros a. rewrite Hneg, Hcoef, andb_false_r. simpl.
    apply row_nonsym_entry. exact Hq.
  - intros a i Ha.
    destruct (Nat.eq_dec i p) as [-> | Hne].
    + rewrite Hneg, Hcoef, andb_false_r. simpl. apply row_nonsym_entry. exact Hq.
    + destruct (al_dof al_i i <? 0); [exact Ha|].
      destruct ((negb tra || surface_form) && false)%bool; [exact Ha|].
      destruct (negligible (al_coef al_i i)); [exact Ha|].
      simpl. rewrite row_nonsym_other_row by exact Hne. exact Ha.
Qed.

(** The entry on or above the diagonal of a symmetric block: the same
    product, without the factor 0.5 whatever the kind of the form. *)
Lemma row_sym_entry dp form site al_i al_j p q acc :
  (p <= q)%nat -> evaluated_dof al_j q ->
  fst (row_sym dp form site al_i al_j p acc) p q
  = (block_scaling_coeff dp form * mf_value form site q p
     * mf_scaling_factor form * al_coef al_j q * al_coef al_i p)%float.
Proof.
  intros Hpq [Hq [Hdof Hcoef]]. unfold row_sym.
  apply Z.leb_le in Hdof.
  assert (Hlt : Nat.ltb q p = false) by (apply Nat.ltb_ge; exact Hpq).
  apply (fold_left_establish (fun a : LocalAcc => fst a p q = _) _ _ q).
  - apply in_seq. lia.
  - intros a. rewrite Hlt, Hdof, Hcoef. simpl. apply mset_same.
  - intros a j Ha.
    destruct (Nat.eq_dec j q) as [-> | Hne].
    { rewrite Hlt, Hdof, Hcoef. simpl. apply mset_same. }
    destruct (Nat.ltb j p && (0 <=? al_dof al_j j))%bool; [exact Ha|].
    destruct (0 <=? al_dof al_j j); [|exact Ha].
    destruct (negligible (al_coef al_j j)); [exact Ha|].
    simpl. rewrite !mset_other; [exact Ha | | ]; intros Heq; inversion Heq; subst; lia.
Qed.

Lemma row_sym_other_row dp form site al_i al_j i p q acc :
  i <> p -> (p <= q)%nat ->
  fst (row_sym dp form site al_i al_j i acc) p q = fst acc p q.
Proof.
  intros Hne Hpq. unfold row_sym.
  apply (fold_left_invariant (fun a : LocalAcc => fst a p q = fst acc p q)); [reflexivity|].
  intros a j _ Ha.
  destruct (Nat.ltb_spec j i) as [Hlt | Hge]; simpl.
  - destruct (0 <=? al_dof al_j j); exact Ha.
  - destruct (0 <=? al_dof al_j j); [|exact Ha].
    destruct (negligible (al_coef al_j j)); [exact Ha|].
    simpl. rewrite !mset_other; [exact Ha | | ]; intros Heq; inversion Heq; subst; lia.
Qed.

Lemma sym_loop_entry dp form surface_form tra site al_i al_j p q acc :
  (p <= q)%nat -> evaluated_dof al_i p -> evaluated_dof al_j q ->
  fst (local_stiffness_loop dp form surface_form tra true site al_i al_j acc) p q
  = (block_scaling_coeff dp form * mf_value form site q p
     * mf_scaling_factor form * al_coef al_j q * al_coef al_i p)%float.
Proof.
  intros Hpq [Hp [Hdof Hcoef]] Hq. unfold local_stiffness_loop.
  assert (Hneg : (al_dof al_i p <? 0) = false) by (apply Z.ltb_ge; exact Hdof).
  apply (fold_left_establish (fun a : LocalAcc => fst a p q = _) _ _ p).
  - apply in_seq. lia.
  - intros a. rewrite Hneg, Hcoef, andb_false_r. simpl.
    apply row_sym_entry; assumption.
  - intros a i Ha.
    destruct (Nat.eq_dec i p) as [-> | Hne].
    + rewrite Hneg, Hcoef, andb_false_r. simpl. apply row_sym_entry; assumption.
    + destruct (al_dof al_i i <? 0); [exact Ha|].
      destruct ((negb tra || surface_form) && false)%bool; [exact Ha|].
      destruct (negligible (al_coef al_i i)); [exact Ha|].
      simpl. rewrite row_sym_other_row by assumption. exact Ha.
Qed.

(** The entries of the block of a surface form on one field: halved when
    the form is tagged unsymmetric, not halved when it is tagged
    symmetric. *)
Lemma surface_block_entries dp form order refmaps als st p q :
  mf_kind form = Surf ->
  mf_i form = mf_j form ->
  (p <= q)%nat ->
  evaluated_dof (als_at als (mf_i form)) p ->
  evaluated_dof (als_at als (mf_i form)) q ->
  fst (local_block dp form order refmaps als st) p q
  = match mf_sym form with
    | HERMES_SYM =>
        (block_scaling_coeff dp form
         * mf_value form
             {| site_state := st; site_neighbor := None;
                site_quad_order :=
                  geometry_order true order (refmap_at refmaps (mf_i form)) st |} q p
         * mf_scaling_factor form
         * al_coef (als_at als (mf_i form)) q * al_coef (als_at als (mf_i form)) p)%float
    | _ =>
        (0.5 * block_scaling_coeff dp form
         * mf_value form
             {| site_state := st; site_neighbor := None;
                site_quad_order :=
                  geometry_order true order (refmap_at refmaps (mf_i form)) st |} q p
         * mf_scaling_factor form
         * al_coef (als_at als (mf_i form)) q * al_coef (als_at als (mf_i form)) p)%float
    end.
Proof.
  intros Hkind Hij Hpq Hp Hq. unfold local_block.
  rewrite <- Hij, Nat.eqb_refl, Hkind. simpl.
  destruct (mf_sym form); simpl.
  - rewrite nonsym_loop_entry by assumption. reflexivity.
  - rewrite nonsym_loop_entry by assumption. reflexivity.
  - rewrite sym_loop_entry by assumption. reflexivity.
Qed.

(** C5: for a matrix form with [i <> j] and a symmetry tag other than
    "unsymmetric", [assemble_matrix_form] makes, after the evaluations of
    the form, exactly two accumulation calls: the local block with the
    assembly lists of fields [i] and [j], then, with the lists exchanged,
    the block whose entry [(q, p)] is entry [(p, q)] of the local block,
    negated if and only if the tag is "antisymmetric". *)
Theorem offdiagonal_block_is_mirrored
    (dp : DiscreteProblem) (form : MatrixForm) (order : Z)
    (current_refmaps : list RefMap) (current_als : list AsmList) (current_state : State) :
  mf_i form <> mf_j form ->
  mf_sym form <> HERMES_NONSYM ->
  exists mirrored : Matrix,
    assemble_matrix_form dp form order current_refmaps current_als current_state
    = snd (local_block dp form order current_refmaps current_als current_state)
      ++ [MatAdd (cnt (als_at current_als (mf_i form))) (cnt (als_at current_als (mf_j form)))
            (fst (local_block dp form order current_refmaps current_als current_state))
            (al_dofs (als_at current_als (mf_i form)))
            (al_dofs (als_at current_als (mf_j form)));
          MatAdd (cnt (als_at current_als (mf_j form))) (cnt (als_at current_als (mf_i form)))
            mirrored
            (al_dofs (als_at current_als (mf_j form)))
            (al_dofs (als_at current_als (mf_i form)))]
    /\ Forall (fun ev => is_MatAdd ev = false)
         (snd (local_block dp form order current_refmaps current_als current_state))
    /\ forall p q,
         (p < cnt (als_at current_als (mf_i form)))%nat ->
         (q < cnt (als_at current_als (mf_j form)))%nat ->
         mirrored q p
         = match mf_sym form with
           | HERMES_ANTISYM =>
               PrimFloat.opp
                 (fst (local_block dp form order current_refmaps current_als current_state) p q)
           | _ => fst (local_block dp form order current_refmaps current_als current_state) p q
           end.
Proof.
  intros Hij Hsym.
  assert (Htra : (negb (Nat.eqb (mf_i form) (mf_j form))
                  && negb (sym_int (mf_sym form) =? 0))%bool = true).
  { apply Nat.eqb_neq in Hij. rewrite Hij.
    destruct (mf_sym form); [reflexivity | contradiction | reflexivity]. }
  unfold assemble_matrix_form. rewrite Htra.
  destruct (local_block dp form order current_refmaps current_als current_state)
    as [L calls] eqn:HL.
  eexists. split; [reflexivity | split].
  - pose proof (local_block_calls (fun ev => is_MatAdd ev = false)
                  dp form order current_refmaps current_als current_state) as Hc.
    rewrite HL in Hc. apply Hc. reflexivity.
  - intros p q Hp Hq. simpl fst.
    apply Nat.ltb_lt in Hp. apply Nat.ltb_lt in Hq.
    unfold transpose. rewrite Hp, Hq. simpl.
    destruct (mf_sym form); simpl; [|reflexivity|reflexivity].
    unfold chsgn. rewrite Hp, Hq. reflexivity.
Qed.

(** C4, as the code has it: for a matrix form tagged symmetric with
    [i = j], the form is evaluated only at pairs whose row index does not
    exceed the column index (the diagonal and the triangle above it), each
    value being written to the entry and to the transposed entry; the block
    handed to the single accumulation call is symmetric at every pair of
    free DOFs with non-negligible coefficients, and at every pair of
    indices whatsoever when the freshly allocated block is symmetric. *)
Theorem symmetric_block_is_symmetric
    (dp : DiscreteProblem) (form : MatrixForm) (order : Z)
    (current_refmaps : list RefMap) (current_als : list AsmList) (current_state : State) :
  mf_i form = mf_j form ->
  mf_sym form = HERMES_SYM ->
  assemble_matrix_form dp form order current_refmaps current_als current_state
  = snd (local_block dp form order current_refmaps current_als current_state)
    ++ [MatAdd (cnt (als_at current_als (mf_i form))) (cnt (als_at current_als (mf_i form)))
          (fst (local_block dp form order current_refmaps current_als current_state))
          (al_dofs (als_at current_als (mf_i form)))
          (al_dofs (als_at current_als (mf_i form)))]
  /\ (forall i j,
        In (i, j) (evaluated_pairs
                     (snd (local_block dp form order current_refmaps current_als current_state))) ->
        (i <= j)%nat)
  /\ (forall p q,
        evaluated_dof (als_at current_als (mf_i form)) p ->
        evaluated_dof (als_at current_als (mf_i form)) q ->
        fst (local_block dp form order current_refmaps current_als current_state) p q
        = fst (local_block dp form order current_refmaps current_als current_state) q p)
  /\ ((forall p q,
         new_matrix (cnt (als_at current_als (mf_i form))) p q
         = new_matrix (cnt (als_at current_als (mf_i form))) q p) ->
      forall p q,
        fst (local_block dp form order current_refmaps current_als current_state) p q
        = fst (local_block dp form order current_refmaps current_als current_state) q p).
Proof.
  intros Hij Hsym.
  split; [|split; [|split]].
  - unfold assemble_matrix_form. rewrite <- Hij, Nat.eqb_refl. simpl.
    destruct (local_block dp form order current_refmaps current_als current_state).
    reflexivity.
  - intros i j Hin.
    pose proof (local_block_calls
                  (fun ev => match ev with
                             | EvMatrixValue _ j i => (i <= j)%nat
                             | _ => True
                             end)
                  dp form order current_refmaps current_als current_state) as Hc.
    unfold evaluated_pairs in Hin. apply in_flat_map in Hin.
    destruct Hin as [ev [Hev Hpair]].
    rewrite Forall_forall in Hc. specialize (Hc (fun q i j Hle => Hle Hij Hsym) ev Hev).
    destruct ev; simpl in Hpair; try contradiction.
    destruct Hpair as [Hpair | []]. inversion Hpair; subst. exact Hc.
  - intros p q Hp Hq. unfold local_block.
    rewrite <- Hij, Nat.eqb_refl, Hsym. simpl.
    destruct (Nat.le_ge_cases p q) as [Hle | Hle].
    + apply sym_loop_makes; assumption.
    + symmetry. apply sym_loop_makes; assumption.
  - intros Hnew p q. unfold local_block.
    rewrite <- Hij, Nat.eqb_refl, Hsym. simpl.
    apply sym_loop_keeps. simpl. rewrite Nat.max_id. apply Hnew.
Qed.

End MatrixForms.

(** The theorem at work: an antisymmetric form coupling field 0 to field 1
    on the example element. *)
Lemma offdiagonal_block_is_mirrored_witness :
  exists mirrored : Matrix,
    assemble_matrix_form (X := ex_X) (ex_dp_bare 2)
      (ex_mform Vol 0 1 HERMES_ANTISYM 1%float [HERMES_ANY]) 0
      (current_refmaps (ex_ctx 2)) (current_als (ex_ctx 2)) ex_state2
    = snd (local_block (X := ex_X) (ex_dp_bare 2)
             (ex_mform Vol 0 1 HERMES_ANTISYM 1%float [HERMES_ANY]) 0
             (current_refmaps (ex_ctx 2)) (current_als (ex_ctx 2)) ex_state2)
      ++ [MatAdd 2 2
            (fst (local_block (X := ex_X) (ex_dp_bare 2)
                    (ex_mform Vol 0 1 HERMES_ANTISYM 1%float [HERMES_ANY]) 0
                    (current_refmaps (ex_ctx 2)) (current_als (ex_ctx 2)) ex_state2))
            [0; 1] [0; 1];
          MatAdd 2 2 mirrored [0; 1] [0; 1]]
    /\ mirrored 1%nat 0%nat = (-2)%float.
Proof.
  destruct (offdiagonal_block_is_mirrored (X := ex_X) (ex_dp_bare 2)
              (ex_mform Vol 0 1 HERMES_ANTISYM 1%float [HERMES_ANY]) 0
              (current_refmaps (ex_ctx 2)) (current_als (ex_ctx 2)) ex_state2)
    as [mirrored [Hrun [_ Hm]]].
  - simpl. discriminate.
  - simpl. discriminate.
  - exists mirrored. split; [exact Hrun|].
    rewrite (Hm 0%nat 1%nat); [vm_compute; reflexivity | vm_compute; repeat constructor ..].
Defined.

(** The theorem at work: a symmetric volume form on one field. *)
Lemma symmetric_block_is_symmetric_witness :
  fst (local_block (X := ex_X) (ex_dp_bare 1)
         (ex_mform Vol 0 0 HERMES_SYM 1%float [HERMES_ANY]) 0
         (current_refmaps (ex_ctx 1)) (current_als (ex_ctx 1)) ex_state) 0%nat 1%nat
  = fst (local_block (X := ex_X) (ex_dp_bare 1)
           (ex_mform Vol 0 0 HERMES_SYM 1%float [HERMES_ANY]) 0
           (current_refmaps (ex_ctx 1)) (current_als (ex_ctx 1)) ex_state) 1%nat 0%nat
  /\ added_blocks (assemble_matrix_form (X := ex_X) (ex_dp_bare 1)
                     (ex_mform Vol 0 0 HERMES_SYM 1%float [HERMES_ANY]) 0
                     (current_refmaps (ex_ctx 1)) (current_als (ex_ctx 1)) ex_state)
     = added_blocks
         (snd (local_block (X := ex_X) (ex_dp_bare 1)
                 (ex_mform Vol 0 0 HERMES_SYM 1%float [HERMES_ANY]) 0
                 (current_refmaps (ex_ctx 1)) (current_als (ex_ctx 1)) ex_state)
          ++ [MatAdd 2 2
                (fst (local_block (X := ex_X) (ex_dp_bare 1)
                        (ex_mform Vol 0 0 HERMES_SYM 1%float [HERMES_ANY]) 0
                        (current_refmaps (ex_ctx 1)) (current_als (ex_ctx 1)) ex_state))
                [0; 1] [0; 1]]).
Proof.
  destruct (symmetric_block_is_symmetric (X := ex_X) (ex_dp_bare 1)
              (ex_mform Vol 0 0 HERMES_SYM 1%float [HERMES_ANY]) 0
              (current_refmaps (ex_ctx 1)) (current_als (ex_ctx 1)) ex_state
              eq_refl eq_refl)
    as [Hrun [_ [Hsym _]]].
  split.
  - apply Hsym; (split; [vm_compute; repeat constructor | split; vm_compute; congruence]).
  - rewrite Hrun. reflexivity.
Defined.

(** C4, the claim as stated fails: on two free DOFs the symmetric form is
    evaluated at (row 0, column 0), (row 0, column 1) and (row 1,
    column 1): the pair strictly above the diagonal is evaluated and the
    pair strictly below it is not, so the evaluated pairs are not confined
    to the lower triangle and the diagonal. *)
Lemma symmetric_block_lower_triangle_counterexample :
  evaluated_pairs (assemble_matrix_form (X := ex_X) (ex_dp_bare 1)
                     (ex_mform Vol 0 0 HERMES_SYM 1%float [HERMES_ANY]) 0
                     (current_refmaps (ex_ctx 1)) (current_als (ex_ctx 1)) ex_state)
  = [(0, 0); (0, 1); (1, 1)]%nat
  /\ ~ (forall i j,
          In (i, j) (evaluated_pairs
                       (assemble_matrix_form (X := ex_X) (ex_dp_bare 1)
                          (ex_mform Vol 0 0 HERMES_SYM 1%float [HERMES_ANY]) 0
                          (current_refmaps (ex_ctx 1)) (current_als (ex_ctx 1)) ex_state)) ->
          (j <= i)%nat).
Proof.
  assert (Hpairs :
    evaluated_pairs (assemble_matrix_form (X := ex_X) (ex_dp_bare 1)
                       (ex_mform Vol 0 0 HERMES_SYM 1%float [HERMES_ANY]) 0
                       (current_refmaps (ex_ctx 1)) (current_als (ex_ctx 1)) ex_state)
    = [(0, 0); (0, 1); (1, 1)]%nat) by (vm_compute; reflexivity).
  split; [exact Hpairs|].
  intros Hlow. specialize (Hlow 0%nat 1%nat). rewrite Hpairs in Hlow.
  assert (Hle : (1 <= 0)%nat) by (apply Hlow; right; left; reflexivity).
  inversion Hle.
Qed.

(** C3, the code at the failing input: a boundary-surface matrix form on
    one field whose integrand evaluates to 2, with scaling factor and
    coefficients 1 and no block weights.  Tagged unsymmetric, every entry
    of the block is 0.5 * 2 = 1; tagged symmetric, the same form yields 2:
    the symmetric branch of [assemble_matrix_form] leaves out the factor
    0.5 that the other branch applies to surface forms.  A volume form
    yields 2 under either tag. *)
Theorem symmetric_surface_form_not_halved :
  map (fun M : Matrix => (M 0 0, M 0 1, M 1 0, M 1 1)%nat)
      (added_blocks (assemble_matrix_form (X := ex_X) (ex_dp_bare 1)
                       (ex_mform Surf 0 0 HERMES_NONSYM 1%float [HERMES_ANY]) 0
                       (current_refmaps (ex_ctx 1)) (current_als (ex_ctx 1)) ex_state_edge1))
  = [(1, 1, 1, 1)%float]
  /\ map (fun M : Matrix => (M 0 0, M 0 1, M 1 0, M 1 1)%nat)
         (added_blocks (assemble_matrix_form (X := ex_X) (ex_dp_bare 1)
                          (ex_mform Surf 0 0 HERMES_SYM 1%float [HERMES_ANY]) 0
                          (current_refmaps (ex_ctx 1)) (current_als (ex_ctx 1)) ex_state_edge1))
     = [(2, 2, 2, 2)%float]
  /\ map (fun M : Matrix => (M 0 0, M 0 1, M 1 0, M 1 1)%nat)
         (added_blocks (assemble_matrix_form (X := ex_X) (ex_dp_bare 1)
                          (ex_mform Vol 0 0 HERMES_NONSYM 1%float [HERMES_ANY]) 0
                          (current_refmaps (ex_ctx 1)) (current_als (ex_ctx 1)) ex_state))
     = [(2, 2, 2, 2)%float]
  /\ map (fun M : Matrix => (M 0 0, M 0 1, M 1 0, M 1 1)%nat)
         (added_blocks (assemble_matrix_form (X := ex_X) (ex_dp_bare 1)
                          (ex_mform Vol 0 0 HERMES_SYM 1%float [HERMES_ANY]) 0
                          (current_refmaps (ex_ctx 1)) (current_als (ex_ctx 1)) ex_state))
     = [(2, 2, 2, 2)%float].
Proof.
  repeat split; vm_compute; reflexivity.
Qed.

(** ** The finite-volume fast path *)

Section FiniteVolume.

Context `{X : Collaborators}.

Lemma calc_order_matrix_form_fvm dp spaces form refmaps u_ext st :
  is_fvm dp = true ->
  calc_order_matrix_form dp spaces form refmaps u_ext st
  = (get_inv_ref_order (refmap_at refmaps (mf_i form)), []).
Proof.
  intros Hfvm. unfold calc_order_matrix_form. rewrite Hfvm. reflexivity.
Qed.

Lemma calc_order_vector_form_fvm dp spaces form refmaps u_ext st :
  is_fvm dp = true ->
  calc_order_vector_form dp spaces form refmaps u_ext st
  = (get_inv_ref_order (refmap_at refmaps (vf_i form)), []).
Proof.
  intros Hfvm. unfold calc_order_vector_form. rewrite Hfvm. reflexivity.
Qed.

Lemma state_work_no_ord dp spaces ctx st :
  is_fvm dp = true ->
  no_ord_call (fst (fst (state_work dp spaces ctx st))).
Proof.
  intros Hfvm. unfold no_ord_call.
  apply (state_work_events (fun ev => is_ord_call ev = false)); try reflexivity.
  left. exact Hfvm.
Qed.

Lemma value_orders_Forall (Q : Z -> Prop) evs :
  Forall (fun ev => match ev with
                    | EvMatrixValue q _ _ => Q q
                    | EvVectorValue q _ => Q q
                    | _ => True
                    end) evs ->
  Forall Q (value_orders evs).
Proof.
  intros Hall. unfold value_orders. apply Forall_flat_map_intro.
  intros ev Hev. rewrite Forall_forall in Hall. specialize (Hall ev Hev).
  destruct ev; repeat constructor; exact Hall.
Qed.

(** C9, as the code has it: in finite-volume mode [calc_order_matrix_form]
    and [calc_order_vector_form] return the inverse-reference-map order of
    the test space of the form without a call of the estimator; the volume
    and boundary-surface forms are assembled with that order; the work on a
    state makes no estimator call at all.  The DG path does not consult the
    flag: [assemble_DG_one_neighbor] is the same with and without it, and
    the evaluations of a DG matrix form reached with the initial order 20
    all use the edge order of 20. *)
Theorem fvm_order_fast_path
    (dp : DiscreteProblem) (spaces : list Space) (ctx : ThreadCtx) (st : State) :
  is_fvm dp = true ->
  (forall form refmaps u_ext,
      calc_order_matrix_form dp spaces form refmaps u_ext st
      = (get_inv_ref_order (refmap_at refmaps (mf_i form)), []))
  /\ (forall form refmaps u_ext,
      calc_order_vector_form dp spaces form refmaps u_ext st
      = (get_inv_ref_order (refmap_at refmaps (vf_i form)), []))
  /\ (forall form,
      mfvol_step dp spaces ctx st form
      = if form_to_be_assembled_MatrixFormVol dp spaces form st
        then assemble_matrix_form dp form
               (get_inv_ref_order (refmap_at (current_refmaps ctx) (mf_i form)))
               (current_refmaps ctx) (current_als ctx) st
        else [])
  /\ (forall form,
      mfsurf_step dp spaces ctx st form
      = if form_to_be_assembled_MatrixFormSurf dp spaces form st
        then assemble_matrix_form dp form
               (get_inv_ref_order (refmap_at (current_refmaps ctx) (mf_i form)))
               (current_refmaps ctx) (current_als ctx) st
        else [])
  /\ (forall form,
      vfvol_step dp spaces ctx st form
      = if form_to_be_assembled_VectorFormVol spaces form st
        then assemble_vector_form form
               (get_inv_ref_order (refmap_at (current_refmaps ctx) (vf_i form)))
               (current_refmaps ctx) (current_als ctx) st
        else [])
  /\ (forall form,
      vfsurf_step dp spaces ctx st form
      = if form_to_be_assembled_VectorFormSurf spaces form st
        then assemble_vector_form form
               (get_inv_ref_order (refmap_at (current_refmaps ctx) (vf_i form)))
               (current_refmaps ctx) (current_als ctx) st
        else [])
  /\ no_ord_call (fst (fst (state_work dp spaces ctx st)))
  /\ (forall dp0 processed neighbor_i nss,
      assemble_DG_one_neighbor (set_fvm dp0) spaces ctx st processed neighbor_i nss
      = assemble_DG_one_neighbor dp0 spaces ctx st processed neighbor_i nss)
  /\ (forall neighbor_i nss mfs,
      Forall (fun q => q = get_edge_points (isurf st) 20 (get_mode (rep st)))
        (value_orders (snd (DG_mfsurf_step dp spaces ctx st neighbor_i nss (20, []) mfs)))).
Proof.
  intros Hfvm.
  split; [intros; apply calc_order_matrix_form_fvm; exact Hfvm|].
  split; [intros; apply calc_order_vector_form_fvm; exact Hfvm|].
  split.
  { intros form. unfold mfvol_step.
    rewrite calc_order_matrix_form_fvm by exact Hfvm.
    destruct (form_to_be_assembled_MatrixFormVol dp spaces form st); reflexivity. }
  split.
  { intros form. unfold mfsurf_step.
    rewrite calc_order_matrix_form_fvm by exact Hfvm.
    destruct (form_to_be_assembled_MatrixFormSurf dp spaces form st); reflexivity. }
  split.
  { intros form. unfold vfvol_step.
    rewrite calc_order_vector_form_fvm by exact Hfvm.
    destruct (form_to_be_assembled_VectorFormVol spaces form st); reflexivity. }
  split.
  { intros form. unfold vfsurf_step.
    rewrite calc_order_vector_form_fvm by exact Hfvm.
    destruct (form_to_be_assembled_VectorFormSurf spaces form st); reflexivity. }
  split; [apply state_work_no_ord; exact Hfvm|].
  split; [intros; reflexivity|].
  intros neighbor_i nss mfs. apply value_orders_Forall.
  apply DG_mfsurf_step_events; [reflexivity | exact (fun _ _ _ _ _ => I) | constructor].
Qed.

End FiniteVolume.

(** The theorem at work: the example problem in finite-volume mode. *)
Lemma fvm_order_fast_path_witness :
  calc_order_matrix_form (X := ex_X) ex_dp_fvm [ex_space 1]
    (ex_mform Vol 0 0 HERMES_NONSYM 1%float [HERMES_ANY]) [null_refmap] None ex_state
  = (0, [])
  /\ no_ord_call (fst (fst (state_work (X := ex_X) ex_dp_fvm [ex_space 1] (ex_ctx 1) ex_state))).
Proof.
  destruct (fvm_order_fast_path (X := ex_X) ex_dp_fvm [ex_space 1] (ex_ctx 1) ex_state eq_refl)
    as [Hm [_ [_ [_ [_ [_ [Hno _]]]]]]].
  split; [apply Hm | exact Hno].
Defined.

(** C9, the claim as stated fails: in finite-volume mode, with a reference
    map of inverse order 0, every evaluation of the DG inner-edge forms of
    the example uses the order 20, which is neither that order nor the edge
    order derived from it. *)
Lemma fvm_DG_order_counterexample :
  is_fvm ex_dp_fvm_DG = true
  /\ get_inv_ref_order (@refmap_of ex_X ex_state 0%nat) = 0
  /\ @get_edge_points ex_X 0 0 HERMES_MODE_TRIANGLE = 0
  /\ value_orders (snd (fst (assemble (X := ex_X) ex_dp_fvm_DG (ex_world 1)
                                None true true false None)))
     = repeat 20 18
  /\ ~ Forall (fun q => q = get_inv_ref_order (@refmap_of ex_X ex_state 0%nat))
         (value_orders (snd (fst (assemble (X := ex_X) ex_dp_fvm_DG (ex_world 1)
                                     None true true false None)))).
Proof.
  assert (Horders :
    value_orders (snd (fst (assemble (X := ex_X) ex_dp_fvm_DG (ex_world 1)
                              None true true false None)))
    = repeat 20 18) by (vm_compute; reflexivity).
  repeat split; try reflexivity; try exact Horders.
  rewrite Horders. intros Hall. inversion Hall as [|q l Hq _]. discriminate Hq.
Qed.

(** ** Reconciled neighbor counts *)

Section NeighborCounts.

Context `{X : Collaborators}.

Variable root : NodePtr.

(** Once a nonzero number of neighbors is recorded, the loop lets through
    exactly the searches that report this number. *)
Lemma update_and_check_recorded nss :
  forall num n nss',
    num <> 0 ->
    update_and_check root nss num = inr (n, nss') ->
    n = num /\ forall ns, In (Some ns) nss -> updated_n_neighbors root ns = num.
Proof.
  induction nss as [|[ns|] rest IH]; intros num n nss' Hnum Hrun; simpl in Hrun.
  - inversion Hrun; subst. split; [reflexivity | intros ns []].
  - apply Z.eqb_neq in Hnum. rewrite Hnum in Hrun.
    destruct (n_neighbors (update_neighbor_search ns root) =? num) eqn:Hc;
      simpl in Hrun; [|discriminate].
    destruct (update_and_check root rest num) as [ex | [n0 rest']] eqn:Hrest;
      [discriminate|].
    inversion Hrun; subst. apply Z.eqb_neq in Hnum.
    destruct (IH _ _ _ Hnum Hrest) as [Hn Hall]. split; [exact Hn|].
    intros ns0 [Heq | Hin].
    + inversion Heq; subst. apply Z.eqb_eq in Hc. exact Hc.
    + apply Hall. exact Hin.
  - destruct (update_and_check root rest num) as [ex | [n0 rest']] eqn:Hrest;
      [discriminate|].
    inversion Hrun; subst.
    destruct (IH _ _ _ Hnum Hrest) as [Hn Hall]. split; [exact Hn|].
    intros ns0 [Heq | Hin]; [discriminate | apply Hall; exact Hin].
Qed.

Lemma update_and_check_nonneg nss :
  forall num n nss',
    (forall ns, In (Some ns) nss -> counter_in_step root ns) ->
    0 <= num ->
    update_and_check root nss num = inr (n, nss') ->
    0 <= n.
Proof.
  induction nss as [|[ns|] rest IH]; intros num n nss' Hinv Hnum Hrun; simpl in Hrun.
  - inversion Hrun; subst. exact Hnum.
  - destruct (negb _); [discriminate|].
    destruct (update_and_check root rest _) as [ex | [n0 rest']] eqn:Hrest;
      [discriminate|].
    inversion Hrun; subst.
    apply (IH _ _ _ (fun ns0 H0 => Hinv ns0 (or_intror H0))) in Hrest; [exact Hrest|].
    destruct (num =? 0); [|exact Hnum].
    rewrite (Hinv ns (or_introl eq_refl)). apply Nat2Z.is_nonneg.
  - destruct (update_and_check root rest num) as [ex | [n0 rest']] eqn:Hrest;
      [discriminate|].
    inversion Hrun; subst.
    apply (IH _ _ _ (fun ns0 H0 => Hinv ns0 (or_intror H0)) Hnum Hrest).
Qed.

(** Started with nothing recorded, the loop lets through searches that all
    report the same number, or else searches of which the first reports no
    neighbor at all; on the latter the first look at a segment throws. *)
Lemma update_and_check_from_zero nss :
  forall n nss',
    (forall ns, In (Some ns) nss -> counter_in_step root ns) ->
    update_and_check root nss 0 = inr (n, nss') ->
    (forall ns, In (Some ns) nss -> updated_n_neighbors root ns = n)
    \/ (0 < n /\ exists ex, segment_processed nss' 0 = inl ex).
Proof.
  induction nss as [|[ns|] rest IH]; intros n nss' Hinv Hrun; simpl in Hrun.
  - left. intros ns [].
  - rewrite Z.eqb_refl in Hrun. simpl in Hrun.
    destruct (update_and_check root rest (n_neighbors (update_neighbor_search ns root)))
      as [ex | [n0 rest']] eqn:Hrest; [discriminate|].
    inversion Hrun; subst; clear Hrun.
    assert (Hinv' : forall ns0, In (Some ns0) rest -> counter_in_step root ns0)
      by (intros ns0 H0; apply Hinv; right; exact H0).
    pose proof (Hinv ns (or_introl eq_refl)) as Hns. unfold counter_in_step in Hns.
    destruct (Z.eq_dec (n_neighbors (update_neighbor_search ns root)) 0) as [Hz | Hnz].
    + assert (Hempty : neighbors (update_neighbor_search ns root) = []).
      { rewrite Hz in Hns.
        destruct (neighbors (update_neighbor_search ns root)); [reflexivity|].
        simpl in Hns. lia. }
      assert (Hthrow : exists ex,
                 segment_processed (Some (update_neighbor_search ns root) :: rest') 0 = inl ex)
        by (simpl; rewrite Hempty; simpl; eexists; reflexivity).
      rewrite Hz in Hrest.
      pose proof (update_and_check_nonneg _ _ _ _ Hinv' (Z.le_refl 0) Hrest) as Hn.
      destruct (IH _ _ Hinv' Hrest) as [Hall | [Hpos _]].
      * destruct (Z.eq_dec n 0) as [Hn0 | Hn0].
        -- left. intros ns0 [Heq | Hin].
           ++ inversion Heq; subst. unfold updated_n_neighbors. exact Hz.
           ++ apply Hall. exact Hin.
        -- right. split; [lia | exact Hthrow].
      * right. split; [exact Hpos | exact Hthrow].
    + destruct (update_and_check_recorded _ _ _ _ Hnz Hrest) as [Hn Hall].
      left. intros ns0 [Heq | Hin].
      * inversion Heq; subst. reflexivity.
      * rewrite Hn. apply Hall. exact Hin.
  - destruct (update_and_check root rest 0) as [ex | [n0 rest']] eqn:Hrest;
      [discriminate|].
    inversion Hrun; subst; clear Hrun.
    destruct (IH _ _ (fun ns0 H0 => Hinv ns0 (or_intror H0)) eq_refl)
      as [Hall | [Hpos Hthrow]].
    + left. intros ns0 [Heq | Hin]; [discriminate | apply Hall; exact Hin].
    + right. split; [exact Hpos | exact Hthrow].
Qed.

(** C1: on an interior edge, let the searches of the participating meshes
    be updated against the multimesh tree, each keeping its counter
    [n_neighbors] in step with its list of neighbors.  If the work on the
    edge is not aborted, all present searches report the same number of
    neighbors; if two of them report different numbers, the work on the
    edge ends in an exception before any segment is assembled: no event of
    this edge reaches the matrix or the right-hand side. *)
Theorem neighbor_count_mismatch_aborts
    (dp : DiscreteProblem) (spaces : list Space) (ctx : ThreadCtx) (st : State) :
  build_multimesh_tree (NeighborNode 0 NULL NULL) (init_neighbors spaces st) = inr root ->
  (forall ns, In (Some ns) (init_neighbors spaces st) -> counter_in_step root ns) ->
  (forall evs,
      assemble_DG_edge dp spaces ctx st = (evs, None) ->
      forall ns1 ns2,
        In (Some ns1) (init_neighbors spaces st) ->
        In (Some ns2) (init_neighbors spaces st) ->
        updated_n_neighbors root ns1 = updated_n_neighbors root ns2)
  /\ ((exists ns1 ns2,
         In (Some ns1) (init_neighbors spaces st)
         /\ In (Some ns2) (init_neighbors spaces st)
         /\ updated_n_neighbors root ns1 <> updated_n_neighbors root ns2) ->
      exists ex, assemble_DG_edge dp spaces ctx st = ([], Some ex)).
Proof.
  intros Hbuild Hinv.
  assert (Hcases :
    (forall ns1 ns2,
        In (Some ns1) (init_neighbors spaces st) ->
        In (Some ns2) (init_neighbors spaces st) ->
        updated_n_neighbors root ns1 = updated_n_neighbors root ns2)
    \/ exists ex, assemble_DG_edge dp spaces ctx st = ([], Some ex)).
  { unfold assemble_DG_edge. rewrite Hbuild.
    destruct (update_and_check root (init_neighbors spaces st) 0)
      as [ex | [n nss']] eqn:Hrun.
    - right. exists ex. reflexivity.
    - destruct (update_and_check_from_zero _ _ _ Hinv Hrun) as [Hall | [Hpos [ex Hthrow]]].
      + left. intros ns1 ns2 H1 H2. rewrite (Hall _ H1), (Hall _ H2). reflexivity.
      + right. exists ex.
        destruct (Z.to_nat n) as [|k] eqn:Hk; [lia|].
        simpl. rewrite Hthrow. reflexivity. }
  split.
  - intros evs Hrun. destruct Hcases as [Hall | [ex Hex]]; [exact Hall|].
    rewrite Hex in Hrun. discriminate.
  - intros [ns1 [ns2 [H1 [H2 Hne]]]]. destruct Hcases as [Hall | Hex]; [|exact Hex].
    exfalso. apply Hne. apply Hall; assumption.
Qed.

End NeighborCounts.

(** The theorem at work: searches reporting two and one neighbors are
    stopped by the comparison; searches reporting none and two pass the
    comparison and are stopped at the first segment; searches that agree go
    through. *)
Lemma neighbor_count_mismatch_aborts_witness :
  (exists ex, assemble_DG_edge (X := ex_X_two_one) (ex_dp_bare 1) [ex_space 1] (ex_ctx 1)
                (set_isurf ex_state 0) = ([], Some ex))
  /\ (exists ex, assemble_DG_edge (X := ex_X_zero_two) (ex_dp_bare 1) [ex_space 1] (ex_ctx 1)
                   (set_isurf ex_state 0) = ([], Some ex))
  /\ (forall ns1 ns2,
        In (Some ns1) [Some (ex_ns 2 [ex_el; ex_el]); Some (ex_ns 2 [ex_el; ex_el])] ->
        In (Some ns2) [Some (ex_ns 2 [ex_el; ex_el]); Some (ex_ns 2 [ex_el; ex_el])] ->
        n_neighbors ns1 = n_neighbors ns2).
Proof.
  split; [|split].
  - apply (proj2 (neighbor_count_mismatch_aborts (X := ex_X_two_one)
                    (NeighborNode 0 NULL NULL) (ex_dp_bare 1) [ex_space 1] (ex_ctx 1)
                    (set_isurf ex_state 0) eq_refl
                    (fun ns Hin =>
                       match Hin with
                       | or_introl Heq =>
                           match Heq in (_ = o)
                                 return match o with
                                        | Some ns' => counter_in_step (X := ex_X_two_one)
                                                        (NeighborNode 0 NULL NULL) ns'
                                        | None => True
                                        end
                           with eq_refl => eq_refl end
                       | or_intror (or_introl Heq) =>
                           match Heq in (_ = o)
                                 return match o with
                                        | Some ns' => counter_in_step (X := ex_X_two_one)
                                                        (NeighborNode 0 NULL NULL) ns'
                                        | None => True
                                        end
                           with eq_refl => eq_refl end
                       | or_intror (or_intror F) => match F with end
                       end))).
    exists (ex_ns 2 [ex_el; ex_el]), (ex_ns 1 [ex_el]).
    split; [left; reflexivity | split; [right; left; reflexivity | discriminate]].
  - apply (proj2 (neighbor_count_mismatch_aborts (X := ex_X_zero_two)
                    (NeighborNode 0 NULL NULL) (ex_dp_bare 1) [ex_space 1] (ex_ctx 1)
                    (set_isurf ex_state 0) eq_refl
                    (fun ns Hin =>
                       match Hin with
                       | or_introl Heq =>
                           match Heq in (_ = o)
                                 return match o with
                                        | Some ns' => counter_in_step (X := ex_X_zero_two)
                                                        (NeighborNode 0 NULL NULL) ns'
                                        | None => True
                                        end
                           with eq_refl => eq_refl end
                       | or_intror (or_introl Heq) =>
                           match Heq in (_ = o)
                                 return match o with
                                        | Some ns' => counter_in_step (X := ex_X_zero_two)
                                                        (NeighborNode 0 NULL NULL) ns'
                                        | None => True
                                        end
                           with eq_refl => eq_refl end
                       | or_intror (or_intror F) => match F with end
                       end))).
    exists (ex_ns 0 []), (ex_ns 2 [ex_el; ex_el]).
    split; [left; reflexivity | split; [right; left; reflexivity | discriminate]].
  - apply (proj1 (neighbor_count_mismatch_aborts (X := ex_X_two_two)
                    (NeighborNode 0 NULL NULL) (ex_dp_bare 1) [ex_space 1] (ex_ctx 1)
                    (set_isurf ex_state 0) eq_refl
                    (fun ns Hin =>
                       match Hin with
                       | or_introl Heq =>
                           match Heq in (_ = o)
                                 return match o with
                                        | Some ns' => counter_in_step (X := ex_X_two_two)
                                                        (NeighborNode 0 NULL NULL) ns'
                                        | None => True
                                        end
                           with eq_refl => eq_refl end
                       | or_intror (or_introl Heq) =>
                           match Heq in (_ = o)
                                 return match o with
                                        | Some ns' => counter_in_step (X := ex_X_two_two)
                                                        (NeighborNode 0 NULL NULL) ns'
                                        | None => True
                                        end
                           with eq_refl => eq_refl end
                       | or_intror (or_intror F) => match F with end
                       end))
                 (fst (assemble_DG_edge (X := ex_X_two_two) (ex_dp_bare 1) [ex_space 1]
                         (ex_ctx 1) (set_isurf ex_state 0)))).
    vm_compute. reflexivity.
Defined.

(** ** Exceptions in the parallel region *)

Section ParallelRegion.

Context `{X : Collaborators}.



Lemma until_throw_no_throw st evs : until_throw no_throw st evs = (evs, None).
Proof.
  induction evs as [|ev rest IH]; simpl; [reflexivity|].
  assert (Hev : thrown_by no_throw st ev = None).
  { unfold thrown_by, no_throw. destruct (is_form_call ev); reflexivity. }
  rewrite Hev, IH. reflexivity.
Qed.

Lemma throwing_work_no_throw dp spaces ctx st :
  throwing_work no_throw dp spaces ctx st = state_work dp spaces ctx st.
Proof.
  unfold throwing_work.
  destruct (state_work dp spaces ctx st) as [[evs ctx'] ex].
  rewrite until_throw_no_throw. reflexivity.
Qed.





(** *** The team *)

Lemma ctx_in_loop_nth workers t ctx :
  ctx_in_loop workers t = Some ctx -> nth_error workers t = Some (InLoop ctx).
Proof.
  unfold ctx_in_loop. destruct (nth_error workers t) as [[c|e]|]; intros H; inversion H.
  reflexivity.
Qed.

Lemma is_in_loop_nth workers t :
  is_in_loop workers t = true -> exists ctx, nth_error workers t = Some (InLoop ctx).
Proof.
  unfold is_in_loop. destruct (ctx_in_loop workers t) as [ctx|] eqn:Hc; [|discriminate].
  intros _. exists ctx. apply ctx_in_loop_nth. exact Hc.
Qed.









Lemma escaped_repeat ctx n : escaped (repeat (InLoop ctx) n) = [].
Proof. induction n as [|n IH]; [reflexivity | exact IH]. Qed.

(** *** The loop of the region *)







(** With one thread and forms that do not throw the region is the loop of
    [states_loop]. *)
Lemma region_loop_one_thread dp spaces thread_of states :
  forall k ctx,
    flat_map it_events
      (fst (region_loop (throwing_work no_throw) dp spaces thread_of k [InLoop ctx] states))
    = fst (states_loop state_work dp spaces ctx states)
    /\ hd_error (escaped (snd (region_loop (throwing_work no_throw) dp spaces thread_of k
                                 [InLoop ctx] states)))
       = snd (states_loop state_work dp spaces ctx states)
    /\ (snd (states_loop state_work dp spaces ctx states) = None ->
        escaped (snd (region_loop (throwing_work no_throw) dp spaces thread_of k
                        [InLoop ctx] states)) = []).
Proof.
  induction states as [|st rest IH]; intros k ctx.
  - simpl. split; [reflexivity | split; reflexivity].
  - assert (Htaker : taker [InLoop ctx] (thread_of k) = Some 0%nat).
    { unfold taker, is_in_loop, ctx_in_loop.
      destruct (thread_of k) as [|[|n]]; reflexivity. }
    cbn [region_loop states_loop]. rewrite Htaker.
    change (ctx_in_loop [InLoop ctx] 0) with (Some ctx). cbv iota.
    rewrite throwing_work_no_throw.
    destruct (state_work dp spaces ctx st) as [[evs ctx'] [ex|]].
    + change (set_worker [InLoop ctx] 0 (LeftLoop ex)) with [LeftLoop ex].
      assert (Hrest : region_loop (throwing_work no_throw) dp spaces thread_of (S k)
                        [LeftLoop ex] rest = ([], [LeftLoop ex])).
      { destruct rest as [|st' rest']; [reflexivity|].
        cbn [region_loop].
        assert (Hnone : taker [LeftLoop ex] (thread_of (S k)) = None).
        { unfold taker, is_in_loop, ctx_in_loop.
          destruct (thread_of (S k)) as [|[|n]]; reflexivity. }
        rewrite Hnone. reflexivity. }
      rewrite Hrest. simpl. rewrite app_nil_r.
      split; [reflexivity | split; [reflexivity | discriminate]].
    + change (set_worker [InLoop ctx] 0 (InLoop ctx')) with [InLoop ctx'].
      specialize (IH (S k) ctx').
      destruct (region_loop (throwing_work no_throw) dp spaces thread_of (S k)
                  [InLoop ctx'] rest) as [its ws].
      destruct (states_loop state_work dp spaces ctx' rest) as [evs' ex'].
      simpl in *. destruct IH as [He [Hh Hn]].
      split; [rewrite He; reflexivity | split; assumption].
Qed.

(** [assemble] is the pass of one thread with forms that do not throw: the
    same problem and world afterwards, the same events, and the error it
    ends with is the exception thrown before the region or the one that
    left the region. *)
Lemma assemble_is_one_thread_pass thread_of dp w coeff_vec mat rhs
    force_diagonal_blocks block_weights :
  let p := assemble_parallel no_throw 1 thread_of dp w coeff_vec mat rhs
             force_diagonal_blocks block_weights in
  assemble dp w coeff_vec mat rhs force_diagonal_blocks block_weights
  = (pass_dp p, pass_world p, pass_trace p, pass_error p).
Proof.
  unfold assemble_parallel, assemble, assemble_with, pass_trace, pass_error.
  destruct (bad_table _ block_weights); [reflexivity|].
  destruct (create_sparse_structure _ w) as [[dpc wc] sev].
  simpl repeat.
  destruct (region_loop_one_thread dpc (w_spaces wc) thread_of
              (traverse_states (assemble_meshes dpc wc coeff_vec)) 0%nat
              (initial_ctx wc coeff_vec)) as [He [Hh Hn]].
  destruct (region_loop (throwing_work no_throw) dpc (w_spaces wc) thread_of 0 _ _)
    as [its ws].
  destruct (states_loop state_work dpc (w_spaces wc) _ _) as [evs ex].
  simpl in He, Hh, Hn. subst evs.
  destruct ex as [ex|].
  - destruct (escaped ws) as [|ex0 exs]; [discriminate|].
    simpl in Hh. inversion Hh; subst. simpl. rewrite app_nil_r. reflexivity.
  - rewrite (Hn eq_refl). simpl. reflexivity.
Qed.


End ParallelRegion.



(** ** The multimesh tree *)

Section MultimeshTree.

Lemma insert_into_multimesh_tree_nil node :
  insert_into_multimesh_tree node [] = inr node.
Proof.
  destruct node; reflexivity.
Qed.

(** Insertion keeps the node it is applied to: only the sons change. *)
Lemma insert_keeps_node t l r ts node' :
  insert_into_multimesh_tree (NeighborNode t l r) ts = inr node' ->
  exists l' r', node' = NeighborNode t l' r'.
Proof.
  destruct ts as [|t0 rest]; simpl.
  - intros H. inversion H. eauto.
  - destruct l as [|tl ll lr].
    + destruct r as [|tr rl rr].
      * destruct (insert_into_multimesh_tree (NeighborNode t0 NULL NULL) rest);
          intros H; inversion H; eauto.
      * intros H. inversion H. eauto.
    + destruct (tl =? t0).
      * destruct (insert_into_multimesh_tree (NeighborNode tl ll lr) rest);
          intros H; inversion H; eauto.
      * destruct r as [|tr rl rr].
        -- destruct (insert_into_multimesh_tree (NeighborNode t0 NULL NULL) rest);
             intros H; inversion H; eauto.
        -- destruct (tr =? t0); [|discriminate].
           destruct (insert_into_multimesh_tree (NeighborNode tr rl rr) rest);
             intros H; inversion H; eauto.
Qed.

(** The equations of the insertion, one for each way the source takes. *)
Lemma insert_at_leaf t t0 rest :
  insert_into_multimesh_tree (NeighborNode t NULL NULL) (t0 :: rest)
  = match insert_into_multimesh_tree (NeighborNode t0 NULL NULL) rest with
    | inl ex => inl ex
    | inr son => inr (NeighborNode t son NULL)
    end.
Proof. reflexivity. Qed.

Lemma insert_through_left t tl ll lr r t0 rest :
  (tl =? t0) = true ->
  insert_into_multimesh_tree (NeighborNode t (NeighborNode tl ll lr) r) (t0 :: rest)
  = match insert_into_multimesh_tree (NeighborNode tl ll lr) rest with
    | inl ex => inl ex
    | inr son => inr (NeighborNode t son r)
    end.
Proof. intros H. simpl. rewrite H. reflexivity. Qed.

Lemma insert_through_right t tl ll lr tr rl rr t0 rest :
  (tl =? t0) = false -> (tr =? t0) = true ->
  insert_into_multimesh_tree
    (NeighborNode t (NeighborNode tl ll lr) (NeighborNode tr rl rr)) (t0 :: rest)
  = match insert_into_multimesh_tree (NeighborNode tr rl rr) rest with
    | inl ex => inl ex
    | inr son => inr (NeighborNode t (NeighborNode tl ll lr) son)
    end.
Proof. intros H1 H2. simpl. rewrite H1, H2. reflexivity. Qed.

Lemma insert_new_right t tl ll lr t0 rest :
  (tl =? t0) = false ->
  insert_into_multimesh_tree (NeighborNode t (NeighborNode tl ll lr) NULL) (t0 :: rest)
  = match insert_into_multimesh_tree (NeighborNode t0 NULL NULL) rest with
    | inl ex => inl ex
    | inr son => inr (NeighborNode t (NeighborNode tl ll lr) son)
    end.
Proof. intros H. simpl. rewrite H. reflexivity. Qed.

Lemma insert_third_son t tl ll lr tr rl rr t0 rest :
  (tl =? t0) = false -> (tr =? t0) = false ->
  insert_into_multimesh_tree
    (NeighborNode t (NeighborNode tl ll lr) (NeighborNode tr rl rr)) (t0 :: rest)
  = inl (FatalError "More than two possible sons in insert_into_multimesh_tree().").
Proof. intros H1 H2. simpl. rewrite H1, H2. reflexivity. Qed.

(** A case analysis of an insertion below a node in a tree of the shape
    [left_son_first]. *)
Inductive insert_case (t : Z) (l r : NodePtr) (t0 : Z) : Prop :=
| at_leaf : l = NULL -> r = NULL -> insert_case t l r t0
| through_left tl ll lr :
    l = NeighborNode tl ll lr -> (tl =? t0) = true -> insert_case t l r t0
| through_right tl ll lr tr rl rr :
    l = NeighborNode tl ll lr -> r = NeighborNode tr rl rr ->
    (tl =? t0) = false -> (tr =? t0) = true -> insert_case t l r t0
| new_right tl ll lr :
    l = NeighborNode tl ll lr -> r = NULL -> (tl =? t0) = false -> insert_case t l r t0
| third_son tl ll lr tr rl rr :
    l = NeighborNode tl ll lr -> r = NeighborNode tr rl rr ->
    (tl =? t0) = false -> (tr =? t0) = false -> insert_case t l r t0.

Lemma insert_cases t l r t0 :
  left_son_first (NeighborNode t l r) = true -> insert_case t l r t0.
Proof.
  intros Hok. destruct l as [|tl ll lr].
  - destruct r as [|tr rl rr]; [apply at_leaf; reflexivity | discriminate Hok].
  - destruct (tl =? t0) eqn:Hl.
    + eapply through_left; [reflexivity | exact Hl].
    + destruct r as [|tr rl rr].
      * eapply new_right; [reflexivity | reflexivity | exact Hl].
      * destruct (tr =? t0) eqn:Hr.
        -- eapply through_right; try reflexivity; assumption.
        -- eapply third_son; try reflexivity; assumption.
Qed.

Lemma left_son_first_sons t l r :
  left_son_first (NeighborNode t l r) = true ->
  left_son_first l = true /\ left_son_first r = true.
Proof.
  simpl. destruct l as [|tl ll lr], r as [|tr rl rr]; try discriminate.
  - intros _. split; reflexivity.
  - intros H. split; [exact H | reflexivity].
  - intros H. apply andb_prop in H. destruct H as [H Hr].
    apply andb_prop in H. destruct H as [_ Hl]. split; assumption.
Qed.

Lemma left_son_first_node t tl ll lr r :
  left_son_first (NeighborNode tl ll lr) = true ->
  left_son_first r = true ->
  (forall tr rl rr, r = NeighborNode tr rl rr -> (tl =? tr) = false) ->
  left_son_first (NeighborNode t (NeighborNode tl ll lr) r) = true.
Proof.
  intros Hl Hr Hne. destruct r as [|tr rl rr].
  - exact Hl.
  - change (left_son_first (NeighborNode t (NeighborNode tl ll lr) (NeighborNode tr rl rr)))
      with (negb (tl =? tr) && left_son_first (NeighborNode tl ll lr)
            && left_son_first (NeighborNode tr rl rr))%bool.
    rewrite (Hne tr rl rr eq_refl), Hl, Hr. reflexivity.
Qed.

(** Insertion keeps the shape of the tree. *)
Lemma insert_keeps_shape ts :
  forall node node',
    left_son_first node = true ->
    insert_into_multimesh_tree node ts = inr node' ->
    left_son_first node' = true.
Proof.
  induction ts as [|t0 rest IH]; intros node node' Hok Hins.
  - rewrite insert_into_multimesh_tree_nil in Hins. inversion Hins. subst. exact Hok.
  - destruct node as [|t l r].
    + simpl in Hins. inversion Hins. reflexivity.
    + destruct (left_son_first_sons _ _ _ Hok) as [Hl Hr].
      destruct (insert_cases t l r t0 Hok)
        as [-> -> | tl ll lr -> Htl | tl ll lr tr rl rr -> -> Htl Htr
            | tl ll lr -> -> Htl | tl ll lr tr rl rr -> -> Htl Htr].
      * rewrite insert_at_leaf in Hins.
        destruct (insert_into_multimesh_tree (NeighborNode t0 NULL NULL) rest)
          as [ex|son] eqn:Hson; [discriminate|].
        inversion Hins. subst node'.
        destruct (insert_keeps_node _ _ _ _ _ Hson) as [l' [r' ->]].
        apply left_son_first_node; [|reflexivity|discriminate].
        apply (IH (NeighborNode t0 NULL NULL) _ eq_refl Hson).
      * rewrite (insert_through_left _ _ _ _ _ _ _ Htl) in Hins.
        destruct (insert_into_multimesh_tree (NeighborNode tl ll lr) rest)
          as [ex|son] eqn:Hson; [discriminate|].
        inversion Hins. subst node'.
        destruct (insert_keeps_node _ _ _ _ _ Hson) as [l' [r' ->]].
        apply left_son_first_node; [apply (IH _ _ Hl Hson) | exact Hr |].
        intros tr rl rr ->. simpl in Hok.
        apply andb_prop in Hok. destruct Hok as [Hok _].
        apply andb_prop in Hok. destruct Hok as [Hne _].
        apply negb_true_iff in Hne. exact Hne.
      * rewrite (insert_through_right _ _ _ _ _ _ _ _ _ Htl Htr) in Hins.
        destruct (insert_into_multimesh_tree (NeighborNode tr rl rr) rest)
          as [ex|son] eqn:Hson; [discriminate|].
        inversion Hins. subst node'.
        destruct (insert_keeps_node _ _ _ _ _ Hson) as [l' [r' ->]].
        apply left_son_first_node; [exact Hl | apply (IH _ _ Hr Hson) |].
        intros tr' rl' rr' Heq. inversion Heq. subst.
        simpl in Hok.
        apply andb_prop in Hok. destruct Hok as [Hok _].
        apply andb_prop in Hok. destruct Hok as [Hne _].
        apply negb_true_iff in Hne. exact Hne.
      * rewrite (insert_new_right _ _ _ _ _ _ Htl) in Hins.
        destruct (insert_into_multimesh_tree (NeighborNode t0 NULL NULL) rest)
          as [ex|son] eqn:Hson; [discriminate|].
        inversion Hins. subst node'.
        destruct (insert_keeps_node _ _ _ _ _ Hson) as [l' [r' ->]].
        apply left_son_first_node; [exact Hl | apply (IH (NeighborNode t0 NULL NULL) _ eq_refl Hson) |].
        intros tr' rl' rr' Heq. inversion Heq. subst. exact Htl.
      * rewrite (insert_third_son _ _ _ _ _ _ _ _ _ Htl Htr) in Hins. discriminate.
Qed.

(** The equations of the lookup. *)
Lemma find_through_left t tl ll lr r t0 rest :
  (tl =? t0) = true ->
  find_node (t0 :: rest) (NeighborNode t (NeighborNode tl ll lr) r)
  = find_node rest (NeighborNode tl ll lr).
Proof. intros H. simpl. rewrite H. reflexivity. Qed.

Lemma find_through_right t tl ll lr tr rl rr t0 rest :
  (tl =? t0) = false -> (tr =? t0) = true ->
  find_node (t0 :: rest) (NeighborNode t (NeighborNode tl ll lr) (NeighborNode tr rl rr))
  = find_node rest (NeighborNode tr rl rr).
Proof. intros H1 H2. simpl. rewrite H1, H2. reflexivity. Qed.

Lemma find_not_found t l r t0 rest :
  (forall tl ll lr, l = NeighborNode tl ll lr -> (tl =? t0) = false) ->
  (forall tr rl rr, r = NeighborNode tr rl rr -> (tr =? t0) = false) ->
  find_node (t0 :: rest) (NeighborNode t l r)
  = inl (FatalError "Transformation of a central element not found in the multimesh tree.").
Proof.
  intros Hl Hr. simpl.
  destruct l as [|tl ll lr]; destruct r as [|tr rl rr];
    try rewrite (Hl _ _ _ eq_refl); try rewrite (Hr _ _ _ eq_refl); reflexivity.
Qed.

Lemma last_nonempty_default (a d d' : Z) (l : list Z) :
  last (a :: l) d = last (a :: l) d'.
Proof.
  revert a. induction l as [|b l IH]; intros a; [reflexivity|].
  change (last (b :: l) d = last (b :: l) d'). apply IH.
Qed.

Lemma last_cons (a d : Z) (l : list Z) : last (a :: l) d = last l a.
Proof.
  destruct l as [|b l]; [reflexivity|].
  change (last (b :: l) d = last (b :: l) a). apply last_nonempty_default.
Qed.

(** After its insertion a path is found, at a node that carries the last
    transformation of the path. *)
Lemma insert_then_find ts :
  forall t l r node',
    left_son_first (NeighborNode t l r) = true ->
    insert_into_multimesh_tree (NeighborNode t l r) ts = inr node' ->
    exists n, find_node ts node' = inr n
              /\ is_NULL n = false
              /\ get_transformation n = last ts t.
Proof.
  induction ts as [|t0 rest IH]; intros t l r node' Hok Hins.
  - simpl in Hins. inversion Hins. subst. exists (NeighborNode t l r).
    repeat split; reflexivity.
  - destruct (left_son_first_sons _ _ _ Hok) as [Hl Hr].
    rewrite last_cons.
    destruct (insert_cases t l r t0 Hok)
      as [-> -> | tl ll lr -> Htl | tl ll lr tr rl rr -> -> Htl Htr
          | tl ll lr -> -> Htl | tl ll lr tr rl rr -> -> Htl Htr].
    + rewrite insert_at_leaf in Hins.
      destruct (insert_into_multimesh_tree (NeighborNode t0 NULL NULL) rest)
        as [ex|son] eqn:Hson; [discriminate|].
      inversion Hins. subst node'.
      destruct (insert_keeps_node _ _ _ _ _ Hson) as [l' [r' ->]].
      rewrite find_through_left by apply Z.eqb_refl.
      apply (IH t0 NULL NULL _ eq_refl Hson).
    + rewrite (insert_through_left _ _ _ _ _ _ _ Htl) in Hins.
      destruct (insert_into_multimesh_tree (NeighborNode tl ll lr) rest)
        as [ex|son] eqn:Hson; [discriminate|].
      inversion Hins. subst node'.
      destruct (insert_keeps_node _ _ _ _ _ Hson) as [l' [r' ->]].
      rewrite find_through_left by exact Htl.
      apply Z.eqb_eq in Htl. subst t0.
      apply (IH tl ll lr _ Hl Hson).
    + rewrite (insert_through_right _ _ _ _ _ _ _ _ _ Htl Htr) in Hins.
      destruct (insert_into_multimesh_tree (NeighborNode tr rl rr) rest)
        as [ex|son] eqn:Hson; [discriminate|].
      inversion Hins. subst node'.
      destruct (insert_keeps_node _ _ _ _ _ Hson) as [l' [r' ->]].
      rewrite find_through_right by assumption.
      apply Z.eqb_eq in Htr. subst t0.
      apply (IH tr rl rr _ Hr Hson).
    + rewrite (insert_new_right _ _ _ _ _ _ Htl) in Hins.
      destruct (insert_into_multimesh_tree (NeighborNode t0 NULL NULL) rest)
        as [ex|son] eqn:Hson; [discriminate|].
      inversion Hins. subst node'.
      destruct (insert_keeps_node _ _ _ _ _ Hson) as [l' [r' ->]].
      rewrite find_through_right by (try exact Htl; apply Z.eqb_refl).
      apply (IH t0 NULL NULL _ eq_refl Hson).
    + rewrite (insert_third_son _ _ _ _ _ _ _ _ _ Htl Htr) in Hins. discriminate.
Qed.

(** A path that is found stays found when another path is inserted. *)
Lemma insert_keeps_found p :
  forall t l r q node' n,
    left_son_first (NeighborNode t l r) = true ->
    find_node p (NeighborNode t l r) = inr n ->
    insert_into_multimesh_tree (NeighborNode t l r) q = inr node' ->
    exists n', find_node p node' = inr n'
               /\ is_NULL n' = is_NULL n
               /\ get_transformation n' = get_transformation n.
Proof.
  induction p as [|p0 ps IH]; intros t l r q node' n Hok Hfind Hins.
  - simpl in Hfind. inversion Hfind. subst n.
    destruct (insert_keeps_node _ _ _ _ _ Hins) as [l' [r' ->]].
    exists (NeighborNode t l' r'). repeat split; reflexivity.
  - destruct q as [|q0 qs].
    { simpl in Hins. inversion Hins. subst node'. exists n. repeat split. exact Hfind. }
    destruct (left_son_first_sons _ _ _ Hok) as [Hl Hr].
    destruct (insert_cases t l r q0 Hok)
      as [-> -> | tl ll lr -> Htl | tl ll lr tr rl rr -> -> Htl Htr
          | tl ll lr -> -> Htl | tl ll lr tr rl rr -> -> Htl Htr].
    + rewrite find_not_found in Hfind by discriminate. discriminate.
    + rewrite (insert_through_left _ _ _ _ _ _ _ Htl) in Hins.
      destruct (insert_into_multimesh_tree (NeighborNode tl ll lr) qs)
        as [ex|son] eqn:Hson; [discriminate|].
      inversion Hins. subst node'.
      destruct (insert_keeps_node _ _ _ _ _ Hson) as [l' [r' ->]].
      destruct (tl =? p0) eqn:Hp.
      * rewrite find_through_left in Hfind by exact Hp.
        rewrite find_through_left by exact Hp.
        apply (IH tl ll lr qs _ n Hl Hfind Hson).
      * destruct r as [|tr rl rr].
        -- rewrite find_not_found in Hfind; [discriminate| |discriminate].
           intros ? ? ? Heq. inversion Heq. subst. exact Hp.
        -- destruct (tr =? p0) eqn:Hq.
           ++ rewrite find_through_right in Hfind by assumption.
              rewrite find_through_right by assumption.
              exists n. repeat split. exact Hfind.
           ++ rewrite find_not_found in Hfind; [discriminate| |];
                intros ? ? ? Heq; inversion Heq; subst; assumption.
    + rewrite (insert_through_right _ _ _ _ _ _ _ _ _ Htl Htr) in Hins.
      destruct (insert_into_multimesh_tree (NeighborNode tr rl rr) qs)
        as [ex|son] eqn:Hson; [discriminate|].
      inversion Hins. subst node'.
      destruct (insert_keeps_node _ _ _ _ _ Hson) as [l' [r' ->]].
      destruct (tl =? p0) eqn:Hp.
      * rewrite find_through_left in Hfind by exact Hp.
        rewrite find_through_left by exact Hp.
        exists n. repeat split. exact Hfind.
      * destruct (tr =? p0) eqn:Hq.
        -- rewrite find_through_right in Hfind by assumption.
           rewrite find_through_right by assumption.
           apply (IH tr rl rr qs _ n Hr Hfind Hson).
        -- rewrite find_not_found in Hfind; [discriminate| |];
             intros ? ? ? Heq; inversion Heq; subst; assumption.
    + rewrite (insert_new_right _ _ _ _ _ _ Htl) in Hins.
      destruct (insert_into_multimesh_tree (NeighborNode q0 NULL NULL) qs)
        as [ex|son] eqn:Hson; [discriminate|].
      inversion Hins. subst node'.
      destruct (insert_keeps_node _ _ _ _ _ Hson) as [l' [r' ->]].
      destruct (tl =? p0) eqn:Hp.
      * rewrite find_through_left in Hfind by exact Hp.
        rewrite find_through_left by exact Hp.
        exists n. repeat split. exact Hfind.
      * rewrite find_not_found in Hfind; [discriminate| |discriminate].
        intros ? ? ? Heq. inversion Heq. subst. exact Hp.
    + rewrite (insert_third_son _ _ _ _ _ _ _ _ _ Htl Htr) in Hins. discriminate.
Qed.

(** Inserting a path that is found changes nothing. *)
Lemma insert_found_path ts :
  forall t l r n,
    left_son_first (NeighborNode t l r) = true ->
    find_node ts (NeighborNode t l r) = inr n ->
    insert_into_multimesh_tree (NeighborNode t l r) ts = inr (NeighborNode t l r).
Proof.
  induction ts as [|t0 rest IH]; intros t l r n Hok Hfind.
  - reflexivity.
  - destruct (left_son_first_sons _ _ _ Hok) as [Hl Hr].
    destruct (insert_cases t l r t0 Hok)
      as [-> -> | tl ll lr -> Htl | tl ll lr tr rl rr -> -> Htl Htr
          | tl ll lr -> -> Htl | tl ll lr tr rl rr -> -> Htl Htr].
    + rewrite find_not_found in Hfind by discriminate. discriminate.
    + rewrite find_through_left in Hfind by exact Htl.
      rewrite (insert_through_left _ _ _ _ _ _ _ Htl).
      rewrite (IH tl ll lr n Hl Hfind). reflexivity.
    + rewrite find_through_right in Hfind by assumption.
      rewrite (insert_through_right _ _ _ _ _ _ _ _ _ Htl Htr).
      rewrite (IH tr rl rr n Hr Hfind). reflexivity.
    + rewrite find_not_found in Hfind; [discriminate| |discriminate].
      intros ? ? ? Heq. inversion Heq. subst. exact Htl.
    + rewrite find_not_found in Hfind; [discriminate| |];
        intros ? ? ? Heq; inversion Heq; subst; assumption.
Qed.

(** A node found in a tree of the shape is the root of a tree of the shape. *)
Lemma find_keeps_shape p :
  forall node n,
    left_son_first node = true ->
    find_node p node = inr n ->
    left_son_first n = true.
Proof.
  induction p as [|p0 ps IH]; intros node n Hok Hfind.
  - simpl in Hfind. inversion Hfind. subst. exact Hok.
  - destruct node as [|t l r]; [discriminate Hfind|].
    destruct (left_son_first_sons _ _ _ Hok) as [Hl Hr].
    simpl in Hfind.
    destruct l as [|tl ll lr].
    + destruct r as [|tr rl rr]; [discriminate|].
      destruct (tr =? p0); [|discriminate].
      apply (IH _ _ Hr Hfind).
    + destruct (tl =? p0).
      * apply (IH _ _ Hl Hfind).
      * destruct r as [|tr rl rr]; [discriminate|].
        destruct (tr =? p0); [|discriminate].
        apply (IH _ _ Hr Hfind).
Qed.

(** *** Loops over results *)

Lemma fold_result_error {A B : Type} (f : Result A -> B -> Result A) (l : list B) (ex : Exn) :
  (forall ex x, f (inl ex) x = inl ex) ->
  fold_left f l (inl ex) = inl ex.
Proof.
  intros Hf. induction l as [|x l IH]; simpl; [reflexivity|].
  rewrite Hf. exact IH.
Qed.

Lemma fold_result_invariant {A B : Type} (J : A -> Prop)
    (f : Result A -> B -> Result A) (l : list B) :
  (forall ex x, f (inl ex) x = inl ex) ->
  (forall a x a', In x l -> J a -> f (inr a) x = inr a' -> J a') ->
  forall a a', fold_left f l (inr a) = inr a' -> J a -> J a'.
Proof.
  intros Herr. induction l as [|x l IH]; intros Hkeep a a' Hfold Ha; simpl in Hfold.
  - inversion Hfold. subst. exact Ha.
  - destruct (f (inr a) x) as [ex|a1] eqn:Hstep.
    + rewrite fold_result_error in Hfold by exact Herr. discriminate.
    + apply (IH (fun a0 y a0' Hy => Hkeep a0 y a0' (or_intror Hy)) a1 a' Hfold).
      apply (Hkeep a x a1 (or_introl eq_refl) Ha Hstep).
Qed.

Lemma fold_result_establish {A B : Type} (J I : A -> Prop)
    (f : Result A -> B -> Result A) (l : list B) (x : B) :
  In x l ->
  (forall ex y, f (inl ex) y = inl ex) ->
  (forall a y a', J a -> f (inr a) y = inr a' -> J a') ->
  (forall a y a', J a -> I a -> f (inr a) y = inr a' -> I a') ->
  (forall a a', J a -> f (inr a) x = inr a' -> I a') ->
  forall a a', fold_left f l (inr a) = inr a' -> J a -> I a'.
Proof.
  intros Hin Herr HJ HI Hx.
  induction l as [|y l IH]; intros a a' Hfold Ha; [destruct Hin|].
  simpl in Hfold.
  destruct (f (inr a) y) as [ex|a1] eqn:Hstep.
  { rewrite fold_result_error in Hfold by exact Herr. discriminate. }
  assert (Ha1 : J a1) by (apply (HJ a y a1 Ha Hstep)).
  destruct Hin as [-> | Hin].
  - assert (Hi : I a1) by (apply (Hx a a1 Ha Hstep)).
    assert (HJI : J a' /\ I a').
    { apply (fold_result_invariant (fun b => J b /\ I b) f l Herr) with (a := a1).
      - intros b z b' _ [Hb1 Hb2] Hz. split; [eapply HJ | eapply HI]; eassumption.
      - exact Hfold.
      - split; assumption. }
    apply HJI.
  - apply (IH Hin a1 a' Hfold Ha1).
Qed.

Lemma fold_result_succeeds {A B : Type} (K : A -> Prop)
    (f : Result A -> B -> Result A) (l : list B) :
  (forall a x, In x l -> K a -> exists a', f (inr a) x = inr a' /\ K a') ->
  forall a, K a -> exists a', fold_left f l (inr a) = inr a' /\ K a'.
Proof.
  induction l as [|x l IH]; intros Hstep a Ha; simpl.
  - exists a. split; [reflexivity | exact Ha].
  - destruct (Hstep a x (or_introl eq_refl) Ha) as [a1 [-> Ha1]].
    apply IH; [|exact Ha1].
    intros b y Hy. apply Hstep. right. exact Hy.
Qed.

(** *** The tree [build_multimesh_tree] builds *)

Lemma insert_keeps_shaped ts node node' :
  shaped node ->
  insert_into_multimesh_tree node ts = inr node' ->
  shaped node'.
Proof.
  intros [Hn Hok] Hins. destruct node as [|t l r]; [discriminate Hn|].
  split.
  - destruct (insert_keeps_node _ _ _ _ _ Hins) as [l' [r' ->]]. reflexivity.
  - apply (insert_keeps_shape ts _ _ Hok Hins).
Qed.

Lemma insert_keeps_found_shaped p q node node' :
  shaped node -> found p node ->
  insert_into_multimesh_tree node q = inr node' ->
  found p node'.
Proof.
  intros [Hn Hok] [n [Hfind Hnn]] Hins. destruct node as [|t l r]; [discriminate Hn|].
  destruct (insert_keeps_found p t l r q node' n Hok Hfind Hins) as [n' [Hf' [Hnull _]]].
  exists n'. split; [exact Hf' | rewrite Hnull; exact Hnn].
Qed.

Lemma insert_makes_found ts node node' :
  shaped node ->
  insert_into_multimesh_tree node ts = inr node' ->
  found ts node'.
Proof.
  intros [Hn Hok] Hins. destruct node as [|t l r]; [discriminate Hn|].
  destruct (insert_then_find ts t l r node' Hok Hins) as [n [Hf [Hnn _]]].
  exists n. split; assumption.
Qed.

(** The loop of [build_multimesh_tree] over the neighbors of one search. *)
Lemma build_one_search_keeps_shaped ns js root root' :
  fold_left (fun (acc : Result NodePtr) j =>
               match acc with
               | inl ex => inl ex
               | inr root =>
                   match central_transformation ns j with
                   | Some transf => insert_into_multimesh_tree root transf
                   | None => inr root
                   end
               end) js (inr root) = inr root' ->
  shaped root -> shaped root'.
Proof.
  apply (fold_result_invariant shaped); [reflexivity|].
  intros a j a' _ Ha Hstep.
  destruct (central_transformation ns j) as [transf|].
  - apply (insert_keeps_shaped transf a a' Ha Hstep).
  - inversion Hstep. subst. exact Ha.
Qed.

Lemma build_one_search_keeps_found p ns js root root' :
  fold_left (fun (acc : Result NodePtr) j =>
               match acc with
               | inl ex => inl ex
               | inr root =>
                   match central_transformation ns j with
                   | Some transf => insert_into_multimesh_tree root transf
                   | None => inr root
                   end
               end) js (inr root) = inr root' ->
  shaped root -> found p root -> found p root'.
Proof.
  intros Hfold Hs Hf.
  assert (H : shaped root' /\ found p root'); [|apply H].
  revert Hfold.
  generalize (conj Hs Hf). generalize root'. generalize root.
  intros a a' Ha Hfold. revert Hfold Ha.
  apply (fold_result_invariant (fun b => shaped b /\ found p b)); [reflexivity|].
  intros b j b' _ [Hb1 Hb2] Hstep.
  destruct (central_transformation ns j) as [transf|].
  - split; [apply (insert_keeps_shaped transf b b' Hb1 Hstep)
           | apply (insert_keeps_found_shaped p transf b b' Hb1 Hb2 Hstep)].
  - inversion Hstep. subst. split; assumption.
Qed.

Lemma build_one_search_makes_found ns js j transf root root' :
  In j js ->
  central_transformation ns j = Some transf ->
  fold_left (fun (acc : Result NodePtr) j =>
               match acc with
               | inl ex => inl ex
               | inr root =>
                   match central_transformation ns j with
                   | Some transf => insert_into_multimesh_tree root transf
                   | None => inr root
                   end
               end) js (inr root) = inr root' ->
  shaped root -> found transf root'.
Proof.
  intros Hj Htransf.
  apply (fold_result_establish shaped (found transf) _ js j Hj); [reflexivity| | |].
  - intros a y a' Ha Hstep.
    destruct (central_transformation ns y) as [tr|].
    + apply (insert_keeps_shaped tr a a' Ha Hstep).
    + inversion Hstep. subst. exact Ha.
  - intros a y a' Ha Hf Hstep.
    destruct (central_transformation ns y) as [tr|].
    + apply (insert_keeps_found_shaped transf tr a a' Ha Hf Hstep).
    + inversion Hstep. subst. exact Hf.
  - intros a a' Ha Hstep. rewrite Htransf in Hstep.
    apply (insert_makes_found transf a a' Ha Hstep).
Qed.

Lemma build_keeps_shaped nss root root' :
  build_multimesh_tree root nss = inr root' ->
  shaped root -> shaped root'.
Proof.
  unfold build_multimesh_tree.
  apply (fold_result_invariant shaped).
  - intros ex [ns|]; reflexivity.
  - intros a [ns|] a' _ Ha Hstep.
    + destruct ((n_neighbors ns =? 1)
                && (Nat.eqb (List.length (central_transformations ns)) 0
                    || match central_transformation ns 0 with
                       | Some transf => Nat.eqb (List.length transf) 0
                       | None => true
                       end))%bool.
      * inversion Hstep. subst. exact Ha.
      * apply (build_one_search_keeps_shaped ns _ a a' Hstep Ha).
    + inversion Hstep. subst. exact Ha.
Qed.

Lemma found_nil node : shaped node -> found [] node.
Proof.
  intros [Hn _]. exists node. split; [reflexivity | exact Hn].
Qed.

Lemma central_transformation_none ns j :
  Nat.eqb (List.length (central_transformations ns)) 0 = true ->
  central_transformation ns j = None.
Proof.
  intros H. apply Nat.eqb_eq in H. unfold central_transformation.
  destruct (central_transformations ns); [destruct j; reflexivity | discriminate H].
Qed.

Lemma build_makes_found nss ns j transf root root' :
  In (Some ns) nss ->
  (j < Z.to_nat (n_neighbors ns))%nat ->
  central_transformation ns j = Some transf ->
  build_multimesh_tree root nss = inr root' ->
  shaped root -> found transf root'.
Proof.
  intros Hns Hj Htransf. unfold build_multimesh_tree.
  apply (fold_result_establish shaped (found transf) _ nss (Some ns) Hns).
  - intros ex [ns'|]; reflexivity.
  - intros a [ns'|] a' Ha Hstep.
    + destruct ((n_neighbors ns' =? 1)
                && (Nat.eqb (List.length (central_transformations ns')) 0
                    || match central_transformation ns' 0 with
                       | Some transf => Nat.eqb (List.length transf) 0
                       | None => true
                       end))%bool.
      * inversion Hstep. subst. exact Ha.
      * apply (build_one_search_keeps_shaped ns' _ a a' Hstep Ha).
    + inversion Hstep. subst. exact Ha.
  - intros a [ns'|] a' Ha Hf Hstep.
    + destruct ((n_neighbors ns' =? 1)
                && (Nat.eqb (List.length (central_transformations ns')) 0
                    || match central_transformation ns' 0 with
                       | Some transf => Nat.eqb (List.length transf) 0
                       | None => true
                       end))%bool.
      * inversion Hstep. subst. exact Hf.
      * apply (build_one_search_keeps_found transf ns' _ a a' Hstep Ha Hf).
    + inversion Hstep. subst. exact Hf.
  - intros a a' Ha Hstep.
    destruct ((n_neighbors ns =? 1)
              && (Nat.eqb (List.length (central_transformations ns)) 0
                  || match central_transformation ns 0 with
                     | Some transf => Nat.eqb (List.length transf) 0
                     | None => true
                     end))%bool eqn:Hskip.
    + inversion Hstep. subst a'.
      apply andb_prop in Hskip. destruct Hskip as [Hone Hempty].
      apply Z.eqb_eq in Hone. rewrite Hone in Hj.
      assert (j = 0%nat) by (change (Z.to_nat 1) with 1%nat in Hj; lia). subst j.
      apply orb_prop in Hempty. destruct Hempty as [Hempty | Hempty].
      * rewrite (central_transformation_none ns 0%nat Hempty) in Htransf. discriminate.
      * rewrite Htransf in Hempty. apply Nat.eqb_eq in Hempty.
        destruct transf; [|discriminate Hempty].
        apply found_nil. exact Ha.
    + apply (build_one_search_makes_found ns (seq 0 (Z.to_nat (n_neighbors ns))) j transf a a');
        try assumption.
      apply in_seq. lia.
Qed.

(** *** Paths over two transformations *)

Lemma transformations_among_node a b t l r :
  transformations_among a b (NeighborNode t l r) = true ->
  (t = a \/ t = b)
  /\ transformations_among a b l = true /\ transformations_among a b r = true.
Proof.
  simpl. intros H.
  apply andb_prop in H. destruct H as [H Hr].
  apply andb_prop in H. destruct H as [Ht Hl].
  apply orb_prop in Ht.
  repeat split; try assumption.
  destruct Ht as [Ht | Ht]; apply Z.eqb_eq in Ht; [left | right]; exact Ht.
Qed.

Lemma transformations_among_intro a b t l r :
  t = a \/ t = b ->
  transformations_among a b l = true -> transformations_among a b r = true ->
  transformations_among a b (NeighborNode t l r) = true.
Proof.
  intros Ht Hl Hr. simpl. rewrite Hl, Hr.
  destruct Ht as [-> | ->]; rewrite Z.eqb_refl; [reflexivity|].
  rewrite orb_true_r. reflexivity.
Qed.

Lemma insert_two_transformations a b ts :
  forall t l r,
    left_son_first (NeighborNode t l r) = true ->
    transformations_among a b l = true ->
    transformations_among a b r = true ->
    Forall (fun c => c = a \/ c = b) ts ->
    exists l' r',
      insert_into_multimesh_tree (NeighborNode t l r) ts = inr (NeighborNode t l' r')
      /\ transformations_among a b l' = true
      /\ transformations_among a b r' = true.
Proof.
  induction ts as [|t0 rest IH]; intros t l r Hok Hl Hr Hts.
  - exists l, r. repeat split; assumption.
  - inversion Hts as [|? ? Ht0 Hrest]. subst.
    destruct (left_son_first_sons _ _ _ Hok) as [Hokl Hokr].
    destruct (insert_cases t l r t0 Hok)
      as [-> -> | tl ll lr -> Htl | tl ll lr tr rl rr -> -> Htl Htr
          | tl ll lr -> -> Htl | tl ll lr tr rl rr -> -> Htl Htr].
    + rewrite insert_at_leaf.
      destruct (IH t0 NULL NULL eq_refl eq_refl eq_refl Hrest) as [l' [r' [-> [Hl' Hr']]]].
      exists (NeighborNode t0 l' r'), NULL. repeat split.
      apply transformations_among_intro; assumption.
    + rewrite (insert_through_left _ _ _ _ _ _ _ Htl).
      destruct (transformations_among_node _ _ _ _ _ Hl) as [Hatl [Hll Hlr]].
      destruct (IH tl ll lr Hokl Hll Hlr Hrest) as [l' [r' [-> [Hl' Hr']]]].
      exists (NeighborNode tl l' r'), r. repeat split; [|exact Hr].
      apply transformations_among_intro; assumption.
    + rewrite (insert_through_right _ _ _ _ _ _ _ _ _ Htl Htr).
      destruct (transformations_among_node _ _ _ _ _ Hr) as [Hatr [Hrl Hrr]].
      destruct (IH tr rl rr Hokr Hrl Hrr Hrest) as [l' [r' [-> [Hl' Hr']]]].
      exists (NeighborNode tl ll lr), (NeighborNode tr l' r'). repeat split; [exact Hl|].
      apply transformations_among_intro; assumption.
    + rewrite (insert_new_right _ _ _ _ _ _ Htl).
      destruct (IH t0 NULL NULL eq_refl eq_refl eq_refl Hrest) as [l' [r' [-> [Hl' Hr']]]].
      exists (NeighborNode tl ll lr), (NeighborNode t0 l' r'). repeat split; [exact Hl|].
      apply transformations_among_intro; assumption.
    + exfalso.
      destruct (transformations_among_node _ _ _ _ _ Hl) as [Hatl _].
      destruct (transformations_among_node _ _ _ _ _ Hr) as [Hatr _].
      simpl in Hok.
      apply andb_prop in Hok. destruct Hok as [Hok _].
      apply andb_prop in Hok. destruct Hok as [Hne _].
      apply negb_true_iff in Hne.
      apply Z.eqb_neq in Hne, Htl, Htr. lia.
Qed.

Lemma insert_two_transformations_shaped a b ts node :
  shaped node /\ sons_among a b node ->
  Forall (fun c => c = a \/ c = b) ts ->
  exists node',
    insert_into_multimesh_tree node ts = inr node'
    /\ (shaped node' /\ sons_among a b node').
Proof.
  intros [[Hn Hok] [Hl Hr]] Hts. destruct node as [|t l r]; [discriminate Hn|].
  destruct (insert_two_transformations a b ts t l r Hok Hl Hr Hts) as [l' [r' [Hins [Hl' Hr']]]].
  exists (NeighborNode t l' r'). split; [exact Hins|].
  split; [|split; assumption].
  apply (insert_keeps_shaped ts (NeighborNode t l r)); [split; assumption | exact Hins].
Qed.

Lemma build_two_transformations a b nss root :
  (forall ns j transf,
      In (Some ns) nss -> central_transformation ns j = Some transf ->
      Forall (fun c => c = a \/ c = b) transf) ->
  shaped root /\ sons_among a b root ->
  exists root',
    build_multimesh_tree root nss = inr root'
    /\ (shaped root' /\ sons_among a b root').
Proof.
  intros Htransf. unfold build_multimesh_tree.
  apply (fold_result_succeeds (fun node => shaped node /\ sons_among a b node)).
  intros node [ns|] Hns Hnode.
  - destruct ((n_neighbors ns =? 1)
              && (Nat.eqb (List.length (central_transformations ns)) 0
                  || match central_transformation ns 0 with
                     | Some transf => Nat.eqb (List.length transf) 0
                     | None => true
                     end))%bool.
    + exists node. split; [reflexivity | exact Hnode].
    + apply (fold_result_succeeds (fun node => shaped node /\ sons_among a b node));
        [|exact Hnode].
      intros node1 j _ Hnode1.
      destruct (central_transformation ns j) as [transf|] eqn:Hj.
      * apply insert_two_transformations_shaped; [exact Hnode1|].
        apply (Htransf ns j transf Hns Hj).
      * exists node1. split; [reflexivity | exact Hnode1].
  - exists node. split; [reflexivity | exact Hnode].
Qed.

(** *** Traversals *)

Lemma running_not_nil (init : Running) (b : list Z) : init ++ [b] <> [].
Proof. destruct init; discriminate. Qed.

Lemma back_push_back_app x (init : Running) b :
  back_push_back x (init ++ [b]) = Some (init ++ [b ++ [x]]).
Proof.
  unfold back_push_back. rewrite removelast_last, last_last.
  destruct (init ++ [b]) eqn:E; [destruct (running_not_nil _ _ E) | reflexivity].
Qed.

Lemma back_pop_back_app x (init : Running) b :
  back_pop_back (init ++ [b ++ [x]]) = Some (init ++ [b]).
Proof.
  unfold back_pop_back. rewrite removelast_last, last_last, removelast_last.
  destruct (init ++ [b ++ [x]]) eqn:E; [destruct (running_not_nil _ _ E)|].
  destruct (b ++ [x]) eqn:E'; [destruct b; discriminate | reflexivity].
Qed.

Lemma pop_back_app (init : Running) b : pop_back (init ++ [b]) = Some init.
Proof.
  unfold pop_back. rewrite removelast_last.
  destruct (init ++ [b]) eqn:E; [destruct (running_not_nil _ _ E) | reflexivity].
Qed.

Lemma complete_with_leaf_app x (init : Running) b :
  complete_with_leaf x (init ++ [b]) = Some (init ++ [b ++ [x]] ++ [b]).
Proof.
  unfold complete_with_leaf. rewrite removelast_last, last_last.
  destruct (init ++ [b]) eqn:E; [destruct (running_not_nil _ _ E) | reflexivity].
Qed.

Lemma traverse_multimesh_tree_node t l r running :
  traverse_multimesh_tree (NeighborNode t l r) running
  = if t =? 0 then
      match (match (if is_NULL l then Some running else traverse_multimesh_tree l running) with
             | None => None
             | Some running =>
                 if is_NULL r then Some running else traverse_multimesh_tree r running
             end) with
      | None => None
      | Some running => pop_back running
      end
    else if (is_NULL l && is_NULL r)%bool then complete_with_leaf t running
    else
      match back_push_back t running with
      | None => None
      | Some running =>
          match (match (if is_NULL l then Some running
                        else traverse_multimesh_tree l running) with
                 | None => None
                 | Some running =>
                     if is_NULL r then Some running else traverse_multimesh_tree r running
                 end) with
          | None => None
          | Some running => back_pop_back running
          end
      end.
Proof. reflexivity. Qed.

Lemma leaf_paths_node t l r :
  leaf_paths (NeighborNode t l r)
  = if (is_NULL l && is_NULL r)%bool then [[t]]
    else map (cons t) (leaf_paths l ++ leaf_paths r).
Proof. reflexivity. Qed.

(** The traversal of a son that may be absent. *)
Lemma traverse_son son :
  (is_NULL son = false ->
   forall init b,
     traverse_multimesh_tree son (init ++ [b])
     = Some (init ++ map (app b) (leaf_paths son) ++ [b])) ->
  forall init b,
    (if is_NULL son then Some (init ++ [b]) else traverse_multimesh_tree son (init ++ [b]))
    = Some (init ++ map (app b) (leaf_paths son) ++ [b]).
Proof.
  intros H init b. destruct son as [|t l r].
  - reflexivity.
  - apply (H eq_refl).
Qed.

Lemma traverse_sons l r :
  (is_NULL l = false ->
   forall init b,
     traverse_multimesh_tree l (init ++ [b])
     = Some (init ++ map (app b) (leaf_paths l) ++ [b])) ->
  (is_NULL r = false ->
   forall init b,
     traverse_multimesh_tree r (init ++ [b])
     = Some (init ++ map (app b) (leaf_paths r) ++ [b])) ->
  forall init b,
    match (if is_NULL l then Some (init ++ [b]) else traverse_multimesh_tree l (init ++ [b])) with
    | None => None
    | Some running =>
        if is_NULL r then Some running else traverse_multimesh_tree r running
    end
    = Some (init ++ map (app b) (leaf_paths l ++ leaf_paths r) ++ [b]).
Proof.
  intros Hl Hr init b.
  rewrite (traverse_son l Hl).
  rewrite (app_assoc init).
  rewrite (traverse_son r Hr).
  rewrite map_app, <- !app_assoc. reflexivity.
Qed.

Lemma traverse_below_root node :
  is_NULL node = false ->
  nonzero_transformations node = true ->
  forall init b,
    traverse_multimesh_tree node (init ++ [b])
    = Some (init ++ map (app b) (leaf_paths node) ++ [b]).
Proof.
  induction node as [|t l IHl r IHr]; intros Hn Hnz init b; [discriminate Hn|].
  simpl in Hnz.
  apply andb_prop in Hnz. destruct Hnz as [Hnz Hnzr].
  apply andb_prop in Hnz. destruct Hnz as [Ht Hnzl].
  apply negb_true_iff in Ht.
  rewrite traverse_multimesh_tree_node, Ht, leaf_paths_node.
  destruct (is_NULL l && is_NULL r)%bool eqn:Hleaf.
  - rewrite complete_with_leaf_app. reflexivity.
  - rewrite back_push_back_app.
    rewrite (traverse_sons l r (fun H => IHl H Hnzl) (fun H => IHr H Hnzr)).
    rewrite (app_assoc init), back_pop_back_app, <- app_assoc.
    rewrite map_map. do 3 f_equal.
    apply map_ext. intros p. rewrite <- app_assoc. reflexivity.
Qed.

Lemma map_app_nil (l : list (list Z)) : map (app []) l = l.
Proof.
  transitivity (map (fun p : list Z => p) l); [apply map_ext; reflexivity | apply map_id].
Qed.

(** The traversal of a subtree, with the two running vectors side by side. *)
Lemma traverse_multimesh_subtree_node t l r central neighbor edge_info active_edge mode :
  traverse_multimesh_subtree (NeighborNode t l r) central neighbor edge_info active_edge mode
  = if (is_NULL l && is_NULL r)%bool then
      match complete_with_leaf t central,
            complete_with_leaf (neighbor_transformation t edge_info active_edge mode) neighbor with
      | Some central, Some neighbor => Some (central, neighbor)
      | _, _ => None
      end
    else
      match back_push_back t central,
            back_push_back (neighbor_transformation t edge_info active_edge mode) neighbor with
      | Some central, Some neighbor =>
          match (if is_NULL l then Some (central, neighbor)
                 else traverse_multimesh_subtree l central neighbor
                        edge_info active_edge mode) with
          | None => None
          | Some (central, neighbor) =>
              match (if is_NULL r then Some (central, neighbor)
                     else traverse_multimesh_subtree r central neighbor
                            edge_info active_edge mode) with
              | None => None
              | Some (central, neighbor) =>
                  match back_pop_back central, back_pop_back neighbor with
                  | Some central, Some neighbor => Some (central, neighbor)
                  | _, _ => None
                  end
              end
          end
      | _, _ => None
      end.
Proof. reflexivity. Qed.

Lemma traverse_subtree_son edge_info active_edge mode son :
  (is_NULL son = false ->
   forall ic bc inn bn,
     traverse_multimesh_subtree son (ic ++ [bc]) (inn ++ [bn]) edge_info active_edge mode
     = Some (ic ++ map (app bc) (leaf_paths son) ++ [bc],
             inn ++ map (fun p => bn ++ map (fun t => neighbor_transformation t edge_info
                                                        active_edge mode) p)
                        (leaf_paths son) ++ [bn])) ->
  forall ic bc inn bn,
    (if is_NULL son then Some (ic ++ [bc], inn ++ [bn])
     else traverse_multimesh_subtree son (ic ++ [bc]) (inn ++ [bn]) edge_info active_edge mode)
    = Some (ic ++ map (app bc) (leaf_paths son) ++ [bc],
            inn ++ map (fun p => bn ++ map (fun t => neighbor_transformation t edge_info
                                                       active_edge mode) p)
                       (leaf_paths son) ++ [bn]).
Proof.
  intros H ic bc inn bn. destruct son as [|t l r].
  - reflexivity.
  - apply (H eq_refl).
Qed.

Lemma traverse_subtree_paths edge_info active_edge mode node :
  is_NULL node = false ->
  forall ic bc inn bn,
    traverse_multimesh_subtree node (ic ++ [bc]) (inn ++ [bn]) edge_info active_edge mode
    = Some (ic ++ map (app bc) (leaf_paths node) ++ [bc],
            inn ++ map (fun p => bn ++ map (fun t => neighbor_transformation t edge_info
                                                       active_edge mode) p)
                       (leaf_paths node) ++ [bn]).
Proof.
  induction node as [|t l IHl r IHr]; intros Hn ic bc inn bn; [discriminate Hn|].
  rewrite traverse_multimesh_subtree_node, leaf_paths_node.
  destruct (is_NULL l && is_NULL r)%bool eqn:Hleaf.
  - rewrite !complete_with_leaf_app. reflexivity.
  - rewrite !back_push_back_app.
    rewrite (traverse_subtree_son edge_info active_edge mode l IHl).
    rewrite (app_assoc ic), (app_assoc inn).
    rewrite (traverse_subtree_son edge_info active_edge mode r IHr).
    rewrite (app_assoc (ic ++ _)), (app_assoc (inn ++ _)).
    rewrite !back_pop_back_app.
    rewrite <- !app_assoc, !map_app, !map_map, <- !app_assoc.
    assert (E1 : forall X : list (list Z),
               map (app (bc ++ [t])) X = map (fun x => bc ++ t :: x) X).
    { intros X. apply map_ext. intros p. rewrite <- app_assoc. reflexivity. }
    assert (E2 : forall X : list (list Z),
               map (fun p => (bn ++ [neighbor_transformation t edge_info active_edge mode])
                             ++ map (fun t => neighbor_transformation t edge_info
                                                active_edge mode) p) X
               = map (fun x => bn ++ map (fun t => neighbor_transformation t edge_info
                                                     active_edge mode) (t :: x)) X).
    { intros X. apply map_ext. intros p. rewrite <- app_assoc. reflexivity. }
    rewrite !E1, !E2. reflexivity.
Qed.

End MultimeshTree.

Section MultimeshTreeProperties.

Lemma fresh_root_shaped : shaped (NeighborNode 0 NULL NULL).
Proof. split; reflexivity. Qed.

Lemma lone_right_son_excluded node :
  left_son_first node = true ->
  is_NULL (get_left_son node) = true -> is_NULL (get_right_son node) = true.
Proof.
  destruct node as [|t l r]; [reflexivity|].
  destruct l as [|tl ll lr]; [|discriminate].
  destruct r as [|tr rl rr]; [reflexivity | discriminate].
Qed.

(** X1: in the tree [build_multimesh_tree] builds from a fresh root, no node
    that [find_node] can return has a right son without a left son: the
    check "Only one son (right) not null" of [update_ns_subtree] cannot fail
    on it. *)
Theorem built_tree_has_no_lone_right_son
    (nss : list (option NeighborSearch)) (root' : NodePtr) (p : list Z) (node : NodePtr) :
  build_multimesh_tree (NeighborNode 0 NULL NULL) nss = inr root' ->
  find_node p root' = inr node ->
  is_NULL (get_left_son node) = true ->
  is_NULL (get_right_son node) = true.
Proof.
  intros Hbuild Hfind.
  apply lone_right_son_excluded.
  apply (find_keeps_shape p root' node); [|exact Hfind].
  apply (build_keeps_shaped nss _ _ Hbuild fresh_root_shaped).
Qed.

Lemma built_tree_has_no_lone_right_son_witness :
  is_NULL (get_right_son (NeighborNode 1 NULL NULL)) = true.
Proof.
  apply (built_tree_has_no_lone_right_son
           [Some ex_ns_split; Some ex_ns_whole] ex_built_tree [1] (NeighborNode 1 NULL NULL));
    reflexivity.
Defined.

(** X2: a path inserted into a tree of the shape is found afterwards by
    [find_node], at an existing node that carries the last transformation
    of the path (the node itself for the empty path). *)
Theorem inserted_path_is_found (node : NodePtr) (ts : list Z) (node' : NodePtr) :
  shaped node ->
  insert_into_multimesh_tree node ts = inr node' ->
  exists n, find_node ts node' = inr n
            /\ is_NULL n = false
            /\ get_transformation n = last ts (get_transformation node).
Proof.
  intros [Hn Hok] Hins. destruct node as [|t l r]; [discriminate Hn|].
  apply (insert_then_find ts t l r node' Hok Hins).
Qed.

Lemma inserted_path_is_found_witness :
  exists n, find_node [2; 4] (NeighborNode 0 (NeighborNode 1 NULL NULL)
                                (NeighborNode 2 (NeighborNode 4 NULL NULL) NULL)) = inr n
            /\ is_NULL n = false
            /\ get_transformation n = 4.
Proof.
  apply (inserted_path_is_found (NeighborNode 0 (NeighborNode 1 NULL NULL) NULL) [2; 4]);
    [split; reflexivity | reflexivity].
Defined.

(** X3: a path that [find_node] finds in a tree of the shape is still found
    after any successful insertion, at a node with the same transformation. *)
Theorem insertion_keeps_paths_found
    (node : NodePtr) (p q : list Z) (node' n : NodePtr) :
  shaped node ->
  find_node p node = inr n ->
  insert_into_multimesh_tree node q = inr node' ->
  exists n', find_node p node' = inr n'
             /\ is_NULL n' = is_NULL n
             /\ get_transformation n' = get_transformation n.
Proof.
  intros [Hn Hok] Hfind Hins. destruct node as [|t l r]; [discriminate Hn|].
  apply (insert_keeps_found p t l r q node' n Hok Hfind Hins).
Qed.

Lemma insertion_keeps_paths_found_witness :
  exists n', find_node [1; 2] (NeighborNode 0 (NeighborNode 1 (NeighborNode 2 (NeighborNode 5 NULL NULL) NULL)
                                                              (NeighborNode 3 NULL NULL))
                                               (NeighborNode 2 NULL NULL)) = inr n'
             /\ is_NULL n' = is_NULL (NeighborNode 2 NULL NULL)
             /\ get_transformation n' = get_transformation (NeighborNode 2 NULL NULL).
Proof.
  apply (insertion_keeps_paths_found ex_tree [1; 2] [1; 2; 5]);
    [split; reflexivity | reflexivity | reflexivity].
Defined.

(** X4: inserting a path that [find_node] already finds leaves the tree as
    it is; hence a path inserted twice is inserted once. *)
Theorem inserting_a_found_path_changes_nothing (node : NodePtr) (ts : list Z) :
  shaped node ->
  (forall n, find_node ts node = inr n ->
             insert_into_multimesh_tree node ts = inr node)
  /\ (forall node', insert_into_multimesh_tree node ts = inr node' ->
                    insert_into_multimesh_tree node' ts = inr node').
Proof.
  intros [Hn Hok]. destruct node as [|t l r]; [discriminate Hn|]. split.
  - intros n Hfind. apply (insert_found_path ts t l r n Hok Hfind).
  - intros node' Hins.
    destruct (insert_then_find ts t l r node' Hok Hins) as [n [Hfind _]].
    destruct (insert_keeps_node _ _ _ _ _ Hins) as [l' [r' ->]].
    apply (insert_found_path ts t l' r' n); [|exact Hfind].
    apply (insert_keeps_shape ts _ _ Hok Hins).
Qed.

Lemma inserting_a_found_path_changes_nothing_witness :
  insert_into_multimesh_tree ex_tree [1; 3] = inr ex_tree.
Proof.
  apply (proj1 (inserting_a_found_path_changes_nothing ex_tree [1; 3]
                  (conj eq_refl eq_refl)) (NeighborNode 3 NULL NULL)).
  reflexivity.
Defined.

(** X5: when [build_multimesh_tree] succeeds on a fresh root, every central
    transformation of every present search, at an index below the number
    of neighbors of the search, is found in the tree by [find_node]: the
    lookups of [update_neighbor_search] do not end in "Transformation of a
    central element not found in the multimesh tree". *)
Theorem built_tree_holds_every_central_transformation
    (nss : list (option NeighborSearch)) (root' : NodePtr)
    (ns : NeighborSearch) (j : nat) (transf : list Z) :
  build_multimesh_tree (NeighborNode 0 NULL NULL) nss = inr root' ->
  In (Some ns) nss ->
  (j < Z.to_nat (n_neighbors ns))%nat ->
  central_transformation ns j = Some transf ->
  exists node, find_node transf root' = inr node /\ is_NULL node = false.
Proof.
  intros Hbuild Hns Hj Htransf.
  apply (build_makes_found nss ns j transf _ root' Hns Hj Htransf Hbuild fresh_root_shaped).
Qed.

Lemma built_tree_holds_every_central_transformation_witness :
  exists node, find_node [2; 1] ex_built_tree = inr node /\ is_NULL node = false.
Proof.
  apply (built_tree_holds_every_central_transformation
           [Some ex_ns_split; Some ex_ns_whole] ex_built_tree ex_ns_split 1 [2; 1]).
  - reflexivity.
  - left. reflexivity.
  - vm_compute. lia.
  - reflexivity.
Defined.

(** X6: when all central transformations of the present searches are made
    of two transformations only, [build_multimesh_tree] on a fresh root
    does not fail: "More than two possible sons" needs a third one. *)
Theorem two_transformations_never_overflow_a_node
    (a b : Z) (nss : list (option NeighborSearch)) :
  (forall ns j transf,
      In (Some ns) nss -> central_transformation ns j = Some transf ->
      Forall (fun c => c = a \/ c = b) transf) ->
  exists root', build_multimesh_tree (NeighborNode 0 NULL NULL) nss = inr root'.
Proof.
  intros Htransf.
  destruct (build_two_transformations a b nss (NeighborNode 0 NULL NULL) Htransf)
    as [root' [Hbuild _]].
  - split; [exact fresh_root_shaped | split; reflexivity].
  - exists root'. exact Hbuild.
Qed.

Lemma two_transformations_never_overflow_a_node_witness :
  exists root',
    build_multimesh_tree (NeighborNode 0 NULL NULL) [Some ex_ns_split; Some ex_ns_whole]
    = inr root'.
Proof.
  apply (two_transformations_never_overflow_a_node 1 2).
  intros ns j transf [Hns | [Hns | []]] Hj; inversion Hns; subst ns.
  - destruct j as [|[|[|j]]]; simpl in Hj.
    + inversion Hj. repeat constructor.
    + inversion Hj. repeat constructor; right; reflexivity.
    + inversion Hj. repeat constructor; right; reflexivity.
    + destruct j; discriminate Hj.
  - destruct j; discriminate Hj.
Defined.

(** X7: for a root (transformation 0) below which no node carries the
    transformation 0, [get_multimesh_neighbors_transformations] yields the
    ways from the sons of the root down to the leaves, from left to right;
    for a root without sons it yields the empty vector. *)
Theorem multimesh_neighbors_transformations_are_leaf_paths (l r : NodePtr) :
  nonzero_transformations l = true ->
  nonzero_transformations r = true ->
  get_multimesh_neighbors_transformations (NeighborNode 0 l r)
  = Some (leaf_paths l ++ leaf_paths r).
Proof.
  intros Hl Hr. unfold get_multimesh_neighbors_transformations.
  rewrite traverse_multimesh_tree_node. rewrite Z.eqb_refl.
  change [[]] with (@nil (list Z) ++ [[]]).
  rewrite (traverse_sons l r (fun H => traverse_below_root l H Hl)
                             (fun H => traverse_below_root r H Hr)).
  rewrite app_nil_l, pop_back_app, map_app_nil. reflexivity.
Qed.

Lemma multimesh_neighbors_transformations_are_leaf_paths_witness :
  get_multimesh_neighbors_transformations ex_tree = Some [[1; 2]; [1; 3]; [2]].
Proof.
  apply (multimesh_neighbors_transformations_are_leaf_paths
           (NeighborNode 1 (NeighborNode 2 NULL NULL) (NeighborNode 3 NULL NULL))
           (NeighborNode 2 NULL NULL)); reflexivity.
Defined.

(** X8: [traverse_multimesh_subtree] on an existing node, started with
    non-empty running vectors, adds one entry to each of them for every
    leaf below the node: the central entry is the running central
    transformation followed by the way down to the leaf, the neighbor entry
    is the running neighbor transformation followed by the code of every
    node on that way; the last entries are the running ones again. *)
Theorem subtree_traversal_lists_leaf_paths
    (node : NodePtr) (edge_info : NeighborEdgeInfo) (active_edge : Z) (mode : ElementMode)
    (central : Running) (running_central : list Z)
    (neighbor : Running) (running_neighbor : list Z) :
  is_NULL node = false ->
  traverse_multimesh_subtree node (central ++ [running_central])
    (neighbor ++ [running_neighbor]) edge_info active_edge mode
  = Some (central ++ map (app running_central) (leaf_paths node) ++ [running_central],
          neighbor
          ++ map (fun p => running_neighbor
                           ++ map (fun t => neighbor_transformation t edge_info
                                              active_edge mode) p)
                 (leaf_paths node)
          ++ [running_neighbor]).
Proof.
  intros Hn. apply traverse_subtree_paths. exact Hn.
Qed.

Lemma subtree_traversal_lists_leaf_paths_witness :
  traverse_multimesh_subtree
    (NeighborNode 1 (NeighborNode 2 NULL NULL) (NeighborNode 3 NULL NULL))
    [[7]] [[5]] ex_edge_info 1 HERMES_MODE_TRIANGLE
  = Some ([[7; 1; 2]; [7; 1; 3]; [7]], [[5; 0; 2]; [5; 0; 2]; [5]]).
Proof.
  apply (subtree_traversal_lists_leaf_paths
           (NeighborNode 1 (NeighborNode 2 NULL NULL) (NeighborNode 3 NULL NULL))
           ex_edge_info 1 HERMES_MODE_TRIANGLE [] [7] [] [5]).
  reflexivity.
Defined.

End MultimeshTreeProperties.

(** ** The events of an assembly pass, by the outputs given *)

Section GuardedEvents.

Context `{X : Collaborators}.

Variable P : Event -> Prop.
Variables mat rhs : bool.

Hypothesis G_matrix_ord : mat = true -> forall i j, P (EvMatrixOrd i j).
Hypothesis G_matrix_value : mat = true -> forall q j i, P (EvMatrixValue q j i).
Hypothesis G_mat_add :
  mat = true ->
  forall m n M rows cols,
    List.length rows = m -> List.length cols = n -> P (MatAdd m n M rows cols).
Hypothesis G_vector_ord : rhs = true -> forall i, P (EvVectorOrd i).
Hypothesis G_vector_value : rhs = true -> forall q i, P (EvVectorValue q i).
Hypothesis G_rhs_add : rhs = true -> forall row val, 0 <= row -> P (RhsAdd row val).
Hypothesis G_mat_structure :
  mat = true ->
  P MatZero /\ P MatFree /\ (forall n, P (MatPrealloc n))
  /\ (forall r c, 0 <= r -> 0 <= c -> P (MatPreAdd r c))
  /\ P MatAlloc /\ P AssignDofs /\ P MatFinish.
Hypothesis G_rhs_structure :
  rhs = true -> (forall n, P (RhsAlloc n)) /\ P RhsZero /\ P RhsFinish.

Lemma guarded_matrix_order dp spaces form refmaps u_ext st :
  mat = true ->
  Forall P (snd (calc_order_matrix_form dp spaces form refmaps u_ext st)).
Proof.
  intros Hm. unfold calc_order_matrix_form.
  destruct (is_fvm dp); [constructor|].
  destruct (init_ext_orders _ _ _ _ _). simpl.
  constructor; [apply (G_matrix_ord Hm) | constructor].
Qed.

Lemma guarded_vector_order dp spaces form refmaps u_ext st :
  rhs = true ->
  Forall P (snd (calc_order_vector_form dp spaces form refmaps u_ext st)).
Proof.
  intros Hr. unfold calc_order_vector_form.
  destruct (is_fvm dp); [constructor|].
  destruct (init_ext_orders _ _ _ _ _). simpl.
  constructor; [apply (G_vector_ord Hr) | constructor].
Qed.

Lemma guarded_mfvol_step dp spaces ctx st form :
  mat = true -> Forall P (mfvol_step dp spaces ctx st form).
Proof.
  intros Hm. unfold mfvol_step.
  destruct (negb _); [constructor|].
  pose proof (guarded_matrix_order dp spaces form (current_refmaps ctx)
                (current_u_ext ctx) st Hm) as Hc.
  destruct (calc_order_matrix_form _ _ _ _ _ _) as [order ord_calls].
  apply Forall_app. split; [exact Hc|].
  apply (assemble_matrix_form_events P (G_matrix_value Hm) (G_mat_add Hm)).
Qed.

Lemma guarded_mfsurf_step dp spaces ctx st form :
  mat = true -> Forall P (mfsurf_step dp spaces ctx st form).
Proof.
  intros Hm. unfold mfsurf_step.
  destruct (negb _); [constructor|].
  pose proof (guarded_matrix_order dp spaces form (current_refmaps ctx)
                (current_u_ext ctx) st Hm) as Hc.
  destruct (calc_order_matrix_form _ _ _ _ _ _) as [order ord_calls].
  apply Forall_app. split; [exact Hc|].
  apply (assemble_matrix_form_events P (G_matrix_value Hm) (G_mat_add Hm)).
Qed.

Lemma guarded_vfvol_step dp spaces ctx st form :
  rhs = true -> Forall P (vfvol_step dp spaces ctx st form).
Proof.
  intros Hr. unfold vfvol_step.
  destruct (negb _); [constructor|].
  pose proof (guarded_vector_order dp spaces form (current_refmaps ctx)
                (current_u_ext ctx) st Hr) as Hc.
  destruct (calc_order_vector_form _ _ _ _ _ _) as [order ord_calls].
  apply Forall_app. split; [exact Hc|].
  apply (assemble_vector_form_events P (G_vector_value Hr) (G_rhs_add Hr)).
Qed.

Lemma guarded_vfsurf_step dp spaces ctx st form :
  rhs = true -> Forall P (vfsurf_step dp spaces ctx st form).
Proof.
  intros Hr. unfold vfsurf_step.
  destruct (negb _); [constructor|].
  pose proof (guarded_vector_order dp spaces form (current_refmaps ctx)
                (current_u_ext ctx) st Hr) as Hc.
  destruct (calc_order_vector_form _ _ _ _ _ _) as [order ord_calls].
  apply Forall_app. split; [exact Hc|].
  apply (assemble_vector_form_events P (G_vector_value Hr) (G_rhs_add Hr)).
Qed.

Lemma guarded_one_state dp spaces ctx st :
  current_mat dp = mat -> current_rhs dp = rhs ->
  Forall P (fst (assemble_one_state dp spaces ctx st)).
Proof.
  intros Hmat Hrhs. unfold assemble_one_state.
  apply (fold_left_invariant (fun acc : list Event * ThreadCtx => Forall P (fst acc))).
  - simpl. apply Forall_app. split.
    + destruct (current_mat dp) eqn:Em; [|constructor].
      apply Forall_flat_map_intro. intros form _. apply guarded_mfvol_step. congruence.
    + destruct (current_rhs dp) eqn:Er; [|constructor].
      apply Forall_flat_map_intro. intros form _. apply guarded_vfvol_step. congruence.
  - intros acc k _ Hacc.
    destruct (negb (bnd _ k)); [exact Hacc|]. simpl.
    apply Forall_app. split; [exact Hacc|].
    apply Forall_app. split.
    + destruct (current_mat dp) eqn:Em; [|constructor].
      apply Forall_flat_map_intro. intros form _. apply guarded_mfsurf_step. congruence.
    + destruct (current_rhs dp) eqn:Er; [|constructor].
      apply Forall_flat_map_intro. intros form _. apply guarded_vfsurf_step. congruence.
Qed.

Lemma guarded_DG_one_neighbor dp spaces ctx st processed neighbor_i nss :
  current_mat dp = mat -> current_rhs dp = rhs ->
  Forall P (assemble_DG_one_neighbor dp spaces ctx st processed neighbor_i nss).
Proof.
  intros Hmat Hrhs. unfold assemble_DG_one_neighbor.
  apply Forall_app. split.
  - destruct (current_mat dp) eqn:Em; [|constructor].
    assert (Hm : mat = true) by congruence.
    destruct (_ && _)%bool; [|constructor].
    apply (fold_left_invariant (fun a : Z * list Event => Forall P (snd a))); [constructor|].
    intros a mfs _ Ha.
    apply DG_mfsurf_step_blocks;
      [intros; apply (G_matrix_value Hm)
      | intros; apply (G_mat_add Hm); assumption | exact Ha].
  - destruct (current_rhs dp) eqn:Er; [|constructor].
    assert (Hr : rhs = true) by congruence.
    destruct (DG_vector_forms_present dp); [|constructor].
    apply (fold_left_invariant (fun a : Z * list Event => Forall P (snd a))); [constructor|].
    intros a vfs _ Ha.
    apply (DG_vfsurf_step_events P (G_vector_value Hr) (G_rhs_add Hr)). exact Ha.
Qed.

Lemma guarded_DG_segments_loop dp spaces ctx st nss segments :
  current_mat dp = mat -> current_rhs dp = rhs ->
  Forall P (fst (DG_segments_loop dp spaces ctx st nss segments)).
Proof.
  intros Hmat Hrhs. induction segments as [|k rest IH]; simpl.
  - constructor.
  - destruct (segment_processed nss k) as [ex | processed]; [constructor|].
    destruct (negb (DG_vector_forms_present dp) && processed)%bool; [exact IH|].
    destruct (DG_segments_loop dp spaces ctx st nss rest) as [evs' ex].
    simpl in *. apply Forall_app. split; [|exact IH].
    apply guarded_DG_one_neighbor; assumption.
Qed.

Lemma guarded_DG_edge dp spaces ctx st :
  current_mat dp = mat -> current_rhs dp = rhs ->
  Forall P (fst (assemble_DG_edge dp spaces ctx st)).
Proof.
  intros Hmat Hrhs. unfold assemble_DG_edge.
  destruct (build_multimesh_tree _ _) as [ex | root]; [constructor|].
  destruct (update_and_check _ _ _) as [ex | [n nss]]; [constructor|].
  apply guarded_DG_segments_loop; assumption.
Qed.

Lemma guarded_DG_edges_loop dp spaces ctx st edges :
  current_mat dp = mat -> current_rhs dp = rhs ->
  Forall P (fst (DG_edges_loop dp spaces ctx st edges)).
Proof.
  intros Hmat Hrhs. induction edges as [|k rest IH]; simpl.
  - constructor.
  - destruct (negb _); [exact IH|].
    pose proof (guarded_DG_edge dp spaces ctx (set_isurf st (Z.of_nat k)) Hmat Hrhs) as He.
    destruct (assemble_DG_edge dp spaces ctx (set_isurf st (Z.of_nat k))) as [evs [ex|]];
      [exact He|].
    destruct (DG_edges_loop dp spaces ctx st rest) as [evs' ex].
    simpl in *. apply Forall_app. split; assumption.
Qed.

Lemma guarded_state_work dp spaces ctx st :
  current_mat dp = mat -> current_rhs dp = rhs ->
  Forall P (fst (fst (state_work dp spaces ctx st))).
Proof.
  intros Hmat Hrhs. unfold state_work.
  pose proof (guarded_one_state dp spaces ctx st Hmat Hrhs) as Hs.
  destruct (assemble_one_state dp spaces ctx st) as [evs ctx'].
  destruct (_ || _)%bool; [|exact Hs].
  pose proof (guarded_DG_edges_loop (set_min_dg_mesh_seq dp (min_mesh_seq spaces))
                spaces ctx' st (seq 0 (get_num_surf (rep st))) Hmat Hrhs) as Hd.
  unfold assemble_one_DG_state.
  destruct (negb _).
  - simpl. rewrite app_nil_r. exact Hs.
  - destruct (DG_edges_loop _ spaces ctx' st _) as [dg ex].
    simpl in *. apply Forall_app. split; assumption.
Qed.

Lemma guarded_states_loop dp spaces states :
  current_mat dp = mat -> current_rhs dp = rhs ->
  forall ctx, Forall P (fst (states_loop state_work dp spaces ctx states)).
Proof.
  intros Hmat Hrhs. induction states as [|st rest IH]; intros ctx; simpl.
  - constructor.
  - pose proof (guarded_state_work dp spaces ctx st Hmat Hrhs) as Hs.
    destruct (state_work dp spaces ctx st) as [[evs ctx'] [ex|]]; [exact Hs|].
    specialize (IH ctx').
    destruct (states_loop state_work dp spaces ctx' rest) as [evs' ex].
    simpl in *. apply Forall_app. split; assumption.
Qed.

Lemma guarded_pre_add_block am an fwd bwd :
  mat = true -> Forall P (pre_add_block am an fwd bwd).
Proof.
  intros Hm. destruct (G_mat_structure Hm) as [_ [_ [_ [Hpre _]]]].
  unfold pre_add_block.
  apply Forall_flat_map_intro. intros i _.
  destruct (0 <=? al_dof am i) eqn:Hi; [|constructor].
  apply Forall_flat_map_intro. intros j _.
  destruct (0 <=? al_dof an j) eqn:Hj; [|constructor].
  apply Z.leb_le in Hi, Hj.
  apply Forall_app. split.
  - destruct fwd; [|constructor]. constructor; [apply Hpre; assumption | constructor].
  - destruct bwd; [|constructor]. constructor; [apply Hpre; assumption | constructor].
Qed.

Lemma guarded_pre_add_state dp spaces meshes is_DG al st :
  mat = true -> Forall P (snd (pre_add_state dp spaces meshes is_DG al st)).
Proof.
  intros Hm. unfold pre_add_state. simpl.
  apply Forall_app. split.
  - destruct is_DG; [|constructor].
    apply Forall_flat_map_intro. intros m _.
    apply Forall_flat_map_intro. intros el _.
    apply Forall_flat_map_intro. intros ed _.
    apply Forall_flat_map_intro. intros neighbor _.
    destruct (_ && _)%bool; [|constructor].
    apply guarded_pre_add_block. exact Hm.
  - apply Forall_flat_map_intro. intros m _.
    apply Forall_flat_map_intro. intros n _.
    destruct (_ && _)%bool; [|constructor].
    apply guarded_pre_add_block. exact Hm.
Qed.

Lemma guarded_pre_adds dp spaces meshes is_DG states :
  mat = true -> Forall P (pre_adds dp spaces meshes is_DG states).
Proof.
  intros Hm. unfold pre_adds.
  apply (fold_left_invariant (fun acc : list AsmList * list Event => Forall P (snd acc)));
    [constructor|].
  intros acc st _ Hacc.
  pose proof (guarded_pre_add_state dp spaces meshes is_DG (fst acc) st Hm) as Hs.
  destruct (pre_add_state dp spaces meshes is_DG (fst acc) st) as [al evs].
  simpl in *. apply Forall_app. split; assumption.
Qed.

Lemma guarded_rebuild_matrix dp spaces :
  mat = true -> Forall P (snd (rebuild_matrix dp spaces)).
Proof.
  intros Hm.
  destruct (G_mat_structure Hm) as [_ [Hfree [Hprealloc [_ [Halloc [Hassign _]]]]]].
  unfold rebuild_matrix. simpl.
  constructor; [exact Hfree|]. constructor; [apply Hprealloc|].
  apply Forall_app. split; [destruct (has_DG_forms _); repeat constructor; exact Hassign|].
  apply Forall_app. split; [apply guarded_pre_adds; exact Hm|].
  constructor; [exact Halloc | constructor].
Qed.

Lemma guarded_create_sparse_structure dp w :
  current_mat dp = mat -> current_rhs dp = rhs ->
  Forall P (snd (create_sparse_structure dp w))
  /\ current_mat (fst (fst (create_sparse_structure dp w))) = mat
  /\ current_rhs (fst (fst (create_sparse_structure dp w))) = rhs.
Proof.
  intros Hmat Hrhs. unfold create_sparse_structure.
  destruct (is_up_to_date dp (w_spaces w)).
  - assert (Hz : Forall P (if current_mat dp then [MatZero] else [])).
    { destruct (current_mat dp) eqn:Em; [|constructor].
      assert (Hm : mat = true) by congruence.
      destruct (G_mat_structure Hm) as [Hzero _]. constructor; [exact Hzero | constructor]. }
    destruct (current_rhs dp) eqn:Er.
    + assert (Hr : rhs = true) by congruence.
      destruct (G_rhs_structure Hr) as [Hralloc [Hrzero _]].
      destruct (vec_length (w_rhs w) =? 0); simpl.
      * split; [|split; congruence].
        apply Forall_app. split; [exact Hz|]. constructor; [apply Hralloc | constructor].
      * split; [|split; congruence].
        apply Forall_app. split; [exact Hz|]. constructor; [exact Hrzero | constructor].
    + simpl. split; [exact Hz | split; congruence].
  - destruct (current_mat dp) eqn:Em.
    + assert (Hm : mat = true) by congruence.
      pose proof (guarded_rebuild_matrix dp (w_spaces w) Hm) as Hreb.
      destruct (rebuild_matrix dp (w_spaces w)) as [[fd sps] mev].
      destruct (current_rhs dp) eqn:Er; simpl in *.
      * assert (Hr : rhs = true) by congruence.
        destruct (G_rhs_structure Hr) as [Hralloc _].
        split; [|split; congruence].
        apply Forall_app. split; [exact Hreb|]. constructor; [apply Hralloc | constructor].
      * split; [rewrite app_nil_r; exact Hreb | split; congruence].
    + destruct (current_rhs dp) eqn:Er; simpl.
      * assert (Hr : rhs = true) by congruence.
        destruct (G_rhs_structure Hr) as [Hralloc _].
        split; [|split; congruence].
        constructor; [apply Hralloc | constructor].
      * split; [constructor | split; congruence].
Qed.

Lemma guarded_assemble dp w coeff_vec force_diagonal_blocks block_weights :
  Forall P (trace_of (assemble dp w coeff_vec mat rhs force_diagonal_blocks block_weights)).
Proof.
  unfold trace_of, assemble, assemble_with.
  destruct (bad_table _ block_weights); [constructor|].
  destruct (guarded_create_sparse_structure
              (set_current dp mat rhs force_diagonal_blocks block_weights) w
              eq_refl eq_refl) as [Hstruct [Hmat Hrhs]].
  destruct (create_sparse_structure _ w) as [[dpc wc] sev]. simpl in Hstruct, Hmat, Hrhs.
  pose proof (guarded_states_loop dpc (w_spaces wc)
                (traverse_states (assemble_meshes dpc wc coeff_vec)) Hmat Hrhs
                (initial_ctx wc coeff_vec)) as Hloop.
  destruct (states_loop _ _ _ _ _) as [evs [ex|]]; simpl in *.
  - apply Forall_app. split; assumption.
  - apply Forall_app. split; [exact Hstruct|].
    apply Forall_app. split; [exact Hloop|].
    apply Forall_app. split.
    + destruct (current_mat dpc) eqn:Em; [|constructor].
      assert (Hm : mat = true) by congruence.
      destruct (G_mat_structure Hm) as [_ [_ [_ [_ [_ [_ Hfin]]]]]].
      constructor; [exact Hfin | constructor].
    + destruct (current_rhs dpc) eqn:Er; [|constructor].
      assert (Hr : rhs = true) by congruence.
      destruct (G_rhs_structure Hr) as [_ [_ Hfin]].
      constructor; [exact Hfin | constructor].
Qed.

End GuardedEvents.
(** ** The structure cache: what a rebuild registers *)

Section StructureRebuild.

Context `{X : Collaborators}.


















End StructureRebuild.



Section TraceProperties.

Context `{X : Collaborators}.

Lemma assemble_on_free_dofs dp w coeff_vec mat rhs force_diagonal_blocks block_weights :
  Forall on_free_dofs
    (trace_of (assemble dp w coeff_vec mat rhs force_diagonal_blocks block_weights)).
Proof.
  apply guarded_assemble; try (intros; exact I); try (intros; assumption).
  - intros _. repeat split; auto.
  - intros _. repeat split.
Qed.

(** X9: whatever the weak form, the spaces and the outputs given, [assemble]
    adds to the right-hand side at rows that are not negative only: the
    constrained (negative) DOFs of an assembly list are skipped by the
    volume, the boundary and the DG vector forms alike. *)
Theorem right_hand_side_receives_free_dofs_only
    (dp : DiscreteProblem) (w : World) (coeff_vec : option (list MeshFunction))
    (mat rhs force_diagonal_blocks : bool) (block_weights : option Table)
    (row : Z) (val : Scalar) :
  In (RhsAdd row val)
     (trace_of (assemble dp w coeff_vec mat rhs force_diagonal_blocks block_weights)) ->
  0 <= row.
Proof.
  intros Hin.
  pose proof (assemble_on_free_dofs dp w coeff_vec mat rhs force_diagonal_blocks block_weights)
    as Hall.
  rewrite Forall_forall in Hall. apply (Hall _ Hin).
Qed.

(** X10: [create_sparse_structure] registers a position in the matrix
    ([pre_add_ij]) only at a row and a column that are not negative, in the
    blocks of a state and in the blocks across the edges of a DG problem. *)
Theorem registered_positions_are_free_dofs
    (dp : DiscreteProblem) (w : World) (row col : Z) :
  In (MatPreAdd row col) (snd (create_sparse_structure dp w)) ->
  0 <= row /\ 0 <= col.
Proof.
  intros Hin.
  destruct (guarded_create_sparse_structure on_free_dofs (current_mat dp) (current_rhs dp))
    with (dp := dp) (w := w) as [Hall _]; try reflexivity.
  - intros _. repeat split; auto.
  - intros _. repeat split.
  - rewrite Forall_forall in Hall. apply (Hall _ Hin).
Qed.

(** X12: an [assemble] call that is given no matrix performs no operation
    on a matrix and calls no matrix form (neither its value nor its order
    estimator); this covers the two overloads without a matrix.  An
    [assemble] call that is given no right-hand side performs no operation
    on a right-hand side and calls no vector form. *)
Theorem absent_output_is_left_alone
    (dp : DiscreteProblem) (w : World) (coeff_vec : option (list MeshFunction))
    (mat rhs force_diagonal_blocks : bool) (block_weights : option Table) :
  Forall (fun ev => is_matrix_event ev = false)
    (trace_of (assemble_rhs dp w rhs force_diagonal_blocks block_weights))
  /\ Forall (fun ev => is_matrix_event ev = false)
       (trace_of (assemble_coeff_rhs dp w coeff_vec rhs force_diagonal_blocks block_weights))
  /\ Forall (fun ev => is_rhs_event ev = false)
       (trace_of (assemble dp w coeff_vec mat false force_diagonal_blocks block_weights)).
Proof.
  split; [|split].
  - unfold assemble_rhs.
    apply guarded_assemble; try discriminate; try (intros; reflexivity).
    intros _. repeat split.
  - unfold assemble_coeff_rhs.
    apply guarded_assemble; try discriminate; try (intros; reflexivity).
    intros _. repeat split.
  - apply guarded_assemble; try discriminate; try (intros; reflexivity).
    intros _. repeat split.
Qed.

End TraceProperties.

Lemma right_hand_side_receives_free_dofs_only_witness :
  In (RhsAdd 1 2%float)
     (trace_of (assemble (X := ex_X) ex_dp_vol (ex_world 1) None true true false None))
  /\ 0 <= 1.
Proof.
  assert (Hin : In (RhsAdd 1 2%float)
                  (trace_of (assemble (X := ex_X) ex_dp_vol (ex_world 1) None
                               true true false None))).
  { vm_compute. repeat (try (left; reflexivity); right). }
  split; [exact Hin|].
  apply (right_hand_side_receives_free_dofs_only (X := ex_X) ex_dp_vol (ex_world 1) None
           true true false None 1 2%float Hin).
Defined.

Lemma registered_positions_are_free_dofs_witness :
  In (MatPreAdd 1 0) (snd (create_sparse_structure (X := ex_X) ex_dp_vol (ex_world 1)))
  /\ 0 <= 1 /\ 0 <= 0.
Proof.
  assert (Hin : In (MatPreAdd 1 0)
                  (snd (create_sparse_structure (X := ex_X) ex_dp_vol (ex_world 1)))).
  { vm_compute. repeat (try (left; reflexivity); right). }
  split; [exact Hin|].
  apply (registered_positions_are_free_dofs (X := ex_X) ex_dp_vol (ex_world 1) 1 0 Hin).
Defined.


(** ** The structure cache, continued *)

Section StructureCacheMore.

Context `{X : Collaborators}.

Lemma seq_loop_false spaces sp idxs : seq_loop spaces sp idxs false = false.
Proof.
  induction idxs as [|i idxs IH]; simpl; [reflexivity|].
  destruct (negb _); [reflexivity | exact IH].
Qed.

Lemma not_up_to_date_without_structure dp spaces :
  have_matrix dp = false -> is_up_to_date dp spaces = false.
Proof.
  intros Hm. unfold is_up_to_date. rewrite Hm. simpl.
  rewrite seq_loop_false. destruct (negb _); reflexivity.
Qed.

Lemma init_has_no_structure wf_ptr spaces first_dofs dp :
  init wf_ptr spaces first_dofs = inr dp -> have_matrix dp = false.
Proof.
  unfold init. destruct wf_ptr as [w|]; [|discriminate].
  destruct (negb _); [discriminate|].
  destruct (Nat.eqb _ 0); [discriminate|].
  intros H. inversion H. reflexivity.
Qed.

(** X13: a problem without a matrix structure is not up to date, whatever
    the sequence numbers: this is so after [invalidate_matrix] and after
    either constructor.  The next [create_sparse_structure] that is given a
    matrix then builds the structure from scratch and leaves the problem up
    to date. *)
Theorem problem_without_structure_is_rebuilt :
  (forall dp spaces, is_up_to_date (invalidate_matrix dp) spaces = false)
  /\ (forall wf_ptr spaces0 dp spaces,
        DiscreteProblem_of_spaces wf_ptr spaces0 = inr dp ->
        is_up_to_date dp spaces = false)
  /\ (forall wf_ptr space dp spaces,
        DiscreteProblem_of_space wf_ptr space = inr dp ->
        is_up_to_date dp spaces = false)
  /\ (forall dp w,
        have_matrix dp = false -> current_mat dp = true ->
        exists dp' w' mid rhs_events,
          create_sparse_structure dp w
          = (dp', w', MatFree :: MatPrealloc (ndof dp) :: mid ++ MatAlloc :: rhs_events)
          /\ is_up_to_date dp' (w_spaces w') = true).
Proof.
  split; [|split; [|split]].
  - intros dp spaces. apply not_up_to_date_without_structure. reflexivity.
  - intros wf_ptr spaces0 dp spaces Hnew. apply not_up_to_date_without_structure.
    unfold DiscreteProblem_of_spaces in Hnew.
    destruct spaces0; [discriminate|].
    apply (init_has_no_structure _ _ _ _ Hnew).
  - intros wf_ptr space dp spaces Hnew. apply not_up_to_date_without_structure.
    apply (init_has_no_structure _ _ _ _ Hnew).
  - intros dp w Hm Hmat.
    destruct (create_sparse_structure_rebuilds dp w
                (not_up_to_date_without_structure dp (w_spaces w) Hm) Hmat)
      as [dp' [w' [mid [rhs_events [Heq _]]]]].
    exists dp', w', mid, rhs_events. split; [exact Heq|].
    apply (create_sparse_structure_caches dp w dp' w' _ Heq Hmat).
Qed.

(** X14: [create_sparse_structure] without a matrix, on a problem that has a
    matrix structure, leaves the structure and the spaces as they are and
    stores the current sequence numbers: afterwards the problem is up to
    date, also when the sequence numbers had changed since the structure
    was built. *)
Theorem pass_without_matrix_stores_sequence_numbers
    (dp dp' : DiscreteProblem) (w w' : World) (evs : list Event) :
  have_matrix dp = true ->
  current_mat dp = false ->
  create_sparse_structure dp w = (dp', w', evs) ->
  is_up_to_date dp' (w_spaces w') = true
  /\ structure_kept evs
  /\ w_spaces w' = w_spaces w
  /\ have_matrix dp' = true.
Proof.
  intros Hm Hmat Hrun. unfold create_sparse_structure in Hrun. rewrite Hmat in Hrun.
  unfold structure_kept.
  destruct (is_up_to_date dp (w_spaces w)) eqn:Hup.
  - destruct (current_rhs dp); [destruct (vec_length (w_rhs w) =? 0)|];
      inversion Hrun; subst; simpl;
      (split; [exact Hup | split; [repeat constructor | split; [reflexivity | exact Hm]]]).
  - destruct (current_rhs dp); inversion Hrun; subst; clear Hrun; simpl;
      (split;
       [ apply is_up_to_date_true; simpl;
         [ exact Hm
         | intros i Hi; symmetry; apply (nth_current_seqs dp); exact Hi
         | reflexivity ]
       | split; [repeat constructor | split; [reflexivity | exact Hm]]]).
Qed.

Lemma create_sparse_structure_keeps_forms dp w :
  wf (fst (fst (create_sparse_structure dp w))) = wf dp
  /\ DG_matrix_forms_present (fst (fst (create_sparse_structure dp w)))
     = DG_matrix_forms_present dp
  /\ DG_vector_forms_present (fst (fst (create_sparse_structure dp w)))
     = DG_vector_forms_present dp.
Proof.
  unfold create_sparse_structure.
  destruct (is_up_to_date dp (w_spaces w)).
  - destruct (current_rhs dp); [destruct (vec_length (w_rhs w) =? 0)|];
      repeat split; reflexivity.
  - destruct (current_mat dp).
    + destruct (rebuild_matrix dp (w_spaces w)) as [[fd sps] mev].
      destruct (current_rhs dp); repeat split; reflexivity.
    + destruct (current_rhs dp); repeat split; reflexivity.
Qed.

Lemma assemble_keeps_forms dp w coeff_vec mat rhs force_diagonal_blocks block_weights :
  wf (fst (fst (fst (assemble dp w coeff_vec mat rhs force_diagonal_blocks block_weights))))
  = wf dp
  /\ DG_matrix_forms_present
       (fst (fst (fst (assemble dp w coeff_vec mat rhs force_diagonal_blocks block_weights))))
     = DG_matrix_forms_present dp
  /\ DG_vector_forms_present
       (fst (fst (fst (assemble dp w coeff_vec mat rhs force_diagonal_blocks block_weights))))
     = DG_vector_forms_present dp.
Proof.
  unfold assemble, assemble_with.
  destruct (bad_table _ block_weights); [repeat split; reflexivity|].
  pose proof (create_sparse_structure_keeps_forms
                (set_current dp mat rhs force_diagonal_blocks block_weights) w) as Hk.
  destruct (create_sparse_structure _ w) as [[dpc wc] sev].
  destruct (states_loop _ _ _ _ _) as [evs [ex|]]; exact Hk.
Qed.

(** X15: for a problem made by the constructor, the flags that make the
    state loop do DG work agree with the test by which
    [create_sparse_structure] decides to account for the coupling across
    edges, and an [assemble] call keeps it so: DG work is done exactly when
    the structure is built for it. *)
Theorem DG_work_agrees_with_DG_structure
    (w : WeakForm) (spaces : list Space) (dp : DiscreteProblem) (world : World)
    (coeff_vec : option (list MeshFunction)) (mat rhs force_diagonal_blocks : bool)
    (block_weights : option Table) :
  DiscreteProblem_of_spaces (Some w) spaces = inr dp ->
  (DG_matrix_forms_present dp || DG_vector_forms_present dp)%bool = has_DG_forms (wf dp)
  /\ (DG_matrix_forms_present
        (fst (fst (fst (assemble dp world coeff_vec mat rhs force_diagonal_blocks
                          block_weights))))
      || DG_vector_forms_present
           (fst (fst (fst (assemble dp world coeff_vec mat rhs force_diagonal_blocks
                             block_weights)))))%bool
     = has_DG_forms
         (wf (fst (fst (fst (assemble dp world coeff_vec mat rhs force_diagonal_blocks
                               block_weights))))).
Proof.
  intros Hnew.
  assert (H0 : (DG_matrix_forms_present dp || DG_vector_forms_present dp)%bool
               = has_DG_forms (wf dp)).
  { unfold DiscreteProblem_of_spaces in Hnew. destruct spaces; [discriminate|].
    unfold init in Hnew.
    destruct (negb _); [discriminate|].
    destruct (Nat.eqb _ 0); [discriminate|].
    inversion Hnew. reflexivity. }
  split; [exact H0|].
  destruct (assemble_keeps_forms dp world coeff_vec mat rhs force_diagonal_blocks
              block_weights) as [-> [-> ->]].
  exact H0.
Qed.

(** X16: [create_sparse_structure(mat, rhs)] with a NULL [rhs] does not
    detach a right-hand side set by an earlier call: the vector is still
    allocated or zeroed. *)
Theorem null_rhs_keeps_the_earlier_rhs (dp : DiscreteProblem) (w : World) (mat : bool) :
  current_rhs dp = true ->
  In (RhsAlloc (ndof dp)) (snd (create_sparse_structure_for dp w mat false))
  \/ In RhsZero (snd (create_sparse_structure_for dp w mat false)).
Proof.
  intros Hrhs. unfold create_sparse_structure_for, create_sparse_structure.
  destruct (is_up_to_date _ (w_spaces w)).
  - simpl. rewrite Hrhs.
    destruct (vec_length (w_rhs w) =? 0); simpl.
    + left. apply in_or_app. right. left. reflexivity.
    + right. apply in_or_app. right. left. reflexivity.
  - simpl. rewrite Hrhs.
    destruct mat.
    + destruct (rebuild_matrix _ (w_spaces w)) as [[fd sps] mev]. simpl.
      left. apply in_or_app. right. left. reflexivity.
    + simpl. left. left. reflexivity.
Qed.

End StructureCacheMore.

(** ** The least mesh sequence number *)

Section MeshSequence.

Lemma min_mesh_seq_fold spaces :
  forall k m,
    let r := snd (fold_left (fun (acc : nat * Z) sp =>
                   (S (fst acc),
                    if ((mesh_seq (get_mesh sp) <? snd acc) || Nat.eqb (fst acc) 0)%bool
                    then mesh_seq (get_mesh sp) else snd acc))
                 spaces (k, m)) in
    (k <> 0%nat -> r <= m)
    /\ (forall sp, In sp spaces -> r <= mesh_seq (get_mesh sp))
    /\ (r = m \/ exists sp, In sp spaces /\ r = mesh_seq (get_mesh sp)).
Proof.
  induction spaces as [|sp0 rest IH]; intros k m; simpl.
  - split; [intros _; lia|]. split; [intros sp []|]. left. reflexivity.
  - destruct (IH (S k)
                (if ((mesh_seq (get_mesh sp0) <? m) || Nat.eqb k 0)%bool
                 then mesh_seq (get_mesh sp0) else m)) as [Hle [Hall Hex]].
    specialize (Hle (Nat.neq_succ_0 k)).
    destruct (mesh_seq (get_mesh sp0) <? m) eqn:Hlt; simpl in *.
    + apply Z.ltb_lt in Hlt.
      split; [intros _; lia|].
      split; [intros sp [<- | Hsp]; [exact Hle | apply Hall; exact Hsp]|].
      right. destruct Hex as [Heq | [sp [Hsp Heq]]].
      * exists sp0. split; [left; reflexivity | exact Heq].
      * exists sp. split; [right; exact Hsp | exact Heq].
    + apply Z.ltb_ge in Hlt.
      destruct (Nat.eqb_spec k 0) as [-> | Hk]; simpl in *.
      * split; [intros Hne; contradiction Hne; reflexivity|].
        split; [intros sp [<- | Hsp]; [exact Hle | apply Hall; exact Hsp]|].
        right. destruct Hex as [Heq | [sp [Hsp Heq]]].
        -- exists sp0. split; [left; reflexivity | exact Heq].
        -- exists sp. split; [right; exact Hsp | exact Heq].
      * split; [intros _; exact Hle|].
        split; [intros sp [<- | Hsp]; [lia | apply Hall; exact Hsp]|].
        destruct Hex as [Heq | [sp [Hsp Heq]]].
        -- left. exact Heq.
        -- right. exists sp. split; [right; exact Hsp | exact Heq].
Qed.

Lemma min_mesh_seq_attained sp0 rest :
  exists sp, In sp (sp0 :: rest) /\ min_mesh_seq (sp0 :: rest) = mesh_seq (get_mesh sp).
Proof.
  unfold min_mesh_seq. simpl.
  destruct (min_mesh_seq_fold rest 1
              (if ((mesh_seq (get_mesh sp0) <? 0) || true)%bool
               then mesh_seq (get_mesh sp0) else 0)) as [_ [_ Hex]].
  rewrite orb_true_r in *.
  destruct Hex as [Heq | [sp [Hsp Heq]]].
  - exists sp0. split; [left; reflexivity | exact Heq].
  - exists sp. split; [right; exact Hsp | exact Heq].
Qed.

(** X17: the value [assemble_one_DG_state] stores in [min_dg_mesh_seq] is
    the least sequence number of the meshes of the spaces: it is the
    sequence number of one of them and exceeds none, so that the offset at
    which the neighbor search of a space is kept is not negative. *)
Theorem min_dg_mesh_seq_is_least (spaces : list Space) (sp : Space) :
  In sp spaces ->
  min_mesh_seq spaces <= mesh_seq (get_mesh sp)
  /\ 0 <= mesh_seq (get_mesh sp) - min_mesh_seq spaces
  /\ exists sp', In sp' spaces /\ min_mesh_seq spaces = mesh_seq (get_mesh sp').
Proof.
  intros Hsp.
  assert (Hle : min_mesh_seq spaces <= mesh_seq (get_mesh sp)).
  { unfold min_mesh_seq.
    destruct (min_mesh_seq_fold spaces 0 0) as [_ [Hall _]]. apply Hall. exact Hsp. }
  split; [exact Hle|]. split; [lia|].
  destruct spaces as [|sp0 rest]; [destruct Hsp|].
  apply min_mesh_seq_attained.
Qed.

Lemma min_dg_mesh_seq_is_least_witness :
  min_mesh_seq [ex_space_on 7; ex_space_on 5; ex_space_on 9] <= 9
  /\ 0 <= 9 - min_mesh_seq [ex_space_on 7; ex_space_on 5; ex_space_on 9]
  /\ exists sp', In sp' [ex_space_on 7; ex_space_on 5; ex_space_on 9]
                 /\ min_mesh_seq [ex_space_on 7; ex_space_on 5; ex_space_on 9]
                    = mesh_seq (get_mesh sp').
Proof.
  apply (min_dg_mesh_seq_is_least [ex_space_on 7; ex_space_on 5; ex_space_on 9]
           (ex_space_on 9)).
  right. right. left. reflexivity.
Defined.

End MeshSequence.

(** Witnesses for the structure cache. *)

Lemma triple_eta {A B C : Type} (t : A * B * C) : t = (fst (fst t), snd (fst t), snd t).
Proof. destruct t as [[a b] c]. reflexivity. Qed.

Lemma problem_without_structure_is_rebuilt_witness :
  is_up_to_date (invalidate_matrix ex_dp_assembled) (w_spaces (ex_world 1)) = false
  /\ match DiscreteProblem_of_spaces (Some (wf ex_dp_vol)) (w_spaces (ex_world 1)) with
     | inr dp => is_up_to_date dp (w_spaces (ex_world 1)) = false
     | inl _ => False
     end
  /\ match DiscreteProblem_of_space (Some (wf ex_dp_vol)) (ex_space 1) with
     | inr dp => is_up_to_date dp (w_spaces (ex_world 1)) = false
     | inl _ => False
     end
  /\ exists dp' w' mid rhs_events,
       create_sparse_structure (X := ex_X) (invalidate_matrix ex_dp_assembled) (ex_world 1)
       = (dp', w', MatFree :: MatPrealloc (ndof (invalidate_matrix ex_dp_assembled))
                     :: mid ++ MatAlloc :: rhs_events)
       /\ is_up_to_date dp' (w_spaces w') = true.
Proof.
  destruct (problem_without_structure_is_rebuilt (X := ex_X)) as [H1 [H2 [H3 H4]]].
  split; [apply H1|]. split; [|split].
  - destruct (DiscreteProblem_of_spaces (Some (wf ex_dp_vol)) (w_spaces (ex_world 1)))
      as [ex|dp] eqn:Hnew; [vm_compute in Hnew; discriminate Hnew|].
    apply (H2 _ _ _ _ Hnew).
  - destruct (DiscreteProblem_of_space (Some (wf ex_dp_vol)) (ex_space 1))
      as [ex|dp] eqn:Hnew; [vm_compute in Hnew; discriminate Hnew|].
    apply (H3 _ _ _ _ Hnew).
  - apply H4; reflexivity.
Defined.

Lemma pass_without_matrix_stores_sequence_numbers_witness :
  is_up_to_date ex_dp_rhs_only (w_spaces ex_world_refined) = false
  /\ is_up_to_date
       (fst (fst (create_sparse_structure (X := ex_X) ex_dp_rhs_only ex_world_refined)))
       (w_spaces (snd (fst (create_sparse_structure (X := ex_X) ex_dp_rhs_only
                              ex_world_refined))))
     = true
  /\ structure_kept (snd (create_sparse_structure (X := ex_X) ex_dp_rhs_only ex_world_refined)).
Proof.
  split; [vm_compute; reflexivity|].
  destruct (pass_without_matrix_stores_sequence_numbers (X := ex_X)
              ex_dp_rhs_only
              (fst (fst (create_sparse_structure (X := ex_X) ex_dp_rhs_only ex_world_refined)))
              ex_world_refined
              (snd (fst (create_sparse_structure (X := ex_X) ex_dp_rhs_only ex_world_refined)))
              (snd (create_sparse_structure (X := ex_X) ex_dp_rhs_only ex_world_refined)))
    as [Hup [Hkept _]].
  - vm_compute. reflexivity.
  - reflexivity.
  - apply triple_eta.
  - split; assumption.
Defined.

Lemma DG_work_agrees_with_DG_structure_witness :
  match DiscreteProblem_of_spaces (Some (wf ex_dp_DG)) (w_spaces (ex_world 2)) with
  | inr dp =>
      (DG_matrix_forms_present dp || DG_vector_forms_present dp)%bool = has_DG_forms (wf dp)
  | inl _ => False
  end.
Proof.
  destruct (DiscreteProblem_of_spaces (Some (wf ex_dp_DG)) (w_spaces (ex_world 2)))
    as [ex|dp] eqn:Hnew; [vm_compute in Hnew; discriminate Hnew|].
  apply (DG_work_agrees_with_DG_structure (X := ex_X) (wf ex_dp_DG) (w_spaces (ex_world 2)) dp
           (ex_world 2) None true true false None Hnew).
Defined.

Lemma null_rhs_keeps_the_earlier_rhs_witness :
  In (RhsAlloc (ndof ex_dp_vol))
     (snd (create_sparse_structure_for (X := ex_X) ex_dp_vol (ex_world 1) true false))
  \/ In RhsZero
       (snd (create_sparse_structure_for (X := ex_X) ex_dp_vol (ex_world 1) true false)).
Proof.
  apply (null_rhs_keeps_the_earlier_rhs (X := ex_X) ex_dp_vol (ex_world 1) true).
  reflexivity.
Defined.

(** ** Which path assembles a surface form *)

Section SurfacePaths.

Context `{X : Collaborators}.

(** X18: a surface form is assembled by at most one of the two paths: the
    boundary path of [assemble_one_state] rejects a form whose first area
    is the DG inner-edge marker, the DG path of [assemble_DG_one_neighbor]
    rejects every other form.  The same holds edge by edge: on an edge with
    marker 0 no boundary form is assembled, and an edge with another marker
    is passed over by the DG loop. *)
Theorem boundary_and_DG_paths_exclude_each_other
    (dp : DiscreteProblem) (spaces : list Space) (ctx : ThreadCtx) (st : State) :
  (forall neighbor_i nss acc (form : MatrixForm),
      mfsurf_step dp spaces ctx st form = []
      \/ DG_mfsurf_step dp spaces ctx st neighbor_i nss acc form = acc)
  /\ (forall neighbor_i acc (form : VectorForm),
        vfsurf_step dp spaces ctx st form = []
        \/ DG_vfsurf_step dp ctx st neighbor_i acc form = acc)
  /\ (active_edge_marker st = 0 ->
      (forall form : MatrixForm, mfsurf_step dp spaces ctx st form = [])
      /\ (forall form : VectorForm, vfsurf_step dp spaces ctx st form = []))
  /\ (forall k,
        active_edge_marker (set_isurf st (Z.of_nat k)) <> 0 ->
        DG_edges_loop dp spaces ctx st [k] = ([], None)).
Proof.
  split; [|split; [|split]].
  - intros neighbor_i nss acc form.
    destruct (Area_eqb (areas0 (mf_areas form)) H2D_DG_INNER_EDGE) eqn:Harea.
    + left. unfold mfsurf_step, form_to_be_assembled_MatrixFormSurf. rewrite Harea.
      destruct (active_edge_marker st =? 0); reflexivity.
    + right. unfold DG_mfsurf_step. rewrite Harea.
      destruct (negb (form_to_be_assembled_MatrixForm dp form st)); reflexivity.
  - intros neighbor_i acc form.
    destruct (Area_eqb (areas0 (vf_areas form)) H2D_DG_INNER_EDGE) eqn:Harea.
    + left. unfold vfsurf_step, form_to_be_assembled_VectorFormSurf. rewrite Harea.
      destruct (active_edge_marker st =? 0); reflexivity.
    + right. unfold DG_vfsurf_step. rewrite Harea. reflexivity.
  - intros Hzero. split; intros form.
    + unfold mfsurf_step, form_to_be_assembled_MatrixFormSurf.
      rewrite Hzero. reflexivity.
    + unfold vfsurf_step, form_to_be_assembled_VectorFormSurf.
      rewrite Hzero. reflexivity.
  - intros k Hk. simpl. apply Z.eqb_neq in Hk. rewrite Hk. reflexivity.
Qed.

End SurfacePaths.

Lemma boundary_and_DG_paths_exclude_each_other_witness :
  (forall form : MatrixForm,
      mfsurf_step (X := ex_X) ex_dp_bdy (w_spaces (ex_world 2)) (ex_ctx 2)
        (set_isurf ex_state2 0) form = [])
  /\ DG_edges_loop (X := ex_X) ex_dp_DG (w_spaces (ex_world 2)) (ex_ctx 2) ex_state2 [1%nat]
     = ([], None).
Proof.
  destruct (boundary_and_DG_paths_exclude_each_other (X := ex_X) ex_dp_bdy
              (w_spaces (ex_world 2)) (ex_ctx 2) (set_isurf ex_state2 0))
    as [_ [_ [Hedge _]]].
  destruct (boundary_and_DG_paths_exclude_each_other (X := ex_X) ex_dp_DG
              (w_spaces (ex_world 2)) (ex_ctx 2) ex_state2)
    as [_ [_ [_ Hloop]]].
  split.
  - apply Hedge. reflexivity.
  - apply Hloop. vm_compute. discriminate.
Defined.

(** ** Areas and markers *)

Section Areas.

Lemma Area_eqb_refl a : Area_eqb a a = true.
Proof.
  destruct a; simpl; try reflexivity. apply String.eqb_refl.
Qed.

Lemma existsb_first_true {A : Type} (f : A -> bool) (l : list A) (x : A) :
  In x l -> f x = true -> existsb f l = true.
Proof.
  intros Hin Hf. apply existsb_exists. exists x. split; assumption.
Qed.

(** X19: the areas of a volume form decide as follows.  With [HERMES_ANY]
    among them the markers of the meshes are not consulted: the form is
    assembled exactly when the test of the base class passes.  Without any
    area the form is never assembled.  With areas that the mesh of the row
    field does not know, it is not assembled either. *)
Theorem areas_of_a_volume_form
    (dp : DiscreteProblem) (spaces : list Space) (st : State) :
  (forall form : MatrixForm,
      In HERMES_ANY (mf_areas form) ->
      form_to_be_assembled_MatrixFormVol dp spaces form st
      = form_to_be_assembled_MatrixForm dp form st)
  /\ (forall form : VectorForm,
        In HERMES_ANY (vf_areas form) ->
        form_to_be_assembled_VectorFormVol spaces form st
        = form_to_be_assembled_VectorForm form st)
  /\ (forall form : MatrixForm,
        mf_areas form = [] -> form_to_be_assembled_MatrixFormVol dp spaces form st = false)
  /\ (forall form : VectorForm,
        vf_areas form = [] -> form_to_be_assembled_VectorFormVol spaces form st = false)
  /\ (forall form : MatrixForm,
        (forall a, In a (mf_areas form) ->
                   a <> HERMES_ANY
                   /\ valid (element_markers_conversion
                               (get_mesh (space_at spaces (mf_i form))) a) = false) ->
        form_to_be_assembled_MatrixFormVol dp spaces form st = false).
Proof.
  split; [|split; [|split; [|split]]].
  - intros form Hany. unfold form_to_be_assembled_MatrixFormVol.
    destruct (form_to_be_assembled_MatrixForm dp form st); [|reflexivity]. simpl.
    rewrite (existsb_first_true _ _ HERMES_ANY Hany); reflexivity.
  - intros form Hany. unfold form_to_be_assembled_VectorFormVol.
    destruct (form_to_be_assembled_VectorForm form st); [|reflexivity]. simpl.
    rewrite (existsb_first_true _ _ HERMES_ANY Hany); reflexivity.
  - intros form Hnil. unfold form_to_be_assembled_MatrixFormVol. rewrite Hnil.
    destruct (negb _); reflexivity.
  - intros form Hnil. unfold form_to_be_assembled_VectorFormVol. rewrite Hnil.
    destruct (negb _); reflexivity.
  - intros form Hall. unfold form_to_be_assembled_MatrixFormVol.
    destruct (negb _); [reflexivity|].
    assert (Hex : existsb (fun a =>
                    if Area_eqb a HERMES_ANY then true
                    else (marker_on_space element_markers_conversion spaces (mf_i form) a
                            (el_marker (rep st))
                          && marker_on_space element_markers_conversion spaces (mf_j form) a
                               (el_marker (rep st)))%bool) (mf_areas form) = false).
    { induction (mf_areas form) as [|a l IH]; [reflexivity|]. simpl.
      destruct (Hall a (or_introl eq_refl)) as [Hne Hinv].
      assert (Ha : Area_eqb a HERMES_ANY = false).
      { destruct a; try reflexivity. contradiction Hne. reflexivity. }
      rewrite Ha. unfold marker_on_space at 1. rewrite Hinv. simpl.
      apply IH. intros b Hb. apply Hall. right. exact Hb. }
    rewrite Hex. reflexivity.
Qed.

End Areas.

Lemma areas_of_a_volume_form_witness :
  form_to_be_assembled_MatrixFormVol (ex_dp_bare 1) (w_spaces (ex_world 1))
    (ex_mform Vol 0 0 HERMES_NONSYM 1%float [UserMarker "steel"; HERMES_ANY]) ex_state
  = form_to_be_assembled_MatrixForm (ex_dp_bare 1)
      (ex_mform Vol 0 0 HERMES_NONSYM 1%float [UserMarker "steel"; HERMES_ANY]) ex_state
  /\ form_to_be_assembled_VectorFormVol (w_spaces (ex_world 1))
       (ex_vform Vol 0 1%float []) ex_state = false.
Proof.
  destruct (areas_of_a_volume_form (ex_dp_bare 1) (w_spaces (ex_world 1)) ex_state)
    as [Hany [_ [_ [Hnil _]]]].
  split.
  - apply Hany. right. left. reflexivity.
  - apply Hnil. reflexivity.
Defined.

(** ** The entries of the local blocks *)

Section BlockEntries.

Context `{X : Collaborators}.

(** X20: the entry of the local stiffness matrix at the free test function
    [p] and the free basis function [q] (both with a coefficient that is
    not negligible; [p <= q] when the block is exploited as symmetric) is
    the value of the form for [u = q], [v = p] times the block weight, the
    scaling factor and the two coefficients, with a factor 0.5 in front
    exactly when the form is a surface form whose block is not exploited
    as symmetric. *)
Theorem local_block_entry_value
    (dp : DiscreteProblem) (form : MatrixForm) (order : Z)
    (refmaps : list RefMap) (als : list AsmList) (st : State) (p q : nat) :
  evaluated_dof (als_at als (mf_i form)) p ->
  evaluated_dof (als_at als (mf_j form)) q ->
  (exploited_as_symmetric form = true -> (p <= q)%nat) ->
  fst (local_block dp form order refmaps als st) p q
  = if (is_surface (mf_kind form) && negb (exploited_as_symmetric form))%bool
    then (0.5 * block_scaling_coeff dp form
          * mf_value form (matrix_form_site form order refmaps st) q p
          * mf_scaling_factor form
          * al_coef (als_at als (mf_j form)) q * al_coef (als_at als (mf_i form)) p)%float
    else (block_scaling_coeff dp form
          * mf_value form (matrix_form_site form order refmaps st) q p
          * mf_scaling_factor form
          * al_coef (als_at als (mf_j form)) q * al_coef (als_at als (mf_i form)) p)%float.
Proof.
  intros Hp Hq Hpq. unfold local_block, matrix_form_site, exploited_as_symmetric in *.
  destruct (Nat.eqb (mf_i form) (mf_j form) && (sym_int (mf_sym form) =? 1))%bool eqn:Hsym.
  - rewrite andb_false_r.
    rewrite sym_loop_entry; [reflexivity | apply Hpq; reflexivity | exact Hp | exact Hq].
  - rewrite andb_true_r.
    rewrite nonsym_loop_entry by assumption.
    destruct (is_surface (mf_kind form)); reflexivity.
Qed.

Lemma DG_row_entry dp mfs site eu ev p q acc :
  free_ext_dof eu q ->
  fst (fold_left (fun (acc : LocalAcc) j =>
         if 0 <=? ext_dof eu j then
           (mset (fst acc) p j
              (block_scaling_coeff dp mfs * 0.5
               * (mf_value mfs site j p * mf_scaling_factor mfs)
               * ext_coef eu j * ext_coef ev p)%float,
            snd acc ++ [EvMatrixValue (site_quad_order site) j p])
         else acc)
       (seq 0 (ext_cnt eu)) acc) p q
  = (block_scaling_coeff dp mfs * 0.5
     * (mf_value mfs site q p * mf_scaling_factor mfs)
     * ext_coef eu q * ext_coef ev p)%float.
Proof.
  intros [Hq Hdof]. apply Z.leb_le in Hdof.
  apply (fold_left_establish (fun a : LocalAcc => fst a p q = _) _ _ q).
  - apply in_seq. lia.
  - intros a. rewrite Hdof. simpl. apply mset_same.
  - intros a j Ha.
    destruct (Nat.eq_dec j q) as [-> | Hne].
    + rewrite Hdof. simpl. apply mset_same.
    + destruct (0 <=? ext_dof eu j); [|exact Ha].
      simpl. rewrite mset_other by congruence. exact Ha.
Qed.

Lemma DG_row_other dp mfs site eu ev i p q acc :
  i <> p ->
  fst (fold_left (fun (acc : LocalAcc) j =>
         if 0 <=? ext_dof eu j then
           (mset (fst acc) i j
              (block_scaling_coeff dp mfs * 0.5
               * (mf_value mfs site j i * mf_scaling_factor mfs)
               * ext_coef eu j * ext_coef ev i)%float,
            snd acc ++ [EvMatrixValue (site_quad_order site) j i])
         else acc)
       (seq 0 (ext_cnt eu)) acc) p q
  = fst acc p q.
Proof.
  intros Hne.
  apply (fold_left_invariant (fun a : LocalAcc => fst a p q = fst acc p q)); [reflexivity|].
  intros a j _ Ha.
  destruct (0 <=? ext_dof eu j); [|exact Ha].
  simpl. rewrite mset_other by congruence. exact Ha.
Qed.

(** X21: in the block of a DG matrix form over the two extended shapesets,
    the entry at a free test function [p] and a free basis function [q] is
    the value of the form for [u = q], [v = p] times the scaling factor,
    the block weight, 0.5 and the coefficients of the two shape functions
    on the side they have support on; coefficients are not tested for
    being negligible.  A row of a constrained test function is left as
    [new_matrix] made it. *)
Theorem DG_block_entry_value
    (dp : DiscreteProblem) (mfs : MatrixForm) (site : EvalSite)
    (ext_asmlist_u ext_asmlist_v : ExtendedShapeset) (acc : LocalAcc) (p q : nat) :
  (free_ext_dof ext_asmlist_v p -> free_ext_dof ext_asmlist_u q ->
   fst (DG_local_stiffness_loop dp mfs site ext_asmlist_u ext_asmlist_v acc) p q
   = (block_scaling_coeff dp mfs * 0.5
      * (mf_value mfs site q p * mf_scaling_factor mfs)
      * ext_coef ext_asmlist_u q * ext_coef ext_asmlist_v p)%float)
  /\ (ext_dof ext_asmlist_v p < 0 ->
      fst (DG_local_stiffness_loop dp mfs site ext_asmlist_u ext_asmlist_v acc) p q
      = fst acc p q).
Proof.
  unfold DG_local_stiffness_loop. split.
  - intros [Hp Hdof] Hq.
    assert (Hneg : (ext_dof ext_asmlist_v p <? 0) = false) by (apply Z.ltb_ge; exact Hdof).
    apply (fold_left_establish (fun a : LocalAcc => fst a p q = _) _ _ p).
    + apply in_seq. lia.
    + intros a. rewrite Hneg. apply DG_row_entry. exact Hq.
    + intros a i Ha.
      destruct (Nat.eq_dec i p) as [-> | Hne].
      * rewrite Hneg. apply DG_row_entry. exact Hq.
      * destruct (ext_dof ext_asmlist_v i <? 0); [exact Ha|].
        rewrite DG_row_other by exact Hne. exact Ha.
  - intros Hneg. apply Z.ltb_lt in Hneg.
    apply (fold_left_invariant (fun a : LocalAcc => fst a p q = fst acc p q)); [reflexivity|].
    intros a i _ Ha.
    destruct (Nat.eq_dec i p) as [-> | Hne].
    + rewrite Hneg. exact Ha.
    + destruct (ext_dof ext_asmlist_v i <? 0); [exact Ha|].
      rewrite DG_row_other by exact Hne. exact Ha.
Qed.

Lemma base_test_passed dp form st :
  form_to_be_assembled_MatrixForm dp form st = true ->
  negligible (mf_scaling_factor form) = false
  /\ negligible (block_scaling_coeff dp form) = false
  /\ state_e st (mf_i form) <> None
  /\ state_e st (mf_j form) <> None.
Proof.
  unfold form_to_be_assembled_MatrixForm, block_scaling_coeff.
  destruct (state_e st (mf_i form)); [|discriminate].
  destruct (state_e st (mf_j form)); [|discriminate]. simpl.
  destruct (negligible (mf_scaling_factor form)); [discriminate|].
  destruct (current_block_weights dp) as [tbl|].
  - destruct (negligible (get_A tbl (mf_i form) (mf_j form))); [discriminate|].
    intros _. repeat split; discriminate.
  - intros _. repeat split; discriminate.
Qed.

(** X22: a matrix form that is assembled on a state, by the volume, the
    boundary or the DG path, is scaled by a factor and by a block weight
    that are not negligible, and both its fields have an element there:
    [block_scaling_coeff] yields the weight [form_to_be_assembled] tested,
    and 1 without a table. *)
Theorem assembled_matrix_form_is_properly_scaled
    (dp : DiscreteProblem) (spaces : list Space) (ctx : ThreadCtx) (st : State)
    (neighbor_i : nat) (nss : list (option NeighborSearch)) (acc : Z * list Event)
    (form : MatrixForm) :
  mfvol_step dp spaces ctx st form <> []
  \/ mfsurf_step dp spaces ctx st form <> []
  \/ DG_mfsurf_step dp spaces ctx st neighbor_i nss acc form <> acc ->
  negligible (mf_scaling_factor form) = false
  /\ negligible (block_scaling_coeff dp form) = false
  /\ state_e st (mf_i form) <> None
  /\ state_e st (mf_j form) <> None.
Proof.
  intros Hrun. apply base_test_passed.
  destruct (form_to_be_assembled_MatrixForm dp form st) eqn:Hbase; [reflexivity|].
  exfalso. destruct Hrun as [Hrun | [Hrun | Hrun]]; apply Hrun.
  - unfold mfvol_step, form_to_be_assembled_MatrixFormVol. rewrite Hbase. reflexivity.
  - unfold mfsurf_step, form_to_be_assembled_MatrixFormSurf. rewrite Hbase.
    destruct (active_edge_marker st =? 0); [reflexivity|].
    destruct (Area_eqb _ _); reflexivity.
  - unfold DG_mfsurf_step. rewrite Hbase. reflexivity.
Qed.

End BlockEntries.

Lemma local_block_entry_value_witness :
  fst (local_block (X := ex_X) (ex_dp_bare 1)
         (ex_mform Surf 0 0 HERMES_NONSYM 1%float [HERMES_ANY]) 2
         (current_refmaps (ex_ctx 1)) (current_als (ex_ctx 1)) ex_state_edge1) 1%nat 0%nat
  = 1%float.
Proof.
  rewrite (local_block_entry_value (X := ex_X) (ex_dp_bare 1)
             (ex_mform Surf 0 0 HERMES_NONSYM 1%float [HERMES_ANY]) 2
             (current_refmaps (ex_ctx 1)) (current_als (ex_ctx 1)) ex_state_edge1 1 0).
  - reflexivity.
  - split; [vm_compute; lia | split; [vm_compute; discriminate | reflexivity]].
  - split; [vm_compute; lia | split; [vm_compute; discriminate | reflexivity]].
  - discriminate.
Defined.

Lemma DG_block_entry_value_witness :
  fst (DG_local_stiffness_loop (ex_dp_bare 1)
         (ex_mform Surf 0 0 HERMES_NONSYM 1%float [H2D_DG_INNER_EDGE])
         {| site_state := ex_state; site_neighbor := Some 0%nat; site_quad_order := 20 |}
         {| central_al := ex_asmlist 0; neighbor_al := ex_asmlist 2 |}
         {| central_al := ex_asmlist 0; neighbor_al := ex_asmlist 2 |}
         (fun _ _ => 0%float, [])) 3%nat 1%nat
  = 1%float.
Proof.
  destruct (DG_block_entry_value (ex_dp_bare 1)
              (ex_mform Surf 0 0 HERMES_NONSYM 1%float [H2D_DG_INNER_EDGE])
              {| site_state := ex_state; site_neighbor := Some 0%nat; site_quad_order := 20 |}
              {| central_al := ex_asmlist 0; neighbor_al := ex_asmlist 2 |}
              {| central_al := ex_asmlist 0; neighbor_al := ex_asmlist 2 |}
              (fun _ _ => 0%float, []) 3 1) as [Hentry _].
  rewrite Hentry.
  - reflexivity.
  - split; [vm_compute; lia | vm_compute; discriminate].
  - split; [vm_compute; lia | vm_compute; discriminate].
Defined.

Lemma assembled_matrix_form_is_properly_scaled_witness :
  negligible (mf_scaling_factor (ex_mform Vol 0 0 HERMES_NONSYM 1%float [HERMES_ANY])) = false
  /\ negligible (block_scaling_coeff (ex_dp_bare 1)
                   (ex_mform Vol 0 0 HERMES_NONSYM 1%float [HERMES_ANY])) = false
  /\ state_e ex_state 0 <> None
  /\ state_e ex_state 0 <> None.
Proof.
  apply (assembled_matrix_form_is_properly_scaled (X := ex_X) (ex_dp_bare 1)
           (w_spaces (ex_world 1)) (ex_ctx 1) ex_state 0 [] (20, [])
           (ex_mform Vol 0 0 HERMES_NONSYM 1%float [HERMES_ANY])).
  left. vm_compute. discriminate.
Defined.

(** ** The loops over edges, segments and states *)

Section StateLoops.

Context `{X : Collaborators}.

(** X23: on a state none of whose edges lies on the boundary,
    [assemble_one_state] runs the volume forms only, matrix forms first,
    and leaves the thread objects as [init_state] set them: no surface
    form is looked at. *)
Theorem state_without_boundary_edges_runs_volume_forms_only
    (dp : DiscreteProblem) (spaces : list Space) (ctx : ThreadCtx) (st : State) :
  (forall k, (k < get_num_surf (rep st))%nat -> bnd st k = false) ->
  assemble_one_state dp spaces ctx st
  = ((if current_mat dp
      then flat_map (mfvol_step dp spaces (init_state dp spaces ctx st) st) (mfvol (wf dp))
      else [])
     ++ (if current_rhs dp
         then flat_map (vfvol_step dp spaces (init_state dp spaces ctx st) st) (vfvol (wf dp))
         else []),
     init_state dp spaces ctx st).
Proof.
  intros Hbnd. unfold assemble_one_state.
  apply (fold_left_invariant (fun acc : list Event * ThreadCtx => acc = _)); [reflexivity|].
  intros acc k Hk Hacc. apply in_seq in Hk. simpl.
  rewrite (Hbnd k) by lia. simpl. exact Hacc.
Qed.

(** X24: for a segment that was processed from the other side,
    [assemble_DG_one_neighbor] performs no operation on the matrix and
    calls no matrix form; when moreover no DG vector form is present, the
    loop over the segments passes the segment over. *)
Theorem processed_segment_gets_no_matrix_contribution
    (dp : DiscreteProblem) (spaces : list Space) (ctx : ThreadCtx) (st : State)
    (neighbor_i : nat) (nss : list (option NeighborSearch)) :
  Forall (fun ev => is_matrix_event ev = false)
    (assemble_DG_one_neighbor dp spaces ctx st true neighbor_i nss)
  /\ (DG_vector_forms_present dp = false ->
      segment_processed nss neighbor_i = inr true ->
      DG_segments_loop dp spaces ctx st nss [neighbor_i] = ([], None)).
Proof.
  split.
  - unfold assemble_DG_one_neighbor. rewrite andb_false_r. simpl.
    destruct (_ && _)%bool; [|constructor].
    apply (fold_left_invariant
             (fun a : Z * list Event => Forall (fun ev => is_matrix_event ev = false) (snd a)));
      [constructor|].
    intros a vfs _ Ha.
    apply (DG_vfsurf_step_events (fun ev => is_matrix_event ev = false));
      [reflexivity | reflexivity | exact Ha].
  - intros Hv Hp. simpl. rewrite Hp, Hv. reflexivity.
Qed.

Lemma create_sparse_structure_keeps_outputs dp w :
  current_mat (fst (fst (create_sparse_structure dp w))) = current_mat dp
  /\ current_rhs (fst (fst (create_sparse_structure dp w))) = current_rhs dp.
Proof.
  unfold create_sparse_structure.
  destruct (is_up_to_date dp (w_spaces w)).
  - destruct (current_rhs dp) eqn:Er; [destruct (vec_length (w_rhs w) =? 0)|];
      simpl; split; congruence.
  - destruct (current_mat dp) eqn:Em.
    + destruct (rebuild_matrix dp (w_spaces w)) as [[fd sps] mev].
      destruct (current_rhs dp) eqn:Er; simpl; split; congruence.
    + destruct (current_rhs dp) eqn:Er; simpl; split; congruence.
Qed.

Lemma one_state_without_forms dp spaces ctx st :
  mfvol (wf dp) = [] -> mfsurf (wf dp) = [] ->
  vfvol (wf dp) = [] -> vfsurf (wf dp) = [] ->
  fst (assemble_one_state dp spaces ctx st) = [].
Proof.
  intros H1 H2 H3 H4. unfold assemble_one_state. rewrite H1, H2, H3, H4.
  apply (fold_left_invariant (fun acc : list Event * ThreadCtx => fst acc = [])).
  - simpl. destruct (current_mat dp), (current_rhs dp); reflexivity.
  - intros acc k _ Hacc.
    destruct (negb (bnd _ k)); [exact Hacc|]. simpl. rewrite Hacc.
    destruct (current_mat dp), (current_rhs dp); reflexivity.
Qed.

Lemma states_loop_without_forms dp spaces states :
  mfvol (wf dp) = [] -> mfsurf (wf dp) = [] ->
  vfvol (wf dp) = [] -> vfsurf (wf dp) = [] ->
  DG_matrix_forms_present dp = false -> DG_vector_forms_present dp = false ->
  forall ctx, states_loop state_work dp spaces ctx states = ([], None).
Proof.
  intros H1 H2 H3 H4 Hm Hv.
  induction states as [|st rest IH]; intros ctx; simpl; [reflexivity|].
  unfold state_work at 1.
  pose proof (one_state_without_forms dp spaces ctx st H1 H2 H3 H4) as Hs.
  destruct (assemble_one_state dp spaces ctx st) as [evs ctx']. simpl in Hs. subst evs.
  rewrite Hm, Hv. simpl. rewrite IH. reflexivity.
Qed.

(** X25: for a weak form without forms (and hence without DG flags), an
    [assemble] call with a block-weight table of the right size, or none,
    completes without an exception and performs nothing but the
    operations of [create_sparse_structure] followed by [finish] on the
    outputs given: nothing is added and no form is called, whatever the
    traversal yields. *)
Theorem weak_form_without_forms_adds_nothing
    (dp : DiscreteProblem) (w : World) (coeff_vec : option (list MeshFunction))
    (mat rhs force_diagonal_blocks : bool) (block_weights : option Table) :
  mfvol (wf dp) = [] -> mfsurf (wf dp) = [] ->
  vfvol (wf dp) = [] -> vfsurf (wf dp) = [] ->
  DG_matrix_forms_present dp = false -> DG_vector_forms_present dp = false ->
  bad_table dp block_weights = false ->
  assemble dp w coeff_vec mat rhs force_diagonal_blocks block_weights
  = (fst (fst (create_sparse_structure
                 (set_current dp mat rhs force_diagonal_blocks block_weights) w)),
     snd (fst (create_sparse_structure
                 (set_current dp mat rhs force_diagonal_blocks block_weights) w)),
     snd (create_sparse_structure
            (set_current dp mat rhs force_diagonal_blocks block_weights) w)
     ++ (if mat then [MatFinish] else []) ++ (if rhs then [RhsFinish] else []),
     None).
Proof.
  intros H1 H2 H3 H4 Hm Hv Hbad. unfold assemble, assemble_with.
  change (bad_table (set_current dp mat rhs force_diagonal_blocks block_weights) block_weights)
    with (bad_table dp block_weights).
  rewrite Hbad.
  pose proof (create_sparse_structure_keeps_forms
                (set_current dp mat rhs force_diagonal_blocks block_weights) w)
    as [Hwf [Hdm Hdv]].
  pose proof (create_sparse_structure_keeps_outputs
                (set_current dp mat rhs force_diagonal_blocks block_weights) w)
    as [Hcm Hcr].
  destruct (create_sparse_structure _ w) as [[dpc wc] sev]. simpl in *.
  rewrite states_loop_without_forms; try congruence.
  rewrite Hcm, Hcr. reflexivity.
Qed.

End StateLoops.

Lemma state_without_boundary_edges_runs_volume_forms_only_witness :
  fst (assemble_one_state (X := ex_X) ex_dp_fvm (w_spaces (ex_world 1)) (ex_ctx 1)
         ex_state_interior)
  = flat_map (mfvol_step (X := ex_X) ex_dp_fvm (w_spaces (ex_world 1))
                (init_state (X := ex_X) ex_dp_fvm (w_spaces (ex_world 1)) (ex_ctx 1)
                   ex_state_interior) ex_state_interior) (mfvol (wf ex_dp_fvm))
    ++ flat_map (vfvol_step (X := ex_X) ex_dp_fvm (w_spaces (ex_world 1))
                   (init_state (X := ex_X) ex_dp_fvm (w_spaces (ex_world 1)) (ex_ctx 1)
                      ex_state_interior) ex_state_interior) (vfvol (wf ex_dp_fvm)).
Proof.
  rewrite (state_without_boundary_edges_runs_volume_forms_only (X := ex_X) ex_dp_fvm
             (w_spaces (ex_world 1)) (ex_ctx 1) ex_state_interior).
  - reflexivity.
  - intros k _. reflexivity.
Defined.

Lemma processed_segment_gets_no_matrix_contribution_witness :
  DG_segments_loop (X := ex_X) ex_dp_DG (w_spaces (ex_world 2)) (ex_ctx 2) ex_state2
    [Some (ex_ns 1 [ex_el_visited])] [0%nat]
  = ([], None).
Proof.
  apply (processed_segment_gets_no_matrix_contribution (X := ex_X) ex_dp_DG
           (w_spaces (ex_world 2)) (ex_ctx 2) ex_state2 0 [Some (ex_ns 1 [ex_el_visited])]);
    reflexivity.
Defined.

Lemma weak_form_without_forms_adds_nothing_witness :
  trace_of (assemble (X := ex_X) (ex_dp_bare 1) (ex_world 1) None true true false None)
  = snd (create_sparse_structure (X := ex_X)
           (set_current (ex_dp_bare 1) true true false None) (ex_world 1))
    ++ [MatFinish; RhsFinish].
Proof.
  rewrite (weak_form_without_forms_adds_nothing (X := ex_X) (ex_dp_bare 1) (ex_world 1) None
             true true false None); reflexivity.
Defined.

(** ** Errors of the multimesh tree, and the ways the traversal yields *)

Section MultimeshTreeErrors.

Lemma find_node_app p :
  forall q node,
    find_node (p ++ q) node
    = match find_node p node with
      | inr n => find_node q n
      | inl ex => inl ex
      end.
Proof.
  induction p as [|p0 ps IH]; intros q node; [reflexivity|].
  destruct node as [|t l r]; [reflexivity|]. simpl.
  destruct l as [|tl ll lr].
  - destruct r as [|tr rl rr]; [reflexivity|].
    destruct (tr =? p0); [apply IH | reflexivity].
  - destruct (tl =? p0); [apply IH|].
    destruct r as [|tr rl rr]; [reflexivity|].
    destruct (tr =? p0); [apply IH | reflexivity].
Qed.

Lemma insert_error_below p :
  forall t l r n q ex,
    left_son_first (NeighborNode t l r) = true ->
    find_node p (NeighborNode t l r) = inr n ->
    insert_into_multimesh_tree n q = inl ex ->
    insert_into_multimesh_tree (NeighborNode t l r) (p ++ q) = inl ex.
Proof.
  induction p as [|p0 ps IH]; intros t l r n q ex Hok Hfind Hins.
  - simpl in Hfind. inversion Hfind. subst n. exact Hins.
  - destruct (left_son_first_sons _ _ _ Hok) as [Hl Hr].
    change ((p0 :: ps) ++ q) with (p0 :: (ps ++ q)).
    destruct (insert_cases t l r p0 Hok)
      as [-> -> | tl ll lr -> Htl | tl ll lr tr rl rr -> -> Htl Htr
          | tl ll lr -> -> Htl | tl ll lr tr rl rr -> -> Htl Htr].
    + rewrite find_not_found in Hfind by discriminate. discriminate.
    + rewrite find_through_left in Hfind by exact Htl.
      rewrite (insert_through_left _ _ _ _ _ _ _ Htl).
      rewrite (IH tl ll lr n q ex Hl Hfind Hins). reflexivity.
    + rewrite find_through_right in Hfind by assumption.
      rewrite (insert_through_right _ _ _ _ _ _ _ _ _ Htl Htr).
      rewrite (IH tr rl rr n q ex Hr Hfind Hins). reflexivity.
    + rewrite find_not_found in Hfind; [discriminate| |discriminate].
      intros ? ? ? Heq. inversion Heq. subst. exact Htl.
    + rewrite find_not_found in Hfind; [discriminate| |];
        intros ? ? ? Heq; inversion Heq; subst; assumption.
Qed.

(** X26: a path that leads, in a tree of the shape, to a node with two sons
    and goes on with a transformation that neither son carries cannot be
    inserted: [insert_into_multimesh_tree] ends in the fatal error "More
    than two possible sons", whatever follows on the path. *)
Theorem third_son_is_a_fatal_error
    (node : NodePtr) (p : list Z) (t tl tr t0 : Z) (ll lr rl rr : NodePtr) (rest : list Z) :
  shaped node ->
  find_node p node = inr (NeighborNode t (NeighborNode tl ll lr) (NeighborNode tr rl rr)) ->
  tl <> t0 -> tr <> t0 ->
  insert_into_multimesh_tree node (p ++ t0 :: rest)
  = inl (FatalError "More than two possible sons in insert_into_multimesh_tree().").
Proof.
  intros [Hn Hok] Hfind Htl Htr. destruct node as [|tn l r]; [discriminate Hn|].
  apply (insert_error_below p tn l r _ (t0 :: rest) _ Hok Hfind).
  apply insert_third_son; apply Z.eqb_neq; assumption.
Qed.

(** X27: [find_node] follows a path piece by piece: looking up [p ++ q] is
    looking up [p] and then [q] from the node found.  When the node found
    for [p] has no son that carries the next transformation, the lookup
    ends in the fatal error "Transformation of a central element not found
    in the multimesh tree". *)
Theorem lookup_goes_piece_by_piece (p : list Z) (node : NodePtr) :
  (forall q,
      find_node (p ++ q) node
      = match find_node p node with
        | inr n => find_node q n
        | inl ex => inl ex
        end)
  /\ (forall t l r t0 rest,
        find_node p node = inr (NeighborNode t l r) ->
        (is_NULL l = true \/ get_transformation l <> t0) ->
        (is_NULL r = true \/ get_transformation r <> t0) ->
        find_node (p ++ t0 :: rest) node
        = inl (FatalError
                 "Transformation of a central element not found in the multimesh tree.")).
Proof.
  split.
  - intros q. apply find_node_app.
  - intros t l r t0 rest Hfind Hl Hr.
    rewrite find_node_app, Hfind.
    apply find_not_found.
    + intros tl ll lr ->. destruct Hl as [Hl | Hl]; [discriminate Hl|].
      apply Z.eqb_neq. exact Hl.
    + intros tr rl rr ->. destruct Hr as [Hr | Hr]; [discriminate Hr|].
      apply Z.eqb_neq. exact Hr.
Qed.

Lemma leaf_paths_NULL_son son p : In p (leaf_paths son) -> is_NULL son = false.
Proof.
  destruct son; [intros [] | reflexivity].
Qed.

Lemma leaf_path_leads_to_leaf node :
  left_son_first node = true ->
  forall p,
    In p (leaf_paths node) ->
    exists ps leaf,
      p = get_transformation node :: ps
      /\ find_node ps node = inr leaf
      /\ is_NULL leaf = false
      /\ is_NULL (get_left_son leaf) = true
      /\ is_NULL (get_right_son leaf) = true.
Proof.
  induction node as [|t l IHl r IHr]; intros Hok p Hp; [destruct Hp|].
  destruct (left_son_first_sons _ _ _ Hok) as [Hokl Hokr].
  rewrite leaf_paths_node in Hp.
  destruct (is_NULL l && is_NULL r)%bool eqn:Hleaf.
  - destruct Hp as [<- | []].
    apply andb_prop in Hleaf. destruct Hleaf as [Hl Hr].
    exists [], (NeighborNode t l r). repeat split; assumption.
  - apply in_map_iff in Hp. destruct Hp as [p' [<- Hp']].
    apply in_app_or in Hp'. destruct Hp' as [Hp' | Hp'].
    + destruct (IHl Hokl p' Hp') as [ps [leaf [-> [Hfind Hrest]]]].
      destruct l as [|tl ll lr]; [destruct Hp'|].
      exists (tl :: ps), leaf. split; [reflexivity|]. split; [|exact Hrest].
      rewrite find_through_left by apply Z.eqb_refl. exact Hfind.
    + destruct (IHr Hokr p' Hp') as [ps [leaf [-> [Hfind Hrest]]]].
      destruct r as [|tr rl rr]; [destruct Hp'|].
      destruct l as [|tl ll lr]; [discriminate Hok|].
      exists (tr :: ps), leaf. split; [reflexivity|]. split; [|exact Hrest].
      rewrite find_through_right; [exact Hfind | | apply Z.eqb_refl].
      simpl in Hok.
      apply andb_prop in Hok. destruct Hok as [Hok _].
      apply andb_prop in Hok. destruct Hok as [Hne _].
      apply negb_true_iff in Hne. exact Hne.
Qed.

(** X28: in a tree of the shape whose root carries the transformation 0 and
    no other node does, every list of transformations that
    [get_multimesh_neighbors_transformations] yields is found by
    [find_node] from the root, at a leaf. *)
Theorem traversed_transformations_lead_to_leaves
    (l r : NodePtr) (paths : Running) (p : list Z) :
  left_son_first (NeighborNode 0 l r) = true ->
  nonzero_transformations l = true ->
  nonzero_transformations r = true ->
  get_multimesh_neighbors_transformations (NeighborNode 0 l r) = Some paths ->
  In p paths ->
  exists leaf,
    find_node p (NeighborNode 0 l r) = inr leaf
    /\ is_NULL leaf = false
    /\ is_NULL (get_left_son leaf) = true
    /\ is_NULL (get_right_son leaf) = true.
Proof.
  intros Hok Hl Hr Hget Hp.
  unfold get_multimesh_neighbors_transformations in Hget.
  rewrite traverse_multimesh_tree_node, Z.eqb_refl in Hget.
  change [[]] with (@nil (list Z) ++ [[]]) in Hget.
  rewrite (traverse_sons l r (fun H => traverse_below_root l H Hl)
                             (fun H => traverse_below_root r H Hr)) in Hget.
  rewrite app_nil_l, pop_back_app, map_app_nil in Hget.
  inversion Hget. subst paths. clear Hget.
  destruct (left_son_first_sons _ _ _ Hok) as [Hokl Hokr].
  apply in_app_or in Hp. destruct Hp as [Hp | Hp].
  - destruct (leaf_path_leads_to_leaf l Hokl p Hp) as [ps [leaf [-> [Hfind Hrest]]]].
    destruct l as [|tl ll lr]; [destruct Hp|].
    exists leaf. split; [|exact Hrest].
    simpl get_transformation.
    rewrite find_through_left by apply Z.eqb_refl. exact Hfind.
  - destruct (leaf_path_leads_to_leaf r Hokr p Hp) as [ps [leaf [-> [Hfind Hrest]]]].
    destruct r as [|tr rl rr]; [destruct Hp|].
    destruct l as [|tl ll lr]; [discriminate Hok|].
    exists leaf. split; [|exact Hrest].
    simpl get_transformation.
    rewrite find_through_right; [exact Hfind | | apply Z.eqb_refl].
    simpl in Hok.
    apply andb_prop in Hok. destruct Hok as [Hok _].
    apply andb_prop in Hok. destruct Hok as [Hne _].
    apply negb_true_iff in Hne. exact Hne.
Qed.

End MultimeshTreeErrors.

Lemma third_son_is_a_fatal_error_witness :
  insert_into_multimesh_tree ex_tree ([1] ++ 4 :: [2])
  = inl (FatalError "More than two possible sons in insert_into_multimesh_tree().").
Proof.
  apply (third_son_is_a_fatal_error ex_tree [1] 1 2 3 4 NULL NULL NULL NULL [2]).
  - split; reflexivity.
  - reflexivity.
  - discriminate.
  - discriminate.
Defined.

Lemma lookup_goes_piece_by_piece_witness :
  find_node ([2] ++ 1 :: []) ex_tree
  = inl (FatalError "Transformation of a central element not found in the multimesh tree.").
Proof.
  apply (proj2 (lookup_goes_piece_by_piece [2] ex_tree) 2 NULL NULL 1 []).
  - reflexivity.
  - left. reflexivity.
  - left. reflexivity.
Defined.

Lemma traversed_transformations_lead_to_leaves_witness :
  exists leaf,
    find_node [1; 3] ex_tree = inr leaf
    /\ is_NULL leaf = false
    /\ is_NULL (get_left_son leaf) = true
    /\ is_NULL (get_right_son leaf) = true.
Proof.
  apply (traversed_transformations_lead_to_leaves
           (NeighborNode 1 (NeighborNode 2 NULL NULL) (NeighborNode 3 NULL NULL))
           (NeighborNode 2 NULL NULL) [[1; 2]; [1; 3]; [2]] [1; 3]).
  - reflexivity.
  - reflexivity.
  - reflexivity.
  - reflexivity.
  - right. left. reflexivity.
Defined.

(** ** Blocks that are not mirrored, and the order of the shape functions *)

Section Unmirrored.

Context `{X : Collaborators}.

(** X29: the block of a matrix form on one field ([i = j]), whatever its
    symmetry tag, and the block of a form tagged unsymmetric are added to
    the matrix once, at the position of the form: no mirrored block
    follows. *)
Theorem unmirrored_block_is_added_once
    (dp : DiscreteProblem) (form : MatrixForm) (order : Z)
    (refmaps : list RefMap) (als : list AsmList) (st : State) :
  mf_i form = mf_j form \/ mf_sym form = HERMES_NONSYM ->
  assemble_matrix_form dp form order refmaps als st
  = snd (local_block dp form order refmaps als st)
    ++ [MatAdd (cnt (als_at als (mf_i form))) (cnt (als_at als (mf_j form)))
          (fst (local_block dp form order refmaps als st))
          (al_dofs (als_at als (mf_i form))) (al_dofs (als_at als (mf_j form)))].
Proof.
  intros Hcase. unfold assemble_matrix_form.
  assert (Htra : (negb (Nat.eqb (mf_i form) (mf_j form))
                  && negb (sym_int (mf_sym form) =? 0))%bool = false).
  { destruct Hcase as [Hij | Hsym].
    - rewrite Hij, Nat.eqb_refl. reflexivity.
    - rewrite Hsym. apply andb_false_r. }
  rewrite Htra.
  destruct (local_block dp form order refmaps als st) as [M calls].
  simpl. reflexivity.
Qed.

End Unmirrored.

Lemma unmirrored_block_is_added_once_witness :
  List.length
    (filter is_MatAdd
       (assemble_matrix_form (X := ex_X) (ex_dp_bare 1)
          (ex_mform Vol 0 0 HERMES_ANTISYM 1%float [HERMES_ANY]) 2
          (current_refmaps (ex_ctx 1)) (current_als (ex_ctx 1)) ex_state))
  = 1%nat.
Proof.
  rewrite (unmirrored_block_is_added_once (X := ex_X) (ex_dp_bare 1)
             (ex_mform Vol 0 0 HERMES_ANTISYM 1%float [HERMES_ANY]) 2
             (current_refmaps (ex_ctx 1)) (current_als (ex_ctx 1)) ex_state).
  - vm_compute. reflexivity.
  - left. reflexivity.
Defined.

Section ShapeFunctionOrder.

Lemma max_with_edge_orders_fold sp el ks :
  forall mo,
    let r := fold_left (fun mo k => let eo := get_edge_order sp el k in
                                    if mo <? eo then eo else mo) ks mo in
    mo <= r
    /\ (forall k, In k ks -> get_edge_order sp el k <= r)
    /\ (r = mo \/ exists k, In k ks /\ r = get_edge_order sp el k).
Proof.
  induction ks as [|k0 rest IH]; intros mo; cbv zeta; simpl.
  - split; [lia|]. split; [intros k []|]. left. reflexivity.
  - destruct (IH (if mo <? get_edge_order sp el k0 then get_edge_order sp el k0 else mo))
      as [Hle [Hall Hex]].
    cbv zeta in *.
    destruct (mo <? get_edge_order sp el k0) eqn:Hlt.
    + apply Z.ltb_lt in Hlt.
      split; [lia|].
      split; [intros k [<- | Hk]; [exact Hle | apply Hall; exact Hk]|].
      right. destruct Hex as [Heq | [k [Hk Heq]]].
      * exists k0. split; [left; reflexivity | exact Heq].
      * exists k. split; [right; exact Hk | exact Heq].
    + apply Z.ltb_ge in Hlt.
      split; [exact Hle|].
      split; [intros k [<- | Hk]; [lia | apply Hall; exact Hk]|].
      destruct Hex as [Heq | [k [Hk Heq]]].
      * left. exact Heq.
      * right. exists k. split; [right; exact Hk | exact Heq].
Qed.

(** X30: the loop of the order calculation over the edges of the
    representative element yields the greatest of the order it starts
    from and the orders of the edges: the result is one of them and is
    below none of them. *)
Theorem edge_orders_raise_the_order
    (sp : Space) (el : Element) (num_surf : nat) (max_order : Z) (k : nat) :
  (k < num_surf)%nat ->
  max_order <= max_with_edge_orders sp el num_surf max_order
  /\ get_edge_order sp el k <= max_with_edge_orders sp el num_surf max_order
  /\ (max_with_edge_orders sp el num_surf max_order = max_order
      \/ exists k', (k' < num_surf)%nat
                    /\ max_with_edge_orders sp el num_surf max_order
                       = get_edge_order sp el k').
Proof.
  intros Hk. unfold max_with_edge_orders.
  destruct (max_with_edge_orders_fold sp el (seq 0 num_surf) max_order) as [Hle [Hall Hex]].
  cbv zeta in *.
  split; [exact Hle|].
  split; [apply Hall; apply in_seq; lia|].
  destruct Hex as [Heq | [k' [Hk' Heq]]].
  - left. exact Heq.
  - right. exists k'. split; [apply in_seq in Hk'; lia | exact Heq].
Qed.

End ShapeFunctionOrder.

Lemma edge_orders_raise_the_order_witness :
  1 <= max_with_edge_orders (ex_space_on 5) ex_el 3 1
  /\ get_edge_order (ex_space_on 5) ex_el 2 <= max_with_edge_orders (ex_space_on 5) ex_el 3 1
  /\ (max_with_edge_orders (ex_space_on 5) ex_el 3 1 = 1
      \/ exists k', (k' < 3)%nat
                    /\ max_with_edge_orders (ex_space_on 5) ex_el 3 1
                       = get_edge_order (ex_space_on 5) ex_el k').
Proof.
  apply (edge_orders_raise_the_order (ex_space_on 5) ex_el 3 1 2). lia.
Defined.
